(** * secp256k1 field and group arithmetic: a shallow embedding of
      [src/secp256k1.cpp] and the properties of its operations.

    Data model.  A [FieldElem] is the array [uint64_t n[5]]; every limb is
    a [Z] and every [uint64_t] operation is written with its reduction
    modulo [2^64].  The [__int128] accumulator [c] of the multiplication
    kernels is a signed 128-bit integer: signed overflow is undefined
    behaviour in C++, so the kernels live in the [option] monad and return
    [None] as soon as one intermediate leaves [-2^127, 2^127).  Bit
    operations are [Z.land], [Z.lor], [Z.shiftl] and [Z.shiftr].

    Field-level aliasing.  [x.SetSquare(x)], [x.SetMult(x,m)] and
    [x.SetNeg(x,k)] are called with the destination aliasing an input.  The
    kernels read [a.n] and [b.n] only while filling the locals [t0..t9] and
    write [n[0..4]] afterwards, and [SetNeg] reads limb [i] for writing limb
    [i] only, so the field operations are modelled as functions from the
    input values to the output value.

    Group-level aliasing.  [SetDouble] and [SetAdd] take their operands by
    reference and are called with the destination among them
    ([x1.SetAdd(x1, g2a)] in [main]); what they compute depends on it, so
    the group layer is modelled over a store of objects, the operands being
    addresses. *)

From Stdlib Require Import ZArith Lia List Bool String Ascii Znumtheory Zpow_facts.
From Stdlib Require Import Zmod.Zmod.
Import ListNotations.
Local Open Scope Z_scope.

(** ** Machine integers *)

Definition u64 (x : Z) : Z := x mod 2^64.

Definition i128 (x : Z) : option Z :=
  if (- 2^127 <=? x) && (x <? 2^127) then Some x else None.

Definition bind {A B : Type} (m : option A) (k : A -> option B) : option B :=
  match m with
  | Some x => k x
  | None => None
  end.

Declare Scope cxx_scope.
Delimit Scope cxx_scope with cxx.
Notation "x <- m ;; k" := (bind m (fun x => k))
  (at level 61, m at next level, right associativity) : cxx_scope.
Notation "'ret' x" := (Some x) (at level 60) : cxx_scope.
Local Open Scope cxx_scope.

(** [(__int128)x * y] and [c + d] on [__int128]. *)
Definition mul128 (x y : Z) : option Z := i128 (x * y).
Definition add128 (x y : Z) : option Z := i128 (x + y).

(** [c + (__int128)x1 * y1 + (__int128)x2 * y2 + ...], evaluated left to
    right as C++ does. *)
Fixpoint acc128 (c : Z) (l : list (Z * Z)) : option Z :=
  match l with
  | [] => ret c
  | (x, y) :: l' => p <- mul128 x y ;; s <- add128 c p ;; acc128 s l'
  end.

(** A loop body run [n] times. *)
Fixpoint repeatM {A : Type} (n : nat) (f : A -> option A) (x : A) : option A :=
  match n with
  | O => ret x
  | S n' => x' <- f x ;; repeatM n' f x'
  end.

(** ** Field elements *)

Record FieldElem : Type := mkFieldElem { n0 : Z; n1 : Z; n2 : Z; n3 : Z; n4 : Z }.

(** The field prime, FFFFFFFF ... FFFFFFFE FFFFFC2F. *)
Definition p_field : Z :=
  0xFFFFFFFFFFFFFFFFFFFFFFFFFFFFFFFFFFFFFFFFFFFFFFFFFFFFFFFEFFFFFC2F.

(** [X = sum(i=0..4, n[i] * 2^(52 i))]. *)
Definition value (a : FieldElem) : Z :=
  n0 a + n1 a * 2^52 + n2 a * 2^104 + n3 a * 2^156 + n4 a * 2^208.

(** Limb-wise bounds. *)
Definition limbs_le (a : FieldElem) (b0 b1 b2 b3 b4 : Z) : Prop :=
  (0 <= n0 a <= b0) /\ (0 <= n1 a <= b1) /\ (0 <= n2 a <= b2) /\
  (0 <= n3 a <= b3) /\ (0 <= n4 a <= b4).

(** The magnitude bounds of the class comment: every limb at most
    [M * (2^53 - 1)], the most significant one at most [M * (2^49 - 1)]. *)
Definition magnitude (M : Z) (a : FieldElem) : Prop :=
  limbs_le a (M * (2^53 - 1)) (M * (2^53 - 1)) (M * (2^53 - 1))
             (M * (2^53 - 1)) (M * (2^49 - 1)).

(** The canonical form: limbs 0..3 below [2^52], limb 4 below [2^48], value
    below the prime. *)
Definition canonical (a : FieldElem) : Prop :=
  limbs_le a (2^52 - 1) (2^52 - 1) (2^52 - 1) (2^52 - 1) (2^48 - 1) /\
  value a < p_field.

(** [FieldElem(int x = 0)]. *)
Definition FieldElem_of_int (x : Z) : FieldElem := mkFieldElem (u64 x) 0 0 0 0.

Definition mask52 : Z := 0xFFFFFFFFFFFFF.
Definition mask48 : Z := 0x0FFFFFFFFFFFF.

(** *** Normalize *)

Definition Normalize (a : FieldElem) : FieldElem :=
  let a1 :=
    if (n0 a >? mask52) || (n1 a >? mask52) || (n2 a >? mask52) ||
       (n3 a >? mask52) || (n4 a >? mask48)
    then
      let c := n0 a in
      let t0 := Z.land c mask52 in
      let c := u64 (Z.shiftr c 52 + n1 a) in
      let t1 := Z.land c mask52 in
      let c := u64 (Z.shiftr c 52 + n2 a) in
      let t2 := Z.land c mask52 in
      let c := u64 (Z.shiftr c 52 + n3 a) in
      let t3 := Z.land c mask52 in
      let c := u64 (Z.shiftr c 52 + n4 a) in
      let t4 := Z.land c mask48 in
      let c := Z.shiftr c 48 in
      if negb (c =? 0) then
        let c := u64 (u64 (c * 0x1000003D1) + t0) in
        let t0 := Z.land c mask52 in
        let c := u64 (Z.shiftr c 52 + t1) in
        let t1 := Z.land c mask52 in
        let c := u64 (Z.shiftr c 52 + t2) in
        let t2 := Z.land c mask52 in
        let c := u64 (Z.shiftr c 52 + t3) in
        let t3 := Z.land c mask52 in
        let c := u64 (Z.shiftr c 52 + t4) in
        let t4 := Z.land c mask48 in
        (* [c >>= 48;] the value left in [c] is not used *)
        mkFieldElem t0 t1 t2 t3 t4
      else mkFieldElem t0 t1 t2 t3 t4
    else a in
  if (n4 a1 =? mask48) && (n3 a1 =? mask52) && (n2 a1 =? mask52) &&
     (n1 a1 =? mask52) && (n0 a1 >=? 0xFFFFEFFFFFC2F)
  then mkFieldElem (u64 (n0 a1 - 0xFFFFEFFFFFC2F)) 0 0 0 0
  else a1.

(** The queries normalise the receiver in place: they return the answer and
    the receiver as they leave it. *)
Definition all_zero (a : FieldElem) : bool :=
  (n0 a =? 0) && (n1 a =? 0) && (n2 a =? 0) && (n3 a =? 0) && (n4 a =? 0).

Definition IsZero (a : FieldElem) : bool * FieldElem :=
  let a := Normalize a in (all_zero a, a).

Definition same_limbs (a b : FieldElem) : bool :=
  (n0 a =? n0 b) && (n1 a =? n1 b) && (n2 a =? n2 b) && (n3 a =? n3 b) &&
  (n4 a =? n4 b).

(** [operator==]: both operands are normalised in place. *)
Definition eq_op (a b : FieldElem) : bool * FieldElem * FieldElem :=
  let a := Normalize a in
  let b := Normalize b in
  (same_limbs a b, a, b).

Definition IsOdd (a : FieldElem) : bool * FieldElem :=
  let a := Normalize a in (negb (Z.land (n0 a) 1 =? 0), a).

(** *** Get and Set: four base-2^64 words, word 0 low *)

Definition Get (a : FieldElem) : list Z * FieldElem :=
  let a := Normalize a in
  ([ Z.lor (n0 a) (u64 (Z.shiftl (n1 a) 52));
     Z.lor (Z.shiftr (n1 a) 12) (u64 (Z.shiftl (n2 a) 40));
     Z.lor (Z.shiftr (n2 a) 24) (u64 (Z.shiftl (n3 a) 28));
     Z.lor (Z.shiftr (n3 a) 36) (u64 (Z.shiftl (n4 a) 16)) ], a).

Definition word (w : list Z) (i : nat) : Z := nth i w 0.

Definition Set_ (w : list Z) : FieldElem :=
  mkFieldElem
    (Z.land (word w 0) mask52)
    (Z.land (Z.lor (Z.shiftr (word w 0) 52) (u64 (Z.shiftl (word w 1) 12))) mask52)
    (Z.land (Z.lor (Z.shiftr (word w 1) 40) (u64 (Z.shiftl (word w 2) 24))) mask52)
    (Z.land (Z.lor (Z.shiftr (word w 2) 28) (u64 (Z.shiftl (word w 3) 36))) mask52)
    (Z.shiftr (word w 3) 16).

(** *** SetNeg, operator*=, operator+= *)

Definition SetNeg (a : FieldElem) (magnitudeIn : Z) : FieldElem :=
  let k := u64 (magnitudeIn + 1) in
  mkFieldElem
    (u64 (u64 (0xFFFFEFFFFFC2F * k) - n0 a))
    (u64 (u64 (0xFFFFFFFFFFFFF * k) - n1 a))
    (u64 (u64 (0xFFFFFFFFFFFFF * k) - n2 a))
    (u64 (u64 (0xFFFFFFFFFFFFF * k) - n3 a))
    (u64 (u64 (0x0FFFFFFFFFFFF * k) - n4 a)).

Definition mul_int (a : FieldElem) (v : Z) : FieldElem :=
  let k := u64 v in
  mkFieldElem (u64 (n0 a * k)) (u64 (n1 a * k)) (u64 (n2 a * k))
              (u64 (n3 a * k)) (u64 (n4 a * k)).

Definition add_assign (r a : FieldElem) : FieldElem :=
  mkFieldElem (u64 (n0 r + n0 a)) (u64 (n1 r + n1 a)) (u64 (n2 r + n2 a))
              (u64 (n3 r + n3 a)) (u64 (n4 r + n4 a)).

(** *** SetMult *)

Definition SetMult (a b : FieldElem) : option FieldElem :=
  c <- mul128 (n0 a) (n0 b) ;;
  let t0 := u64 (Z.land c mask52) in let c := Z.shiftr c 52 in
  c <- acc128 c [(n0 a, n1 b); (n1 a, n0 b)] ;;
  let t1 := u64 (Z.land c mask52) in let c := Z.shiftr c 52 in
  c <- acc128 c [(n0 a, n2 b); (n1 a, n1 b); (n2 a, n0 b)] ;;
  let t2 := u64 (Z.land c mask52) in let c := Z.shiftr c 52 in
  c <- acc128 c [(n0 a, n3 b); (n1 a, n2 b); (n2 a, n1 b); (n3 a, n0 b)] ;;
  let t3 := u64 (Z.land c mask52) in let c := Z.shiftr c 52 in
  c <- acc128 c [(n0 a, n4 b); (n1 a, n3 b); (n2 a, n2 b); (n3 a, n1 b);
                 (n4 a, n0 b)] ;;
  let t4 := u64 (Z.land c mask52) in let c := Z.shiftr c 52 in
  c <- acc128 c [(n1 a, n4 b); (n2 a, n3 b); (n3 a, n2 b); (n4 a, n1 b)] ;;
  let t5 := u64 (Z.land c mask52) in let c := Z.shiftr c 52 in
  c <- acc128 c [(n2 a, n4 b); (n3 a, n3 b); (n4 a, n2 b)] ;;
  let t6 := u64 (Z.land c mask52) in let c := Z.shiftr c 52 in
  c <- acc128 c [(n3 a, n4 b); (n4 a, n3 b)] ;;
  let t7 := u64 (Z.land c mask52) in let c := Z.shiftr c 52 in
  c <- acc128 c [(n4 a, n4 b)] ;;
  let t8 := u64 (Z.land c mask52) in let c := Z.shiftr c 52 in
  let t9 := u64 c in
  c <- acc128 t0 [(t5, 0x1000003D10)] ;;
  let t0 := u64 (Z.land c mask52) in let c := Z.shiftr c 52 in
  c <- add128 c t1 ;; c <- acc128 c [(t6, 0x1000003D10)] ;;
  let t1 := u64 (Z.land c mask52) in let c := Z.shiftr c 52 in
  c <- add128 c t2 ;; c <- acc128 c [(t7, 0x1000003D10)] ;;
  let r2 := u64 (Z.land c mask52) in let c := Z.shiftr c 52 in
  c <- add128 c t3 ;; c <- acc128 c [(t8, 0x1000003D10)] ;;
  let r3 := u64 (Z.land c mask52) in let c := Z.shiftr c 52 in
  c <- add128 c t4 ;; c <- acc128 c [(t9, 0x1000003D10)] ;;
  let r4 := u64 (Z.land c mask48) in let c := Z.shiftr c 48 in
  c <- acc128 t0 [(c, 0x1000003D1)] ;;
  let r0 := u64 (Z.land c mask52) in let c := Z.shiftr c 52 in
  s <- add128 t1 c ;;
  let r1 := u64 s in
  ret (mkFieldElem r0 r1 r2 r3 r4).

(** *** SetSquare *)

Definition SetSquare (a : FieldElem) : option FieldElem :=
  c <- mul128 (n0 a) (n0 a) ;;
  let t0 := u64 (Z.land c mask52) in let c := Z.shiftr c 52 in
  c <- acc128 c [(u64 (n0 a * 2), n1 a)] ;;
  let t1 := u64 (Z.land c mask52) in let c := Z.shiftr c 52 in
  c <- acc128 c [(u64 (n0 a * 2), n2 a); (n1 a, n1 a)] ;;
  let t2 := u64 (Z.land c mask52) in let c := Z.shiftr c 52 in
  c <- acc128 c [(u64 (n0 a * 2), n3 a); (u64 (n1 a * 2), n2 a)] ;;
  let t3 := u64 (Z.land c mask52) in let c := Z.shiftr c 52 in
  c <- acc128 c [(u64 (n0 a * 2), n4 a); (u64 (n1 a * 2), n3 a); (n2 a, n2 a)] ;;
  let t4 := u64 (Z.land c mask52) in let c := Z.shiftr c 52 in
  c <- acc128 c [(u64 (n1 a * 2), n4 a); (u64 (n2 a * 2), n3 a)] ;;
  let t5 := u64 (Z.land c mask52) in let c := Z.shiftr c 52 in
  c <- acc128 c [(u64 (n2 a * 2), n4 a); (n3 a, n3 a)] ;;
  let t6 := u64 (Z.land c mask52) in let c := Z.shiftr c 52 in
  c <- acc128 c [(u64 (n3 a * 2), n4 a)] ;;
  let t7 := u64 (Z.land c mask52) in let c := Z.shiftr c 52 in
  c <- acc128 c [(n4 a, n4 a)] ;;
  let t8 := u64 (Z.land c mask52) in let c := Z.shiftr c 52 in
  let t9 := u64 c in
  c <- acc128 t0 [(t5, 0x1000003D10)] ;;
  let t0 := u64 (Z.land c mask52) in let c := Z.shiftr c 52 in
  c <- add128 c t1 ;; c <- acc128 c [(t6, 0x1000003D10)] ;;
  let t1 := u64 (Z.land c mask52) in let c := Z.shiftr c 52 in
  c <- add128 c t2 ;; c <- acc128 c [(t7, 0x1000003D10)] ;;
  let r2 := u64 (Z.land c mask52) in let c := Z.shiftr c 52 in
  c <- add128 c t3 ;; c <- acc128 c [(t8, 0x1000003D10)] ;;
  let r3 := u64 (Z.land c mask52) in let c := Z.shiftr c 52 in
  c <- add128 c t4 ;; c <- acc128 c [(t9, 0x1000003D10)] ;;
  let r4 := u64 (Z.land c mask48) in let c := Z.shiftr c 48 in
  c <- acc128 t0 [(c, 0x1000003D1)] ;;
  let r0 := u64 (Z.land c mask52) in let c := Z.shiftr c 52 in
  s <- add128 t1 c ;;
  let r1 := u64 s in
  ret (mkFieldElem r0 r1 r2 r3 r4).

(** *** The addition chains *)

(** [for (int j=0; j<10; j++) x.SetSquare(x); x.SetMult(x,m);] *)
Definition square10_mult (m x : FieldElem) : option FieldElem :=
  x <- repeatM 10 SetSquare x ;; SetMult x m.

(** The locals of [SetInverse] before the loops. *)
Record InverseLocals : Type := mkInverseLocals {
  i_a2 : FieldElem; i_a3 : FieldElem; i_a4 : FieldElem; i_a5 : FieldElem;
  i_a10 : FieldElem; i_a11 : FieldElem; i_a21 : FieldElem; i_a42 : FieldElem;
  i_a45 : FieldElem; i_a63 : FieldElem; i_a126 : FieldElem; i_a252 : FieldElem;
  i_a504 : FieldElem; i_a1008 : FieldElem; i_a1019 : FieldElem;
  i_a1023 : FieldElem }.

Definition SetInverse_locals (a : FieldElem) : option InverseLocals :=
  a2 <- SetSquare a ;;
  a3 <- SetMult a2 a ;;
  a4 <- SetSquare a ;;
  a5 <- SetMult a4 a ;;
  a10 <- SetSquare a5 ;;
  a11 <- SetMult a10 a ;;
  a21 <- SetMult a11 a10 ;;
  a42 <- SetSquare a21 ;;
  a45 <- SetMult a42 a3 ;;
  a63 <- SetMult a42 a21 ;;
  a126 <- SetSquare a63 ;;
  a252 <- SetSquare a126 ;;
  a504 <- SetSquare a252 ;;
  a1008 <- SetSquare a504 ;;
  a1019 <- SetMult a1008 a11 ;;
  a1023 <- SetMult a1019 a4 ;;
  ret (mkInverseLocals a2 a3 a4 a5 a10 a11 a21 a42 a45 a63 a126 a252 a504
                       a1008 a1019 a1023).

Definition SetInverse (a : FieldElem) : option FieldElem :=
  l <- SetInverse_locals a ;;
  let x := i_a63 l in
  x <- repeatM 21 (square10_mult (i_a1023 l)) x ;;
  x <- square10_mult (i_a1019 l) x ;;
  x <- repeatM 2 (square10_mult (i_a1023 l)) x ;;
  x <- repeatM 10 SetSquare x ;;
  SetMult x (i_a45 l).

Definition SetSquareRoot (a : FieldElem) : option FieldElem :=
  a2 <- SetSquare a ;;
  a3 <- SetMult a2 a ;;
  a6 <- SetSquare a3 ;;
  a12 <- SetSquare a6 ;;
  a15 <- SetMult a12 a3 ;;
  a30 <- SetSquare a15 ;;
  a60 <- SetSquare a30 ;;
  a120 <- SetSquare a60 ;;
  a240 <- SetSquare a120 ;;
  a255 <- SetMult a240 a15 ;;
  a510 <- SetSquare a255 ;;
  a750 <- SetMult a510 a240 ;;
  a780 <- SetMult a750 a30 ;;
  a1020 <- SetSquare a510 ;;
  a1022 <- SetMult a1020 a2 ;;
  a1023 <- SetMult a1022 a ;;
  let x := a15 in
  x <- repeatM 21 (square10_mult a1023) x ;;
  x <- square10_mult a1022 x ;;
  x <- repeatM 2 (square10_mult a1023) x ;;
  x <- repeatM 10 SetSquare x ;;
  SetMult x a780.

(** *** ToString and SetHex *)

Definition hexdigits : string := "0123456789ABCDEF".

(** [int val = (tmp[i/16] >> ((i%16)*4)) & 0xF; ret += c[val];] *)
Definition nibble (tmp : list Z) (i : nat) : Z :=
  Z.land (Z.shiftr (word tmp (i / 16)) (Z.of_nat ((i mod 16) * 4))) 0xF.

Definition hexchar (val : Z) : ascii :=
  match String.get (Z.to_nat val) hexdigits with
  | Some ch => ch
  | None => Ascii.zero
  end.

(** The loop runs [i] from 63 down to 0 and appends one character each
    time. *)
Definition ToString (a : FieldElem) : string * FieldElem :=
  let '(tmp, a) := Get a in
  (string_of_list_ascii (map (fun i => hexchar (nibble tmp i)) (rev (seq 0 64))), a).

Definition cvt : list Z :=
  [0; 0; 0; 0; 0; 0; 0;0;0;0;0;0;0;0;0;0;
   0; 0; 0; 0; 0; 0; 0;0;0;0;0;0;0;0;0;0;
   0; 0; 0; 0; 0; 0; 0;0;0;0;0;0;0;0;0;0;
   0; 1; 2; 3; 4; 5; 6;7;8;9;0;0;0;0;0;0;
   0;10;11;12;13;14;15;0;0;0;0;0;0;0;0;0;
   0; 0; 0; 0; 0; 0; 0;0;0;0;0;0;0;0;0;0;
   0;10;11;12;13;14;15;0;0;0;0;0;0;0;0;0;
   0; 0; 0; 0; 0; 0; 0;0;0;0;0;0;0;0;0;0;
   0; 0; 0; 0; 0; 0; 0;0;0;0;0;0;0;0;0;0;
   0; 0; 0; 0; 0; 0; 0;0;0;0;0;0;0;0;0;0;
   0; 0; 0; 0; 0; 0; 0;0;0;0;0;0;0;0;0;0;
   0; 0; 0; 0; 0; 0; 0;0;0;0;0;0;0;0;0;0;
   0; 0; 0; 0; 0; 0; 0;0;0;0;0;0;0;0;0;0;
   0; 0; 0; 0; 0; 0; 0;0;0;0;0;0;0;0;0;0;
   0; 0; 0; 0; 0; 0; 0;0;0;0;0;0;0;0;0;0;
   0; 0; 0; 0; 0; 0; 0;0;0;0;0;0;0;0;0;0].

Definition cvt_char (ch : ascii) : Z := nth (nat_of_ascii ch) cvt 0.

Fixpoint set_word (w : list Z) (i : nat) (v : Z) : list Z :=
  match w, i with
  | [], _ => []
  | _ :: w', O => v :: w'
  | x :: w', S i' => x :: set_word w' i' v
  end.

(** One turn of the loop of [SetHex]:
    [if (str.length() > (63-i))
       tmp[i/16] |= (uint64_t)cvt[(unsigned char)str[63-i]] << ((i%16)*4);] *)
Definition SetHex_step (str : string) (tmp : list Z) (i : nat) : list Z :=
  if (63 - i <? String.length str)%nat then
    match String.get (63 - i) str with
    | Some ch =>
        set_word tmp (i / 16)
          (Z.lor (word tmp (i / 16))
                 (u64 (Z.shiftl (u64 (cvt_char ch)) (Z.of_nat ((i mod 16) * 4)))))
    | None => tmp
    end
  else tmp.

Definition SetHex_words (str : string) : list Z :=
  fold_left (SetHex_step str) (seq 0 64) [0; 0; 0; 0].

Definition SetHex (str : string) : FieldElem := Set_ (SetHex_words str).

(** ** Group elements *)

(** [GroupElem<FieldElem>]: an affine point. *)
Record GroupElem : Type := mkGroupElem {
  a_fInfinity : bool; a_x : FieldElem; a_y : FieldElem }.

(** [GroupElemJac<FieldElem>]: a Jacobian point. *)
Record GroupElemJac : Type := mkGroupElemJac {
  fInfinity : bool; gx : FieldElem; gy : FieldElem; gz : FieldElem }.

(** [GroupElemJac()] and [GroupElemJac(xin, yin)]. *)
Definition GroupElemJac_default : GroupElemJac :=
  mkGroupElemJac true (FieldElem_of_int 0) (FieldElem_of_int 0) (FieldElem_of_int 1).

Definition GroupElemJac_of_xy (xin yin : FieldElem) : GroupElemJac :=
  mkGroupElemJac false xin yin (FieldElem_of_int 1).

(** The store of Jacobian points and the monad of the group operations:
    state passing over the store, failing when a field kernel does. *)
Definition addr : Type := nat.
Definition Store : Type := addr -> GroupElemJac.
Definition M (A : Type) : Type := Store -> option (A * Store).

Definition mret {A : Type} (x : A) : M A := fun h => Some (x, h).
Definition mbind {A B : Type} (m : M A) (k : A -> M B) : M B :=
  fun h => match m h with
           | Some (x, h') => k x h'
           | None => None
           end.
Definition lift {A : Type} (o : option A) : M A :=
  fun h => match o with
           | Some x => Some (x, h)
           | None => None
           end.

Notation "x <~ m ;; k" := (mbind m (fun x => k))
  (at level 61, m at next level, right associativity) : cxx_scope.
Notation "m ;;; k" := (mbind m (fun _ => k))
  (at level 61, right associativity) : cxx_scope.

Definition store (h : Store) (a : addr) (o : GroupElemJac) : Store :=
  fun b => if Nat.eqb b a then o else h b.

Definition load (a : addr) : M GroupElemJac := fun h => Some (h a, h).
Definition assign (a : addr) (o : GroupElemJac) : M unit :=
  fun h => Some (tt, store h a o).

Definition load_inf (a : addr) : M bool := o <~ load a ;; mret (fInfinity o).
Definition load_x (a : addr) : M FieldElem := o <~ load a ;; mret (gx o).
Definition load_y (a : addr) : M FieldElem := o <~ load a ;; mret (gy o).
Definition load_z (a : addr) : M FieldElem := o <~ load a ;; mret (gz o).

Definition store_inf (a : addr) (v : bool) : M unit :=
  o <~ load a ;; assign a (mkGroupElemJac v (gx o) (gy o) (gz o)).
Definition store_x (a : addr) (v : FieldElem) : M unit :=
  o <~ load a ;; assign a (mkGroupElemJac (fInfinity o) v (gy o) (gz o)).
Definition store_y (a : addr) (v : FieldElem) : M unit :=
  o <~ load a ;; assign a (mkGroupElemJac (fInfinity o) (gx o) v (gz o)).
Definition store_z (a : addr) (v : FieldElem) : M unit :=
  o <~ load a ;; assign a (mkGroupElemJac (fInfinity o) (gx o) (gy o) v).

(** *** IsValid *)

Definition IsValid (g : GroupElemJac) : option bool :=
  if fInfinity g then ret false
  else
    y2 <- SetSquare (gy g) ;;
    x3 <- SetSquare (gx g) ;; x3 <- SetMult x3 (gx g) ;;
    z2 <- SetSquare (gz g) ;;
    z6 <- SetSquare z2 ;; z6 <- SetMult z6 z2 ;;
    let z6 := mul_int z6 7 in
    let x3 := add_assign x3 z6 in
    let '(e, _, _) := eq_op y2 x3 in
    ret e.

(** *** GetAffine *)

Definition GetAffine (this : addr) : M GroupElem :=
  z <~ load_z this ;; v <~ lift (SetInverse z) ;; store_z this v ;;;
  z <~ load_z this ;; z2 <~ lift (SetSquare z) ;;
  z3 <~ lift (SetMult z z2) ;;
  x <~ load_x this ;; v <~ lift (SetMult x z2) ;; store_x this v ;;;
  y <~ load_y this ;; v <~ lift (SetMult y z3) ;; store_y this v ;;;
  store_z this (FieldElem_of_int 1) ;;;
  x <~ load_x this ;; y <~ load_y this ;;
  mret (mkGroupElem false x y).

(** *** SetDouble *)

Definition SetDouble (this p : addr) : M unit :=
  pinf <~ load_inf p ;;
  zero <~ (if pinf then mret true
           else y <~ load_y this ;;
                let '(b, y') := IsZero y in
                store_y this y' ;;; mret b) ;;
  if zero : bool then store_inf this true
  else
    py <~ load_y p ;; pz <~ load_z p ;;
    v <~ lift (SetMult py pz) ;; store_z this v ;;;
    z <~ load_z this ;; store_z this (mul_int z 2) ;;;
    px <~ load_x p ;; t1 <~ lift (SetSquare px) ;;
    let t1 := mul_int t1 3 in
    t2 <~ lift (SetSquare t1) ;;
    py <~ load_y p ;; t3 <~ lift (SetSquare py) ;;
    let t3 := mul_int t3 2 in
    t4 <~ lift (SetSquare t3) ;;
    let t4 := mul_int t4 2 in
    px <~ load_x p ;; t3 <~ lift (SetMult px t3) ;;
    store_x this t3 ;;;
    x <~ load_x this ;; store_x this (mul_int x 4) ;;;
    x <~ load_x this ;; store_x this (SetNeg x 4) ;;;
    x <~ load_x this ;; store_x this (add_assign x t2) ;;;
    let t2 := SetNeg t2 1 in
    let t3 := mul_int t3 6 in
    let t3 := add_assign t3 t2 in
    v <~ lift (SetMult t1 t3) ;; store_y this v ;;;
    let t2 := SetNeg t4 2 in
    y <~ load_y this ;; store_y this (add_assign y t2).

(** *** SetAdd, Jacobian + Jacobian *)

Definition SetAdd (this p q : addr) : M unit :=
  pinf <~ load_inf p ;;
  if pinf : bool then o <~ load q ;; assign this o
  else
  qinf <~ load_inf q ;;
  if qinf : bool then o <~ load p ;; assign this o
  else
    store_inf this false ;;;
    z2 <~ load_z q ;; z22 <~ lift (SetSquare z2) ;;
    z1 <~ load_z p ;; z12 <~ lift (SetSquare z1) ;;
    x1 <~ load_x p ;; u1 <~ lift (SetMult x1 z22) ;;
    x2 <~ load_x q ;; u2 <~ lift (SetMult x2 z12) ;;
    y1 <~ load_y p ;; s1 <~ lift (SetMult y1 z22) ;;
    z2 <~ load_z q ;; s1 <~ lift (SetMult s1 z2) ;;
    y2 <~ load_y q ;; s2 <~ lift (SetMult y2 z12) ;;
    z1 <~ load_z p ;; s2 <~ lift (SetMult s2 z1) ;;
    let '(eu, u1, u2) := eq_op u1 u2 in
    if eu : bool then
      let '(es, s1, s2) := eq_op s1 s2 in
      if es : bool then SetDouble this p else store_inf this true
    else
      let h := add_assign (SetNeg u1 1) u2 in
      let r := add_assign (SetNeg s1 1) s2 in
      r2 <~ lift (SetSquare r) ;;
      h2 <~ lift (SetSquare h) ;;
      h3 <~ lift (SetMult h h2) ;;
      z1 <~ load_z p ;; z2 <~ load_z q ;;
      v <~ lift (SetMult z1 z2) ;; store_z this v ;;;
      z <~ load_z this ;; v <~ lift (SetMult z h) ;; store_z this v ;;;
      t <~ lift (SetMult u1 h2) ;;
      store_x this t ;;;
      x <~ load_x this ;; store_x this (mul_int x 2) ;;;
      x <~ load_x this ;; store_x this (add_assign x h3) ;;;
      x <~ load_x this ;; store_x this (SetNeg x 3) ;;;
      x <~ load_x this ;; store_x this (add_assign x r2) ;;;
      x <~ load_x this ;; store_y this (SetNeg x 5) ;;;
      y <~ load_y this ;; store_y this (add_assign y t) ;;;
      y <~ load_y this ;; v <~ lift (SetMult y r) ;; store_y this v ;;;
      h3 <~ lift (SetMult h3 s1) ;;
      let h3 := SetNeg h3 1 in
      y <~ load_y this ;; store_y this (add_assign y h3).

(** *** SetAdd, Jacobian + affine *)

Definition SetAdd_affine (this p : addr) (q : GroupElem) : M unit :=
  pinf <~ load_inf p ;;
  if pinf : bool then
    store_x this (a_x q) ;;;
    store_y this (a_y q) ;;;
    store_inf this (a_fInfinity q) ;;;
    store_z this (FieldElem_of_int 1)
  else
  if a_fInfinity q then o <~ load p ;; assign this o
  else
    store_inf this false ;;;
    z1 <~ load_z p ;; z12 <~ lift (SetSquare z1) ;;
    x1 <~ load_x p ;; let u1 := Normalize x1 in
    u2 <~ lift (SetMult (a_x q) z12) ;;
    y1 <~ load_y p ;; let s1 := Normalize y1 in
    s2 <~ lift (SetMult (a_y q) z12) ;;
    z1 <~ load_z p ;; s2 <~ lift (SetMult s2 z1) ;;
    let '(eu, u1, u2) := eq_op u1 u2 in
    if eu : bool then
      let '(es, s1, s2) := eq_op s1 s2 in
      if es : bool then SetDouble this p else store_inf this true
    else
      let h := add_assign (SetNeg u1 1) u2 in
      let r := add_assign (SetNeg s1 1) s2 in
      r2 <~ lift (SetSquare r) ;;
      h2 <~ lift (SetSquare h) ;;
      h3 <~ lift (SetMult h h2) ;;
      z1 <~ load_z p ;; store_z this z1 ;;;
      z <~ load_z this ;; v <~ lift (SetMult z h) ;; store_z this v ;;;
      t <~ lift (SetMult u1 h2) ;;
      store_x this t ;;;
      x <~ load_x this ;; store_x this (mul_int x 2) ;;;
      x <~ load_x this ;; store_x this (add_assign x h3) ;;;
      x <~ load_x this ;; store_x this (SetNeg x 3) ;;;
      x <~ load_x this ;; store_x this (add_assign x r2) ;;;
      x <~ load_x this ;; store_y this (SetNeg x 5) ;;;
      y <~ load_y this ;; store_y this (add_assign y t) ;;;
      y <~ load_y this ;; v <~ lift (SetMult y r) ;; store_y this v ;;;
      h3 <~ lift (SetMult h3 s1) ;;
      let h3 := SetNeg h3 1 in
      y <~ load_y this ;; store_y this (add_assign y h3).

(** ** Auxiliary definitions of the proofs *)

(** What the multiplication kernels leave in the limbs: limbs 0, 2 and 3
    masked to 52 bits, limb 4 to 48 bits, limb 1 a masked value plus the
    last carry. *)
Definition mult_output (r : FieldElem) : Prop :=
  limbs_le r (2^52 - 1) (2^52 + 2^34) (2^52 - 1) (2^52 - 1) (2^48 - 1).

Fixpoint sumprod (l : list (Z * Z)) : Z :=
  match l with
  | [] => 0
  | (x, y) :: l' => x * y + sumprod l'
  end.

(** The schedule shared by [SetMult] and [SetSquare]: the nine columns of
    partial products, then the fold of the upper half. *)
Definition mult_kernel (x0 y0 : Z) (l1 l2 l3 l4 l5 l6 l7 l8 : list (Z * Z))
  : option FieldElem :=
  c <- mul128 x0 y0 ;;
  let t0 := u64 (Z.land c mask52) in let c := Z.shiftr c 52 in
  c <- acc128 c l1 ;;
  let t1 := u64 (Z.land c mask52) in let c := Z.shiftr c 52 in
  c <- acc128 c l2 ;;
  let t2 := u64 (Z.land c mask52) in let c := Z.shiftr c 52 in
  c <- acc128 c l3 ;;
  let t3 := u64 (Z.land c mask52) in let c := Z.shiftr c 52 in
  c <- acc128 c l4 ;;
  let t4 := u64 (Z.land c mask52) in let c := Z.shiftr c 52 in
  c <- acc128 c l5 ;;
  let t5 := u64 (Z.land c mask52) in let c := Z.shiftr c 52 in
  c <- acc128 c l6 ;;
  let t6 := u64 (Z.land c mask52) in let c := Z.shiftr c 52 in
  c <- acc128 c l7 ;;
  let t7 := u64 (Z.land c mask52) in let c := Z.shiftr c 52 in
  c <- acc128 c l8 ;;
  let t8 := u64 (Z.land c mask52) in let c := Z.shiftr c 52 in
  let t9 := u64 c in
  c <- acc128 t0 [(t5, 0x1000003D10)] ;;
  let t0 := u64 (Z.land c mask52) in let c := Z.shiftr c 52 in
  c <- add128 c t1 ;; c <- acc128 c [(t6, 0x1000003D10)] ;;
  let t1 := u64 (Z.land c mask52) in let c := Z.shiftr c 52 in
  c <- add128 c t2 ;; c <- acc128 c [(t7, 0x1000003D10)] ;;
  let r2 := u64 (Z.land c mask52) in let c := Z.shiftr c 52 in
  c <- add128 c t3 ;; c <- acc128 c [(t8, 0x1000003D10)] ;;
  let r3 := u64 (Z.land c mask52) in let c := Z.shiftr c 52 in
  c <- add128 c t4 ;; c <- acc128 c [(t9, 0x1000003D10)] ;;
  let r4 := u64 (Z.land c mask48) in let c := Z.shiftr c 48 in
  c <- acc128 t0 [(c, 0x1000003D1)] ;;
  let r0 := u64 (Z.land c mask52) in let c := Z.shiftr c 52 in
  s <- add128 t1 c ;;
  let r1 := u64 s in
  ret (mkFieldElem r0 r1 r2 r3 r4).

(** A hypothesis kept out of the sight of [lia]. *)
Definition hide (P : Prop) : Prop := P.

(** The two phases of [Normalize]. *)
Definition carry_phase (a : FieldElem) : FieldElem :=
  if (n0 a >? mask52) || (n1 a >? mask52) || (n2 a >? mask52) ||
     (n3 a >? mask52) || (n4 a >? mask48)
  then
    let c := n0 a in
    let t0 := Z.land c mask52 in
    let c := u64 (Z.shiftr c 52 + n1 a) in
    let t1 := Z.land c mask52 in
    let c := u64 (Z.shiftr c 52 + n2 a) in
    let t2 := Z.land c mask52 in
    let c := u64 (Z.shiftr c 52 + n3 a) in
    let t3 := Z.land c mask52 in
    let c := u64 (Z.shiftr c 52 + n4 a) in
    let t4 := Z.land c mask48 in
    let c := Z.shiftr c 48 in
    if negb (c =? 0) then
      let c := u64 (u64 (c * 0x1000003D1) + t0) in
      let t0 := Z.land c mask52 in
      let c := u64 (Z.shiftr c 52 + t1) in
      let t1 := Z.land c mask52 in
      let c := u64 (Z.shiftr c 52 + t2) in
      let t2 := Z.land c mask52 in
      let c := u64 (Z.shiftr c 52 + t3) in
      let t3 := Z.land c mask52 in
      let c := u64 (Z.shiftr c 52 + t4) in
      let t4 := Z.land c mask48 in
      mkFieldElem t0 t1 t2 t3 t4
    else mkFieldElem t0 t1 t2 t3 t4
  else a.

Definition final_subtraction (a1 : FieldElem) : FieldElem :=
  if (n4 a1 =? mask48) && (n3 a1 =? mask52) && (n2 a1 =? mask52) &&
     (n1 a1 =? mask52) && (n0 a1 >=? 0xFFFFEFFFFFC2F)
  then mkFieldElem (u64 (n0 a1 - 0xFFFFEFFFFFC2F)) 0 0 0 0
  else a1.

(** Limbs within their masks. *)
Definition masked (a : FieldElem) : Prop :=
  limbs_le a (2^52 - 1) (2^52 - 1) (2^52 - 1) (2^52 - 1) (2^48 - 1).

(** The top overflow folded back into the low 256 bits. *)
Definition folded (a : FieldElem) : Z :=
  value a mod 2^256 + (value a / 2^256) * 0x1000003D1.

(** The representation on which the second carry pass of [Normalize]
    overflows. *)
Definition normalize_bad : FieldElem :=
  mkFieldElem (2^52 - 1) (2^52 - 1) (2^52 - 1) (2^52 - 1) (2^49 - 1).

(** The limbs of the prime, the constants of [SetNeg]. *)
Definition L0 : Z := 0xFFFFEFFFFFC2F.
Definition L1 : Z := 0xFFFFFFFFFFFFF.
Definition L4 : Z := 0x0FFFFFFFFFFFF.

(** A magnitude-1 operand on which [SetNeg] borrows. *)
Definition setneg_bad : FieldElem := mkFieldElem 0 (2^53 - 1) 0 0 0.

(** *** Primality certificates

    The prime is certified by Pocklington's criterion with base 2, along
    the chain [p_field], [pock_q], [pock_r] and six primes small enough for
    trial division. *)

Definition pock_q : Z :=
  205115282021455665897114700593932402728804164701536103180137503955397371.
Definition pock_r : Z := 255515944373312847190720520512484175977.

Fixpoint coprime_chain (qs : list Z) : bool :=
  match qs with
  | [] => true
  | q :: qs' => (Z.gcd (fold_right Z.mul 1 qs') q =? 1) && coprime_chain qs'
  end.

Definition pock_check (N : Z) (qs : list Z) : bool :=
  (1 <? N) && (Zpow_mod 2 (N - 1) N =? 1) &&
  forallb (fun q => ((N - 1) mod q =? 0) &&
                    (Z.gcd (Zpow_mod 2 ((N - 1) / q) N - 1) N =? 1)) qs &&
  coprime_chain qs &&
  (N <? fold_right Z.mul 1 qs * fold_right Z.mul 1 qs).

Definition trial_check (n : Z) (B : nat) : bool :=
  (1 <? n) && (n <? Z.of_nat B * Z.of_nat B) &&
  forallb (fun d => negb (n mod d =? 0)) (map Z.of_nat (seq 2 (B - 2))).

(** *** The field of residues *)

Abbreviation Fp := (Zmod p_field).

(** The residue that a representation stands for. *)
Definition fv (a : FieldElem) : Fp := Zmod.of_Z p_field (value a).

Declare Scope fp_scope.
Delimit Scope fp_scope with fp.
Bind Scope fp_scope with Zmod.
Infix "+" := Zmod.add : fp_scope.
Infix "*" := Zmod.mul : fp_scope.
Infix "-" := Zmod.sub : fp_scope.
Notation "- x" := (Zmod.opp x) : fp_scope.
Infix "^" := Zmod.pow : fp_scope.

(** [x] is a magnitude-8 representation of the [k]-th power of [a]. *)
Definition pw (a : FieldElem) (k : Z) (x : FieldElem) : Prop :=
  magnitude 8 x /\ fv x = (fv a ^ k)%fp.

(** The exponent after [n] turns of a loop that maps exponent [e] to
    [g e]. *)
Fixpoint iter_exp (n : nat) (g : Z -> Z) (e : Z) : Z :=
  match n with
  | O => e
  | S n' => iter_exp n' g (g e)
  end.

(** Congruence modulo the field prime. *)
Definition eqp (x y : Z) : Prop := x mod p_field = y mod p_field.

(** The exponents that the two chains realise. *)
Definition inverse_exponent : Z :=
  let e := iter_exp 21 (fun e => 1024 * e + 633) 39 in
  let e := 1024 * e + 631 in
  let e := iter_exp 2 (fun e => 1024 * e + 633) e in
  1024 * e + 29.

Definition sqrt_exponent : Z :=
  let e := iter_exp 21 (fun e => 1024 * e + 1023) 15 in
  let e := 1024 * e + 1022 in
  let e := iter_exp 2 (fun e => 1024 * e + 1023) e in
  1024 * e + 780.

(** The operand of the spec's scenario for the inverse, 7. *)
Definition inverse_input : FieldElem := FieldElem_of_int 7.

(** *** Runs of the group operations *)

(** [runs m h Q]: from store [h] the operation [m] returns, and its result
    and final store satisfy [Q]. *)
Definition runs {A : Type} (m : M A) (h : Store) (Q : A -> Store -> Prop) : Prop :=
  exists x h', m h = Some (x, h') /\ Q x h'.

(** The receiver with its flag set to [b]: what [store_inf] writes. *)
Definition with_inf (o : GroupElemJac) (b : bool) : GroupElemJac :=
  mkGroupElemJac b (gx o) (gy o) (gz o).

(** The operands of the group operations have coordinates within the
    magnitude-8 bounds. *)
Definition coords8 (g : GroupElemJac) : Prop :=
  magnitude 8 (gx g) /\ magnitude 8 (gy g) /\ magnitude 8 (gz g).

(** The end of both [SetAdd]s, from [this->z.SetMult(z, h)] on. *)
Definition add_finish (this : addr) (u1 s1 h r r2 h2 h3 : FieldElem) : M unit :=
  z <~ load_z this ;; v <~ lift (SetMult z h) ;; store_z this v ;;;
  t <~ lift (SetMult u1 h2) ;;
  store_x this t ;;;
  x <~ load_x this ;; store_x this (mul_int x 2) ;;;
  x <~ load_x this ;; store_x this (add_assign x h3) ;;;
  x <~ load_x this ;; store_x this (SetNeg x 3) ;;;
  x <~ load_x this ;; store_x this (add_assign x r2) ;;;
  x <~ load_x this ;; store_y this (SetNeg x 5) ;;;
  y <~ load_y this ;; store_y this (add_assign y t) ;;;
  y <~ load_y this ;; v <~ lift (SetMult y r) ;; store_y this v ;;;
  h3 <~ lift (SetMult h3 s1) ;;
  let h3 := SetNeg h3 1 in
  y <~ load_y this ;; store_y this (add_assign y h3).

(** The constant 2 of the field. *)
Definition two : Fp := Zmod.of_Z p_field 2.

(** [SetAdd] (Jacobian + Jacobian) from the comparison of [u1] and [u2]
    on. *)
Definition SetAdd_rest (this p q : addr) (u1 u2 s1 s2 : FieldElem) : M unit :=
  let '(eu, u1, u2) := eq_op u1 u2 in
  if eu : bool then
    let '(es, s1, s2) := eq_op s1 s2 in
    if es : bool then SetDouble this p else store_inf this true
  else
    let h := add_assign (SetNeg u1 1) u2 in
    let r := add_assign (SetNeg s1 1) s2 in
    r2 <~ lift (SetSquare r) ;;
    h2 <~ lift (SetSquare h) ;;
    h3 <~ lift (SetMult h h2) ;;
    z1 <~ load_z p ;; z2 <~ load_z q ;;
    v <~ lift (SetMult z1 z2) ;; store_z this v ;;;
    add_finish this u1 s1 h r r2 h2 h3.

(** [SetAdd] (Jacobian + affine) from the comparison of [u1] and [u2]
    on. *)
Definition SetAdd_affine_rest (this p : addr) (u1 u2 s1 s2 : FieldElem) : M unit :=
  let '(eu, u1, u2) := eq_op u1 u2 in
  if eu : bool then
    let '(es, s1, s2) := eq_op s1 s2 in
    if es : bool then SetDouble this p else store_inf this true
  else
    let h := add_assign (SetNeg u1 1) u2 in
    let r := add_assign (SetNeg s1 1) s2 in
    r2 <~ lift (SetSquare r) ;;
    h2 <~ lift (SetSquare h) ;;
    h3 <~ lift (SetMult h h2) ;;
    z1 <~ load_z p ;; store_z this z1 ;;;
    add_finish this u1 s1 h r r2 h2 h3.

(** The quantities of the addition formulas, as residues. *)
Definition jU1 (P Q : GroupElemJac) : Fp := (fv (gx P) * (fv (gz Q) * fv (gz Q)))%fp.
Definition jU2 (P Q : GroupElemJac) : Fp := (fv (gx Q) * (fv (gz P) * fv (gz P)))%fp.
Definition jS1 (P Q : GroupElemJac) : Fp :=
  (fv (gy P) * (fv (gz Q) * fv (gz Q)) * fv (gz Q))%fp.
Definition jS2 (P Q : GroupElemJac) : Fp :=
  (fv (gy Q) * (fv (gz P) * fv (gz P)) * fv (gz P))%fp.

(** [SetDouble] past its test, from [this->z.SetMult(p.y,p.z)] on. *)
Definition SetDouble_formula (this p : addr) : M unit :=
  py <~ load_y p ;; pz <~ load_z p ;;
  v <~ lift (SetMult py pz) ;; store_z this v ;;;
  z <~ load_z this ;; store_z this (mul_int z 2) ;;;
  px <~ load_x p ;; t1 <~ lift (SetSquare px) ;;
  let t1 := mul_int t1 3 in
  t2 <~ lift (SetSquare t1) ;;
  py <~ load_y p ;; t3 <~ lift (SetSquare py) ;;
  let t3 := mul_int t3 2 in
  t4 <~ lift (SetSquare t3) ;;
  let t4 := mul_int t4 2 in
  px <~ load_x p ;; t3 <~ lift (SetMult px t3) ;;
  store_x this t3 ;;;
  x <~ load_x this ;; store_x this (mul_int x 4) ;;;
  x <~ load_x this ;; store_x this (SetNeg x 4) ;;;
  x <~ load_x this ;; store_x this (add_assign x t2) ;;;
  let t2 := SetNeg t2 1 in
  let t3 := mul_int t3 6 in
  let t3 := add_assign t3 t2 in
  v <~ lift (SetMult t1 t3) ;; store_y this v ;;;
  let t2 := SetNeg t4 2 in
  y <~ load_y this ;; store_y this (add_assign y t2).

(** An object after [y.IsZero()], which normalises its [y] in place. *)
Definition tested (o : GroupElemJac) : GroupElemJac :=
  mkGroupElemJac (fInfinity o) (gx o) (snd (IsZero (gy o))) (gz o).

(** The constants of the field. *)
Definition fc (k : Z) : Fp := Zmod.of_Z p_field k.

(** The doubling formulas of the comments of [SetDouble], as residues:
    [Z' = 2 Y Z], [X' = 9 X^4 - 8 X Y^2],
    [Y' = 36 X^3 Y^2 - 27 X^6 - 8 Y^4]. *)
Definition dZ (P : GroupElemJac) : Fp := (fc 2 * fv (gy P) * fv (gz P))%fp.
Definition dX (P : GroupElemJac) : Fp :=
  (fc 9 * (fv (gx P) * fv (gx P) * fv (gx P) * fv (gx P))
   - fc 8 * fv (gx P) * (fv (gy P) * fv (gy P)))%fp.
Definition dY (P : GroupElemJac) : Fp :=
  (fc 36 * (fv (gx P) * fv (gx P) * fv (gx P)) * (fv (gy P) * fv (gy P))
   - fc 27 * (fv (gx P) * fv (gx P) * fv (gx P) *
              (fv (gx P) * fv (gx P) * fv (gx P)))
   - fc 8 * (fv (gy P) * fv (gy P) * (fv (gy P) * fv (gy P))))%fp.

(** The same with an affine second operand, whose [z] is 1. *)
Definition aU2 (P : GroupElemJac) (q : GroupElem) : Fp :=
  (fv (a_x q) * (fv (gz P) * fv (gz P)))%fp.
Definition aS2 (P : GroupElemJac) (q : GroupElem) : Fp :=
  (fv (a_y q) * (fv (gz P) * fv (gz P)) * fv (gz P))%fp.

(** The curve equation [y^2 = x^3 + 7 z^6] on the values of the
    coordinates, modulo the prime. *)
Definition on_curve (g : GroupElemJac) : Prop :=
  eqp (value (gy g) * value (gy g))
      (value (gx g) * value (gx g) * value (gx g) +
       7 * (value (gz g) * value (gz g) * value (gz g) *
            (value (gz g) * value (gz g) * value (gz g)))).

(** The curve equation [y^2 = x^3 + 7] of an affine point. *)
Definition on_curve_affine (q : GroupElem) : Prop :=
  eqp (value (a_y q) * value (a_y q))
      (value (a_x q) * value (a_x q) * value (a_x q) + 7).

(** The object left at address [a] by a run of [m] from the store [h]. *)
Definition object_after {A : Type} (m : M A) (h : Store) (a : addr)
  : option GroupElemJac :=
  match m h with
  | Some (_, h') => Some (h' a)
  | None => None
  end.

(** *** Concrete operands *)

(** The generator of secp256k1, a point of the curve. *)
Definition generator : GroupElemJac :=
  GroupElemJac_of_xy
    (SetHex "79BE667EF9DCBBAC55A06295CE870B07029BFCDB2DCE28D959F2815B16F81798")
    (SetHex "483ADA7726A3C4655DA4FBFC0E1108A8FD17B448A68554199C47D08FFB10D4B8").

(** A finite point (not on the curve) with [y = 0]. *)
Definition point_y0 : GroupElemJac :=
  GroupElemJac_of_xy (FieldElem_of_int 1) (FieldElem_of_int 0).

(** A receiver flagged infinity that still holds coordinates: what
    [SetAdd] leaves in an object that held the generator after computing
    [P + (-P)] into it. *)
Definition stale_infinity : GroupElemJac := with_inf generator true.

(** A point of the curve whose [y] is a representation on which
    [Normalize] drops the carry: [y] has the value [2^257 - 2^52 + t0]
    with [t0 = 2^52 - c + 4]. *)
Definition point_bad_y : GroupElemJac :=
  GroupElemJac_of_xy
    (SetHex "0D488A834BE6A43118D5E9BE29EC7667AF32F3E963C2E2B08AAEBB3025178B5B")
    (mkFieldElem 0xFFFFEFFFFFC33 0xFFFFFFFFFFFFF 0xFFFFFFFFFFFFF 0xFFFFFFFFFFFFF
                 0x1FFFFFFFFFFFF).

(** Stores: [two_objects a b] holds [a] at address 0 and [b] elsewhere. *)
Definition two_objects (a b : GroupElemJac) : Store :=
  fun n => match n with O => a | S _ => b end.



(** The finite point [(1, 1, 2)]. *)
Definition point_z2 : GroupElemJac :=
  mkGroupElemJac false (FieldElem_of_int 1) (FieldElem_of_int 1) (FieldElem_of_int 2).

(** *** Hexadecimal strings *)

(** The digit that [SetHex] puts at nibble [i] (nibble 0 being the four
    low-order bits): the character at index [63 - i], when the string has
    one. *)
Definition hex_digit_at (str : string) (i : nat) : Z :=
  if (63 - i <? String.length str)%nat then
    match String.get (63 - i) str with
    | Some ch => cvt_char ch
    | None => 0
    end
  else 0.

Fixpoint nibble_sum (d : nat -> Z) (n : nat) : Z :=
  match n with
  | O => 0
  | S n' => nibble_sum d n' + d n' * 16 ^ Z.of_nat n'
  end.

(** The value of a string read with its first character at the top
    nibble. *)
Definition left_aligned_value (str : string) : Z :=
  nibble_sum (hex_digit_at str) 64.

Fixpoint zeros (n : nat) : string :=
  match n with
  | O => EmptyString
  | S n' => String "0" (zeros n')
  end.

Definition pad_right (str : string) : string :=
  (str ++ zeros (64 - String.length str))%string.

Definition pad_left (str : string) : string :=
  (zeros (64 - String.length str) ++ str)%string.

(** The loop of [SetHex] on the contributions [D i] to the words. *)
Definition words_of (D : nat -> Z) : list Z :=
  fold_left (fun tmp i => set_word tmp (i / 16) (Z.lor (word tmp (i / 16)) (D i)))
            (seq 0 64) [0; 0; 0; 0].

Definition shifted_digit (str : string) (i : nat) : Z :=
  u64 (Z.shiftl (u64 (hex_digit_at str i)) (Z.of_nat ((i mod 16) * 4))).

(** The four words as one integer. *)
Definition words_value (w : list Z) : Z :=
  word w 0 + word w 1 * 2^64 + word w 2 * 2^128 + word w 3 * 2^192.

(** One word of [words_of]: the sixteen contributions from index [b] on. *)
Definition word_of (D : nat -> Z) (b : nat) : Z :=
  fold_left (fun w k => Z.lor w (D (b + k)%nat)) (seq 0 16) 0.

(** ** The remaining operations of the group classes *)

(** [GroupElem()]: the point at infinity; [x] and [y] are [FieldElem()]. *)
Definition GroupElem_default : GroupElem :=
  mkGroupElem true (FieldElem_of_int 0) (FieldElem_of_int 0).

(** [SetXY] and [GroupElem(xin, yin)]. *)
Definition SetXY (xin yin : FieldElem) : GroupElem := mkGroupElem false xin yin.

Definition IsInfinity (g : GroupElem) : bool := a_fInfinity g.

(** [GroupElem::SetNeg(p)]: the receiver gets the flag and the [x] of [p]
    and the negative of the normalised [y]; [p] is left with its [y]
    normalised.  The result is the pair of the receiver and of [p]
    afterwards; when the receiver is [p] itself, the object is left as the
    first of them. *)
Definition GroupElem_SetNeg (p : GroupElem) : GroupElem * GroupElem :=
  let y := Normalize (a_y p) in
  (mkGroupElem (a_fInfinity p) (a_x p) (SetNeg y 1),
   mkGroupElem (a_fInfinity p) (a_x p) y).

(** [GroupElem::ToString]; the coordinates are normalised by their
    [ToString]. *)
Definition GroupElem_ToString (g : GroupElem) : string * GroupElem :=
  if a_fInfinity g then ("(inf)"%string, g)
  else
    let '(sx, x) := ToString (a_x g) in
    let '(sy, y) := ToString (a_y g) in
    (("(" ++ sx ++ "," ++ sy ++ ")")%string, mkGroupElem (a_fInfinity g) x y).

(** [GroupElemJac::ToString]: [GetAffine] into a local, which is then
    printed. *)
Definition GroupElemJac_ToString (this : addr) : M string :=
  aff <~ GetAffine this ;; mret (fst (GroupElem_ToString aff)).

(** [SetCompressed(xin, fOdd)]. *)
Definition SetCompressed (this : addr) (xin : FieldElem) (fOdd : bool) : M unit :=
  store_x this xin ;;;
  x <~ load_x this ;; x2 <~ lift (SetSquare x) ;;
  x <~ load_x this ;; x3 <~ lift (SetMult x x2) ;;
  store_inf this false ;;;
  let c := add_assign (FieldElem_of_int 7) x3 in
  v <~ lift (SetSquareRoot c) ;; store_y this v ;;;
  store_z this (FieldElem_of_int 1) ;;;
  y <~ load_y this ;;
  let '(odd, y') := IsOdd y in
  store_y this y' ;;;
  if negb (Bool.eqb odd fOdd) then
    y <~ load_y this ;; store_y this (SetNeg y 1)
  else mret tt.

(** *** Strings *)

(** The upper-case letter of a lower-case one. *)
Definition to_upper (ch : ascii) : ascii :=
  let n := nat_of_ascii ch in
  if (97 <=? n)%nat && (n <=? 122)%nat then ascii_of_nat (n - 32) else ch.

Fixpoint map_string (f : ascii -> ascii) (s : string) : string :=
  match s with
  | EmptyString => EmptyString
  | String c s' => String (f c) (map_string f s')
  end.

(** The hexadecimal digit of weight [16^i] of [v]. *)
Definition hex_digit (v : Z) (i : nat) : Z := (v / 16 ^ Z.of_nat i) mod 16.

(** The strings of upper-case hexadecimal digits. *)
Definition upper_hex (str : string) : Prop :=
  forall k ch, String.get k str = Some ch ->
               In ch (list_ascii_of_string hexdigits).

(** *** Further operands *)


(** A representation of [0x1000003D1] on which [Normalize] drops the carry,
    built with the operations of the class: [b] parsed by [SetHex]
    (magnitude 1), [b *= 2] (magnitude 2), then [SetNeg(b, 2)]. *)
Definition bad_x : FieldElem :=
  SetNeg
    (mul_int
       (SetHex "7FFFFFFFFFFFFFFFFFFFFFFFFFFFFFFFFFFFFFFFFFFFFFFFFFFFFFFEFFFFFC2F") 2)
    2.

(** A point of the curve with that [x], and the same point in affine
    coordinates with [x] in canonical form. *)
Definition point_bad_x : GroupElemJac :=
  GroupElemJac_of_xy bad_x
    (SetHex "DD78C34F17A144327AF822A78E09948080C18CE8C2D4916AB37B9B51A32AF048").

Definition affine_same_point : GroupElem :=
  SetXY
    (SetHex "00000000000000000000000000000000000000000000000000000001000003D1")
    (SetHex "DD78C34F17A144327AF822A78E09948080C18CE8C2D4916AB37B9B51A32AF048").

(** The right-hand side that [IsValid] compares [y2] with: [x3] after
    [x3 += z6]. *)
Definition IsValid_rhs (g : GroupElemJac) : option FieldElem :=
  x3 <- SetSquare (gx g) ;; x3 <- SetMult x3 (gx g) ;;
  z2 <- SetSquare (gz g) ;;
  z6 <- SetSquare z2 ;; z6 <- SetMult z6 z2 ;;
  let z6 := mul_int z6 7 in
  ret (add_assign x3 z6).

(** The bounds that the operations give the limbs of an operand of tracked
    magnitude [m]: [m] times those of a kernel output. *)
Definition tracked (m : Z) (a : FieldElem) : Prop :=
  limbs_le a (m * (2^52 - 1)) (m * (2^52 + 2^34)) (m * (2^52 - 1))
             (m * (2^52 - 1)) (m * (2^48 - 1)).

(** * Proofs *)

(** ** Arithmetic helpers *)

Lemma i128_ok (x : Z) : - 2^127 <= x < 2^127 -> i128 x = Some x.
Proof.
  intros H. unfold i128.
  destruct (Z.leb_spec (- 2^127) x); destruct (Z.ltb_spec x (2^127));
    simpl; trivial; lia.
Qed.

Lemma bind_some {A B : Type} (x : A) (k : A -> option B) : bind (Some x) k = k x.
Proof. reflexivity. Qed.

Lemma land_mask52 (c : Z) : Z.land c mask52 = c mod 2^52.
Proof. change mask52 with (Z.ones 52). apply Z.land_ones. lia. Qed.

Lemma land_mask48 (c : Z) : Z.land c mask48 = c mod 2^48.
Proof. change mask48 with (Z.ones 48). apply Z.land_ones. lia. Qed.

Lemma shiftr52 (c : Z) : Z.shiftr c 52 = c / 2^52.
Proof. apply Z.shiftr_div_pow2. lia. Qed.

Lemma shiftr48 (c : Z) : Z.shiftr c 48 = c / 2^48.
Proof. apply Z.shiftr_div_pow2. lia. Qed.

Lemma u64_small (x : Z) : 0 <= x < 2^64 -> u64 x = x.
Proof. intros H. unfold u64. apply Z.mod_small. exact H. Qed.

Lemma mul_bounds (x y X Y : Z) :
  0 <= x <= X -> 0 <= y <= Y -> 0 <= x * y <= X * Y.
Proof. intros Hx Hy. split; [nia|]. apply Z.mul_le_mono_nonneg; lia. Qed.

Lemma mod_eq_sub (x y m k : Z) : x = y - k * m -> x mod m = y mod m.
Proof.
  intros ->. replace (y - k * m) with (y + (- k) * m) by ring.
  apply Z_mod_plus_full.
Qed.

Lemma div_box (k c B : Z) : 0 <= k -> 0 <= c <= B ->
  c = 2^k * (c / 2^k) + c mod 2^k /\ 0 <= c mod 2^k < 2^k /\
  0 <= c / 2^k <= B / 2^k.
Proof.
  intros Hk Hc. assert (0 < 2^k) by (apply Z.pow_pos_nonneg; lia).
  split; [apply Z.div_mod; lia|]. split; [apply Z.mod_pos_bound; lia|].
  split; [apply Z.div_pos; lia | apply Z.div_le_mono; lia].
Qed.

Lemma hide_intro (P : Prop) : P -> hide P.
Proof. exact (fun x => x). Qed.

Lemma sumprod_nonneg (l : list (Z * Z)) :
  Forall (fun xy => 0 <= fst xy * snd xy) l -> 0 <= sumprod l.
Proof. induction 1 as [|[u v] ? ? ? IH']; simpl in *; lia. Qed.

Lemma acc128_ok (l : list (Z * Z)) : forall c,
  0 <= c ->
  Forall (fun xy => 0 <= fst xy * snd xy) l ->
  c + sumprod l < 2^127 ->
  acc128 c l = Some (c + sumprod l).
Proof.
  induction l as [|[x y] l IH]; simpl; intros c Hc Hl Hs.
  - f_equal. lia.
  - inversion Hl as [|? ? Hxy Hl']; subst. simpl in Hxy.
    pose proof (sumprod_nonneg _ Hl').
    unfold mul128, add128.
    rewrite i128_ok by lia. simpl.
    rewrite i128_ok by lia. simpl.
    rewrite IH by (trivial; lia). f_equal. lia.
Qed.

Lemma mult_output_magnitude (r : FieldElem) : mult_output r -> magnitude 1 r.
Proof. unfold mult_output, magnitude, limbs_le. lia. Qed.

Lemma magnitude_mono (M N : Z) (a : FieldElem) :
  M <= N -> magnitude M a -> magnitude N a.
Proof. unfold magnitude, limbs_le. lia. Qed.

(** ** The multiplication kernel *)

(** Splits the accumulator [c], bounded by [B], into its low [k] bits [t]
    and the carry [q]; the defining equation is hidden. *)
Ltac split_c k c B q t :=
  let Hc := fresh "Hc" in
  assert (Hc : 0 <= c <= B) by lia;
  let Hq := fresh "Hq" in let Ht := fresh "Ht" in let Hb := fresh "Hb" in
  destruct (div_box k c B ltac:(lia) Hc) as (Hq & Ht & Hb);
  clear Hc;
  let b := eval vm_compute in (B / 2^k) in change (B / 2^k) with b in Hb;
  set (q := c / 2^k) in *; set (t := c mod 2^k) in *;
  clearbody q t; apply hide_intro in Hq.

Ltac stage_mask k B q t :=
  match goal with
  | |- context [u64 (?c mod 2^k)] =>
      rewrite (u64_small (c mod 2^k))
        by (pose proof (Z.mod_pos_bound c (2^k)); lia);
      split_c k c B q t
  end.

Ltac acc_ok :=
  rewrite acc128_ok;
    [ | lia
      | first [ assumption
              | repeat (apply Forall_cons;
                        [cbv beta iota delta [fst snd]; lia | ]);
                apply Forall_nil ]
      | cbv beta iota delta [sumprod]; lia ];
  rewrite bind_some; cbv beta iota delta [sumprod].

Ltac add_ok := unfold add128 at 1; rewrite i128_ok by lia; rewrite bind_some.

Ltac stage B q t :=
  acc_ok; rewrite ?land_mask52, ?shiftr52; stage_mask 52 B q t.

Ltac column S l B q t :=
  rewrite acc128_ok; [ | lia | assumption | lia ]; rewrite bind_some;
  set (S := sumprod l) in *; clearbody S;
  rewrite ?land_mask52, ?shiftr52; stage_mask 52 B q t.

Lemma mult_kernel_ok (x0 y0 : Z) (l1 l2 l3 l4 l5 l6 l7 l8 : list (Z * Z)) :
  let nn := Forall (fun xy : Z * Z => 0 <= fst xy * snd xy) in
  0 <= x0 * y0 <= 2^112 ->
  nn l1 -> sumprod l1 <= 2 * 2^112 ->
  nn l2 -> sumprod l2 <= 3 * 2^112 ->
  nn l3 -> sumprod l3 <= 4 * 2^112 ->
  nn l4 -> sumprod l4 <= 5 * 2^112 ->
  nn l5 -> sumprod l5 <= 4 * 2^112 ->
  nn l6 -> sumprod l6 <= 3 * 2^112 ->
  nn l7 -> sumprod l7 <= 2 * 2^112 ->
  nn l8 -> sumprod l8 <= 1 * 2^112 ->
  exists r, mult_kernel x0 y0 l1 l2 l3 l4 l5 l6 l7 l8 = Some r /\
    value r mod p_field =
      (x0 * y0 + sumprod l1 * 2^52 + sumprod l2 * 2^104 + sumprod l3 * 2^156 +
       sumprod l4 * 2^208 + sumprod l5 * 2^260 + sumprod l6 * 2^312 +
       sumprod l7 * 2^364 + sumprod l8 * 2^416) mod p_field /\
    mult_output r.
Proof.
  intros nn H0 N1 H1 N2 H2 N3 H3 N4 H4 N5 H5 N6 H6 N7 H7 N8 H8.
  pose proof (sumprod_nonneg _ N1) as G1. pose proof (sumprod_nonneg _ N2) as G2.
  pose proof (sumprod_nonneg _ N3) as G3. pose proof (sumprod_nonneg _ N4) as G4.
  pose proof (sumprod_nonneg _ N5) as G5. pose proof (sumprod_nonneg _ N6) as G6.
  pose proof (sumprod_nonneg _ N7) as G7. pose proof (sumprod_nonneg _ N8) as G8.
  unfold mult_kernel. cbv zeta.
  unfold mul128 at 1. rewrite i128_ok by lia. rewrite bind_some.
  rewrite ?land_mask52, ?shiftr52.
  set (S0 := x0 * y0) in *. clearbody S0.
  stage_mask 52 (2^112) c0 t0.
  column S1 l1 (3 * 2^112) c1 t1.
  column S2 l2 (4 * 2^112) c2 t2.
  column S3 l3 (5 * 2^112) c3 t3.
  column S4 l4 (6 * 2^112) c4 t4.
  column S5 l5 (5 * 2^112) c5 t5.
  column S6 l6 (4 * 2^112) c6 t6.
  column S7 l7 (3 * 2^112) c7 t7.
  column S8 l8 (2 * 2^112) c8 t8.
  rewrite (u64_small c8) by lia.
  stage (2^90) d0 s0.
  add_ok. stage (2^90) d1 s1.
  add_ok. stage (2^90) d2 s2.
  add_ok. stage (2^90) d3 s3.
  add_ok. acc_ok. rewrite land_mask48, shiftr48. stage_mask 48 (2^100) d4 s4.
  stage (2^86) d5 s5.
  add_ok. rewrite (u64_small (s1 + d5)) by lia.
  eexists. split; [reflexivity|]. split.
  - unfold value; cbn [n0 n1 n2 n3 n4].
    apply (mod_eq_sub _ _ _
             (16 * (t5 + t6 * 2^52 + t7 * 2^104 + t8 * 2^156 + c8 * 2^208) + d4)).
    unfold hide in *.
    clear - Hq Hq0 Hq1 Hq2 Hq3 Hq4 Hq5 Hq6 Hq7 Hq8 Hq9 Hq10 Hq11 Hq12 Hq13.
    unfold p_field. lia.
  - unfold mult_output, limbs_le; cbn [n0 n1 n2 n3 n4]. lia.
Qed.

Lemma SetMult_kernel (a b : FieldElem) :
  SetMult a b =
  mult_kernel (n0 a) (n0 b)
    [(n0 a, n1 b); (n1 a, n0 b)]
    [(n0 a, n2 b); (n1 a, n1 b); (n2 a, n0 b)]
    [(n0 a, n3 b); (n1 a, n2 b); (n2 a, n1 b); (n3 a, n0 b)]
    [(n0 a, n4 b); (n1 a, n3 b); (n2 a, n2 b); (n3 a, n1 b); (n4 a, n0 b)]
    [(n1 a, n4 b); (n2 a, n3 b); (n3 a, n2 b); (n4 a, n1 b)]
    [(n2 a, n4 b); (n3 a, n3 b); (n4 a, n2 b)]
    [(n3 a, n4 b); (n4 a, n3 b)]
    [(n4 a, n4 b)].
Proof. reflexivity. Qed.

Lemma SetSquare_kernel (a : FieldElem) :
  SetSquare a =
  mult_kernel (n0 a) (n0 a)
    [(u64 (n0 a * 2), n1 a)]
    [(u64 (n0 a * 2), n2 a); (n1 a, n1 a)]
    [(u64 (n0 a * 2), n3 a); (u64 (n1 a * 2), n2 a)]
    [(u64 (n0 a * 2), n4 a); (u64 (n1 a * 2), n3 a); (n2 a, n2 a)]
    [(u64 (n1 a * 2), n4 a); (u64 (n2 a * 2), n3 a)]
    [(u64 (n2 a * 2), n4 a); (n3 a, n3 a)]
    [(u64 (n3 a * 2), n4 a)]
    [(n4 a, n4 a)].
Proof. reflexivity. Qed.

(** [lia] is kept away from products of variables: every bounded product
    is replaced by a fresh variable first. *)
Ltac abstract_products :=
  repeat match goal with
         | H : 0 <= ?x * ?y <= _ |- _ =>
             let v := fresh "pr" in set (v := x * y) in *; clearbody v
         end.

Ltac kernel_side :=
  first [ progress (repeat (apply Forall_cons;
                     [cbv beta iota delta [fst snd]; abstract_products; lia | ]));
          apply Forall_nil
        | cbv beta iota delta [sumprod]; abstract_products; lia ].

Lemma SetMult_ok (a b : FieldElem) :
  magnitude 8 a -> magnitude 8 b ->
  exists r, SetMult a b = Some r /\
    value r mod p_field = (value a * value b) mod p_field /\ mult_output r.
Proof.
  destruct a as [a0 a1 a2 a3 a4], b as [b0 b1 b2 b3 b4].
  unfold magnitude, limbs_le; cbn [n0 n1 n2 n3 n4].
  intros (A0&A1&A2&A3&A4) (B0&B1&B2&B3&B4).
  rewrite SetMult_kernel; cbn [n0 n1 n2 n3 n4].
  assert (E : forall x y, 0 <= x <= 8 * (2^53 - 1) -> 0 <= y <= 8 * (2^53 - 1) ->
                          0 <= x * y <= 2^112).
  { intros x y Hx Hy. pose proof (mul_bounds _ _ _ _ Hx Hy). lia. }
  assert (A4' : 0 <= a4 <= 8 * (2^53 - 1)) by lia.
  assert (B4' : 0 <= b4 <= 8 * (2^53 - 1)) by lia.
  pose proof (E _ _ A0 B0). pose proof (E _ _ A0 B1). pose proof (E _ _ A0 B2).
  pose proof (E _ _ A0 B3). pose proof (E _ _ A0 B4'). pose proof (E _ _ A1 B0).
  pose proof (E _ _ A1 B1). pose proof (E _ _ A1 B2). pose proof (E _ _ A1 B3).
  pose proof (E _ _ A1 B4'). pose proof (E _ _ A2 B0). pose proof (E _ _ A2 B1).
  pose proof (E _ _ A2 B2). pose proof (E _ _ A2 B3). pose proof (E _ _ A2 B4').
  pose proof (E _ _ A3 B0). pose proof (E _ _ A3 B1). pose proof (E _ _ A3 B2).
  pose proof (E _ _ A3 B3). pose proof (E _ _ A3 B4'). pose proof (E _ _ A4' B0).
  pose proof (E _ _ A4' B1). pose proof (E _ _ A4' B2). pose proof (E _ _ A4' B3).
  pose proof (E _ _ A4' B4').
  clear E A0 A1 A2 A3 A4 A4' B0 B1 B2 B3 B4 B4'.
  match goal with
  | |- exists r, mult_kernel ?x ?y ?l1 ?l2 ?l3 ?l4 ?l5 ?l6 ?l7 ?l8 = _ /\ _ =>
      destruct (mult_kernel_ok x y l1 l2 l3 l4 l5 l6 l7 l8) as (r & Hr & Hv & Ho);
      [ kernel_side .. | ]
  end.
  exists r. split; [exact Hr|]. split; [|exact Ho].
  rewrite Hv. f_equal. unfold value; cbn [n0 n1 n2 n3 n4 sumprod]. ring.
Qed.

Lemma SetSquare_ok (a : FieldElem) :
  magnitude 8 a ->
  exists r, SetSquare a = Some r /\
    value r mod p_field = (value a * value a) mod p_field /\ mult_output r.
Proof.
  destruct a as [a0 a1 a2 a3 a4].
  unfold magnitude, limbs_le; cbn [n0 n1 n2 n3 n4].
  intros (A0&A1&A2&A3&A4).
  rewrite SetSquare_kernel; cbn [n0 n1 n2 n3 n4].
  rewrite !(u64_small (_ * 2)) by lia.
  assert (E : forall x y, 0 <= x <= 8 * (2^53 - 1) -> 0 <= y <= 8 * (2^53 - 1) ->
                          0 <= x * y <= 2^112).
  { intros x y Hx Hy. pose proof (mul_bounds _ _ _ _ Hx Hy). lia. }
  assert (D : forall x y, 0 <= x <= 8 * (2^53 - 1) -> 0 <= y <= 8 * (2^53 - 1) ->
                          0 <= x * 2 * y <= 2 * 2^112).
  { intros x y Hx Hy. pose proof (E _ _ Hx Hy). lia. }
  assert (A4' : 0 <= a4 <= 8 * (2^53 - 1)) by lia.
  pose proof (E _ _ A0 A0). pose proof (E _ _ A1 A1). pose proof (E _ _ A2 A2).
  pose proof (E _ _ A3 A3). pose proof (E _ _ A4' A4').
  pose proof (D _ _ A0 A1). pose proof (D _ _ A0 A2). pose proof (D _ _ A0 A3).
  pose proof (D _ _ A0 A4'). pose proof (D _ _ A1 A2). pose proof (D _ _ A1 A3).
  pose proof (D _ _ A1 A4'). pose proof (D _ _ A2 A3). pose proof (D _ _ A2 A4').
  pose proof (D _ _ A3 A4').
  clear E D A0 A1 A2 A3 A4 A4'.
  match goal with
  | |- exists r, mult_kernel ?x ?y ?l1 ?l2 ?l3 ?l4 ?l5 ?l6 ?l7 ?l8 = _ /\ _ =>
      destruct (mult_kernel_ok x y l1 l2 l3 l4 l5 l6 l7 l8) as (r & Hr & Hv & Ho);
      [ kernel_side .. | ]
  end.
  exists r. split; [exact Hr|]. split; [|exact Ho].
  rewrite Hv. f_equal. unfold value; cbn [n0 n1 n2 n3 n4 sumprod]. ring.
Qed.

(** ** C2: the multiplication and squaring kernels *)

(** C2.  For operands within the magnitude-8 bounds, [SetMult] runs without
    any 128-bit intermediate leaving its range (the result is [Some r]),
    the value of [r] is congruent to the product modulo the prime, and the
    limbs of [r] are within the magnitude-1 bounds, no [Normalize] being
    called; the same for [SetSquare] and the square. *)
Theorem C2_SetMult_SetSquare (a b : FieldElem) :
  magnitude 8 a -> magnitude 8 b ->
  (exists r, SetMult a b = Some r /\
     value r mod p_field = (value a * value b) mod p_field /\ magnitude 1 r) /\
  (exists r, SetSquare a = Some r /\
     value r mod p_field = (value a * value a) mod p_field /\ magnitude 1 r).
Proof.
  intros Ha Hb. split.
  - destruct (SetMult_ok a b Ha Hb) as (r & Hr & Hv & Ho).
    exists r. auto using mult_output_magnitude.
  - destruct (SetSquare_ok a Ha) as (r & Hr & Hv & Ho).
    exists r. auto using mult_output_magnitude.
Qed.

Lemma C2_SetMult_SetSquare_witness :
  magnitude 8 (FieldElem_of_int 3) /\ magnitude 8 (FieldElem_of_int 5) /\
  (exists r, SetMult (FieldElem_of_int 3) (FieldElem_of_int 5) = Some r /\
     value r mod p_field = (3 * 5) mod p_field /\ magnitude 1 r) /\
  (exists r, SetSquare (FieldElem_of_int 3) = Some r /\
     value r mod p_field = (3 * 3) mod p_field /\ magnitude 1 r).
Proof.
  assert (H3 : magnitude 8 (FieldElem_of_int 3))
    by (unfold magnitude, limbs_le; cbn; lia).
  assert (H5 : magnitude 8 (FieldElem_of_int 5))
    by (unfold magnitude, limbs_le; cbn; lia).
  split; [exact H3|]. split; [exact H5|].
  exact (C2_SetMult_SetSquare (FieldElem_of_int 3) (FieldElem_of_int 5) H3 H5).
Defined.

(** ** Normalize *)

Lemma Normalize_phases (a : FieldElem) :
  Normalize a = final_subtraction (carry_phase a).
Proof. reflexivity. Qed.

Ltac carry k c B q t :=
  rewrite ?(u64_small c) by lia;
  first [ rewrite !(land_mask52 c), ?(shiftr52 c)
        | rewrite !(land_mask48 c), ?(shiftr48 c) ];
  split_c k c B q t.

Lemma carry_phase_ok (a : FieldElem) :
  magnitude 8 a -> folded a < 2^256 ->
  masked (carry_phase a) /\ value (carry_phase a) = folded a.
Proof.
  destruct a as [a0 a1 a2 a3 a4].
  unfold magnitude, masked, folded, limbs_le, value, carry_phase;
    cbn [n0 n1 n2 n3 n4].
  intros (A0&A1&A2&A3&A4) HF.
  match goal with
  | |- context [if ?b then _ else _] => destruct b eqn:Hcond
  end.
  - clear Hcond. cbv zeta.
    carry 52 a0 (2^57) q0 t0.
    carry 52 (q0 + a1) (2^57) q1 t1.
    carry 52 (q1 + a2) (2^57) q2 t2.
    carry 52 (q2 + a3) (2^57) q3 t3.
    carry 48 (q3 + a4) (2^57) q4 t4.
    unfold hide in *.
    destruct (Z.eqb_spec q4 0) as [E|E]; cbn [negb n0 n1 n2 n3 n4].
    + subst q4.
      assert (V : a0 + a1 * 2^52 + a2 * 2^104 + a3 * 2^156 + a4 * 2^208 =
                  t0 + t1 * 2^52 + t2 * 2^104 + t3 * 2^156 + t4 * 2^208) by lia.
      rewrite V in *. clear - Ht Ht0 Ht1 Ht2 Ht3.
      rewrite Z.mod_small, Z.div_small by lia. lia.
    + assert (V : a0 + a1 * 2^52 + a2 * 2^104 + a3 * 2^156 + a4 * 2^208 =
                  (t0 + t1 * 2^52 + t2 * 2^104 + t3 * 2^156 + t4 * 2^208)
                  + q4 * 2^256) by lia.
      rewrite V in *. clear Hq Hq0 Hq1 Hq2 Hq3 V A0 A1 A2 A3 A4.
      set (T := t0 + t1 * 2^52 + t2 * 2^104 + t3 * 2^156 + t4 * 2^208) in *.
      assert (HT : 0 <= T < 2^256) by (unfold T; lia).
      assert (Hm : (T + q4 * 2^256) mod 2^256 = T).
      { rewrite Z.mod_add by lia. apply Z.mod_small; lia. }
      assert (Hd : (T + q4 * 2^256) / 2^256 = q4).
      { rewrite Z.div_add by lia. rewrite Z.div_small; lia. }
      rewrite Hm, Hd in *. clear Hm Hd.
      rewrite (u64_small (q4 * 0x1000003D1)) by lia.
      carry 52 (q4 * 0x1000003D1 + t0) (2^57) r0 s0.
      carry 52 (r0 + t1) (2^57) r1 s1.
      carry 52 (r1 + t2) (2^57) r2 s2.
      carry 52 (r2 + t3) (2^57) r3 s3.
      carry 48 (r3 + t4) (2^57) r4 s4.
      unfold hide, T in *. lia.
  - assert (a0 <= mask52 /\ a1 <= mask52 /\ a2 <= mask52 /\ a3 <= mask52 /\
            a4 <= mask48) as (M0&M1&M2&M3&M4).
    { repeat rewrite orb_false_iff in Hcond.
      destruct Hcond as ((((C0&C1)&C2)&C3)&C4).
      rewrite Z.gtb_ltb, Z.ltb_ge in C0, C1, C2, C3, C4. auto. }
    unfold mask52, mask48 in *. cbn [n0 n1 n2 n3 n4].
    rewrite Z.mod_small, Z.div_small by lia. lia.
Qed.

Lemma final_subtraction_ok (a : FieldElem) :
  masked a ->
  canonical (final_subtraction a) /\
  value (final_subtraction a) mod p_field = value a mod p_field.
Proof.
  destruct a as [a0 a1 a2 a3 a4].
  unfold masked, canonical, limbs_le, final_subtraction, value;
    cbn [n0 n1 n2 n3 n4].
  intros (A0&A1&A2&A3&A4).
  destruct (Z.eqb_spec a4 mask48) as [E4|E4]; cbn [andb];
    [destruct (Z.eqb_spec a3 mask52) as [E3|E3]; cbn [andb];
     [destruct (Z.eqb_spec a2 mask52) as [E2|E2]; cbn [andb];
      [destruct (Z.eqb_spec a1 mask52) as [E1|E1]; cbn [andb];
       [rewrite Z.geb_leb;
        destruct (Z.leb_spec 0xFFFFEFFFFFC2F a0) as [E0|E0]|]|]|]|];
    cbn [n0 n1 n2 n3 n4]; unfold mask52, mask48, p_field in *.
  1: { subst. rewrite (u64_small (a0 - _)) by lia.
       split; [lia|]. apply (mod_eq_sub _ _ _ 1). lia. }
  all: split; [lia | reflexivity].
Qed.

Lemma Normalize_ok (a : FieldElem) :
  magnitude 8 a -> folded a < 2^256 ->
  canonical (Normalize a) /\ value (Normalize a) mod p_field = value a mod p_field.
Proof.
  intros Ha Hf. rewrite Normalize_phases.
  destruct (carry_phase_ok a Ha Hf) as (Hm & Hv).
  destruct (final_subtraction_ok _ Hm) as (Hc & Hv').
  split; [exact Hc|]. rewrite Hv', Hv. unfold folded.
  apply (mod_eq_sub _ _ _ (value a / 2^256)).
  pose proof (Z.div_mod (value a) (2^256) ltac:(lia)).
  unfold p_field. lia.
Qed.

Lemma mult_output_folded (a : FieldElem) : mult_output a -> folded a < 2^256.
Proof.
  destruct a as [a0 a1 a2 a3 a4].
  unfold mult_output, folded, limbs_le, value; cbn [n0 n1 n2 n3 n4].
  intros (A0&A1&A2&A3&A4).
  set (V := a0 + a1 * 2^52 + a2 * 2^104 + a3 * 2^156 + a4 * 2^208).
  assert (HV : 0 <= V < 2^256 + 2^87) by (unfold V; lia).
  clearbody V. clear - HV.
  pose proof (Z.div_mod V (2^256) ltac:(lia)).
  pose proof (Z.mod_pos_bound V (2^256) ltac:(lia)).
  assert (0 <= V / 2^256 <= 1).
  { split; [apply Z.div_pos; lia|].
    apply Z.lt_succ_r. apply Z.div_lt_upper_bound; lia. }
  lia.
Qed.

Lemma masked_folded (a : FieldElem) : masked a -> folded a = value a.
Proof.
  destruct a as [a0 a1 a2 a3 a4].
  unfold masked, folded, limbs_le, value; cbn [n0 n1 n2 n3 n4].
  intros (A0&A1&A2&A3&A4).
  rewrite Z.mod_small, Z.div_small by lia. lia.
Qed.

Lemma mult_output_magnitude8 (a : FieldElem) : mult_output a -> magnitude 8 a.
Proof. unfold mult_output, magnitude, limbs_le. lia. Qed.

Lemma Normalize_mult_output (a : FieldElem) :
  mult_output a ->
  canonical (Normalize a) /\ value (Normalize a) mod p_field = value a mod p_field.
Proof.
  intros H. apply Normalize_ok;
    auto using mult_output_magnitude8, mult_output_folded.
Qed.

Lemma canonical_masked (a : FieldElem) : canonical a -> masked a.
Proof. intros [H _]. exact H. Qed.

Lemma canonical_mult_output (a : FieldElem) : canonical a -> mult_output a.
Proof. unfold canonical, mult_output, limbs_le. lia. Qed.

Lemma canonical_value_range (a : FieldElem) : canonical a -> 0 <= value a < p_field.
Proof.
  destruct a as [a0 a1 a2 a3 a4].
  unfold canonical, limbs_le, value; cbn [n0 n1 n2 n3 n4]. lia.
Qed.

(** Canonical forms are unique: equal residues give equal limbs. *)
Lemma canonical_unique (a b : FieldElem) :
  canonical a -> canonical b ->
  value a mod p_field = value b mod p_field -> a = b.
Proof.
  intros Ha Hb E.
  pose proof (canonical_value_range a Ha). pose proof (canonical_value_range b Hb).
  rewrite !Z.mod_small in E by assumption.
  destruct a as [a0 a1 a2 a3 a4], b as [b0 b1 b2 b3 b4].
  unfold canonical, limbs_le, value in *; cbn [n0 n1 n2 n3 n4] in *.
  assert (a0 = b0 /\ a1 = b1 /\ a2 = b2 /\ a3 = b3 /\ a4 = b4) by lia.
  intuition congruence.
Qed.

Lemma same_limbs_spec (a b : FieldElem) : same_limbs a b = true <-> a = b.
Proof.
  destruct a as [a0 a1 a2 a3 a4], b as [b0 b1 b2 b3 b4].
  unfold same_limbs; cbn [n0 n1 n2 n3 n4].
  rewrite !andb_true_iff, !Z.eqb_eq. split.
  - intros ((((-> & ->) & ->) & ->) & ->). reflexivity.
  - intros E. injection E. intuition.
Qed.

(** [operator==] on operands for which [Normalize] is right: the answer is
    congruence modulo the prime, and both operands are left canonical. *)
Lemma eq_op_ok (a b : FieldElem) :
  magnitude 8 a -> folded a < 2^256 -> magnitude 8 b -> folded b < 2^256 ->
  exists e a' b', eq_op a b = (e, a', b') /\
    canonical a' /\ value a' mod p_field = value a mod p_field /\
    canonical b' /\ value b' mod p_field = value b mod p_field /\
    (e = true <-> value a mod p_field = value b mod p_field).
Proof.
  intros Ha Fa Hb Fb.
  destruct (Normalize_ok a Ha Fa) as (Ca & Va).
  destruct (Normalize_ok b Hb Fb) as (Cb & Vb).
  exists (same_limbs (Normalize a) (Normalize b)), (Normalize a), (Normalize b).
  split; [reflexivity|]. do 4 (split; [assumption|]).
  rewrite same_limbs_spec. split.
  - intros E. rewrite <- Va, <- Vb, E. reflexivity.
  - intros E. apply canonical_unique; trivial. congruence.
Qed.

(** ** C3: Normalize *)

(** C3.  The claim holds of every magnitude-8 operand whose folded value
    fits 256 bits ([Normalize_ok]); it fails on [normalize_bad], a
    representation within the magnitude-1 bounds: the first pass leaves all
    limbs at their masks and an overflow of 1, the second pass carries out
    of limb 4 again, and that carry is dropped.  The value changes from
    [2c - 1] to [c - 1] modulo the prime. *)
Theorem C3_Normalize_drops_carry :
  magnitude 1 normalize_bad /\
  Normalize normalize_bad = mkFieldElem 0x1000003D0 0 0 0 0 /\
  value normalize_bad mod p_field = 0x2000007A1 /\
  value (Normalize normalize_bad) mod p_field = 0x1000003D0.
Proof.
  split; [unfold magnitude, limbs_le, normalize_bad; cbn [n0 n1 n2 n3 n4]; lia|].
  split; [vm_compute; reflexivity|].
  split; vm_compute; reflexivity.
Qed.

(** ** SetNeg, operator*=, operator+= *)

Lemma SetNeg_ok (a : FieldElem) (m b0 b1 b2 b3 b4 : Z) :
  0 <= m <= 1023 ->
  limbs_le a b0 b1 b2 b3 b4 ->
  b0 <= (m + 1) * L0 -> b1 <= (m + 1) * L1 -> b2 <= (m + 1) * L1 ->
  b3 <= (m + 1) * L1 -> b4 <= (m + 1) * L4 ->
  limbs_le (SetNeg a m) ((m + 1) * L0) ((m + 1) * L1) ((m + 1) * L1)
           ((m + 1) * L1) ((m + 1) * L4) /\
  value (SetNeg a m) = (m + 1) * p_field - value a.
Proof.
  destruct a as [a0 a1 a2 a3 a4].
  unfold limbs_le, value, SetNeg, L0, L1, L4, p_field; cbn [n0 n1 n2 n3 n4].
  intros Hm (A0&A1&A2&A3&A4) B0 B1 B2 B3 B4.
  rewrite (u64_small (m + 1)) by lia.
  rewrite !(u64_small (_ * (m + 1))) by lia.
  rewrite !(u64_small (_ - _)) by lia.
  lia.
Qed.

Lemma mul_int_ok (a : FieldElem) (v b0 b1 b2 b3 b4 : Z) :
  0 <= v < 2^64 ->
  limbs_le a b0 b1 b2 b3 b4 ->
  b0 * v < 2^64 -> b1 * v < 2^64 -> b2 * v < 2^64 -> b3 * v < 2^64 ->
  b4 * v < 2^64 ->
  limbs_le (mul_int a v) (b0 * v) (b1 * v) (b2 * v) (b3 * v) (b4 * v) /\
  value (mul_int a v) = v * value a.
Proof.
  destruct a as [a0 a1 a2 a3 a4].
  unfold limbs_le, value, mul_int; cbn [n0 n1 n2 n3 n4].
  intros Hv (A0&A1&A2&A3&A4) B0 B1 B2 B3 B4.
  rewrite (u64_small v) by lia.
  assert (E : forall x b, 0 <= x <= b -> b * v < 2^64 ->
                          u64 (x * v) = x * v /\ 0 <= x * v <= b * v).
  { intros x b Hx Hb. assert (0 <= x * v <= b * v) by nia.
    split; [apply u64_small; lia | assumption]. }
  destruct (E _ _ A0 B0) as (-> & ?). destruct (E _ _ A1 B1) as (-> & ?).
  destruct (E _ _ A2 B2) as (-> & ?). destruct (E _ _ A3 B3) as (-> & ?).
  destruct (E _ _ A4 B4) as (-> & ?).
  repeat split; try tauto. ring.
Qed.

Lemma add_assign_ok (r a : FieldElem) (b0 b1 b2 b3 b4 c0 c1 c2 c3 c4 : Z) :
  limbs_le r b0 b1 b2 b3 b4 -> limbs_le a c0 c1 c2 c3 c4 ->
  b0 + c0 < 2^64 -> b1 + c1 < 2^64 -> b2 + c2 < 2^64 -> b3 + c3 < 2^64 ->
  b4 + c4 < 2^64 ->
  limbs_le (add_assign r a) (b0 + c0) (b1 + c1) (b2 + c2) (b3 + c3) (b4 + c4) /\
  value (add_assign r a) = value r + value a.
Proof.
  destruct r as [r0 r1 r2 r3 r4], a as [a0 a1 a2 a3 a4].
  unfold limbs_le, value, add_assign; cbn [n0 n1 n2 n3 n4].
  intros (R0&R1&R2&R3&R4) (A0&A1&A2&A3&A4) B0 B1 B2 B3 B4.
  rewrite !(u64_small (_ + _)) by lia. lia.
Qed.


(** ** The field prime is prime *)

Lemma prime_divisor_exists (n : Z) :
  1 < n -> exists P, Z.prime P /\ (P | n).
Proof.
  intros Hn. assert (H0 : 0 <= n) by lia. revert Hn.
  pattern n. apply Z_lt_induction; [|exact H0]. clear n H0.
  intros n IH Hn.
  destruct (prime_dec n) as [Hp|Hp].
  - exists n. split; [apply prime_alt; exact Hp | apply Z.divide_refl].
  - destruct (not_prime_divide n Hn Hp) as (d & Hd & Hdn).
    destruct (IH d ltac:(lia) ltac:(lia)) as (P & HP & HPd).
    exists P. split; [exact HP | eapply Z.divide_trans; eassumption].
Qed.

Lemma pow_mod_one (P a n k : Z) :
  1 < P -> 0 <= k -> a ^ n mod P = 1 -> (a ^ n) ^ k mod P = 1.
Proof.
  intros HP Hk H. rewrite <- Z.mod_pow_l, H, Z.pow_1_l by lia.
  apply Z.mod_small. lia.
Qed.

Lemma pow_mod_gcd (P a : Z) :
  1 < P -> forall n, 0 <= n -> forall m, 0 <= m ->
  a ^ m mod P = 1 -> a ^ n mod P = 1 -> a ^ (Z.gcd m n) mod P = 1.
Proof.
  intros HP n Hn. pattern n. apply Z_lt_induction; [|exact Hn]. clear n Hn.
  intros n IH m Hm Em En.
  destruct (Z.eq_dec n 0) as [->|Hn0].
  - rewrite Z.gcd_0_r, Z.abs_eq by lia. exact Em.
  - assert (Hn : 0 < n).
    { destruct (Z.lt_trichotomy n 0) as [Hneg|[?|?]]; [|lia|lia].
      rewrite Z.pow_neg_r in En by lia. rewrite Z.mod_0_l in En by lia. lia. }
    pose proof (Z.mod_pos_bound m n Hn) as Hr.
    assert (Er : a ^ (m mod n) mod P = 1).
    { assert (Hd : 0 <= m / n) by (apply Z.div_pos; lia).
      rewrite <- Em. rewrite (Z.div_mod m n) at 2 by lia.
      rewrite Z.pow_add_r, Z.pow_mul_r by nia.
      rewrite <- Z.mul_mod_idemp_l by lia.
      rewrite (pow_mod_one P a n (m / n)) by (assumption || lia).
      rewrite Z.mul_1_l. reflexivity. }
    replace (Z.gcd m n) with (Z.gcd n (m mod n)).
    + apply IH; try lia; assumption.
    + rewrite (Z.gcd_comm n), Z.gcd_mod by lia. apply Z.gcd_comm.
Qed.

Lemma pock_step (N P a q : Z) :
  Z.prime P -> (P | N) -> 1 < N -> a ^ (N - 1) mod N = 1 ->
  Z.prime q -> (q | N - 1) ->
  Z.gcd (a ^ ((N - 1) / q) mod N - 1) N = 1 ->
  (q | P - 1).
Proof.
  intros HP HPN HN Ea Hq HqN Hg.
  pose proof (Z.prime_ge_2 _ HP) as HP2. pose proof (Z.prime_ge_2 _ Hq) as Hq2.
  assert (EP : a ^ (N - 1) mod P = 1).
  { rewrite <- (Z.mod_mod_divide _ N P HPN), Ea. apply Z.mod_small. lia. }
  assert (HaP : a mod P <> 0).
  { intros E. rewrite <- Z.mod_pow_l, E, Z.pow_0_l, Z.mod_0_l in EP by lia. lia. }
  pose proof (Z.fermat_nz P a HP HaP) as EF.
  pose proof (pow_mod_gcd P a ltac:(lia) (P - 1) ltac:(lia) (N - 1) ltac:(lia) EP EF) as Eg.
  set (g := Z.gcd (N - 1) (P - 1)) in *.
  assert (Hg0 : 0 < g).
  { pose proof (Z.gcd_nonneg (N - 1) (P - 1)).
    assert (g <> 0); [|fold g in H; lia].
    unfold g. intros E. apply Z.gcd_eq_0_l in E. lia. }
  assert (HgP : (g | P - 1)) by apply Z.gcd_divide_r.
  assert (HgN : (g | N - 1)) by apply Z.gcd_divide_l.
  destruct (Z.BoolSpec_divide q g) as [Hqg|Hqg].
  { eapply Z.divide_trans; eassumption. }
  exfalso.
  destruct HqN as [M HM].
  assert (HMdiv : (N - 1) / q = M) by (rewrite HM; apply Z.div_mul; lia).
  assert (HM0 : 0 < M) by nia.
  assert (HgM : (g | M)).
  { apply (Z.gauss g q M).
    - rewrite Z.mul_comm, <- HM. exact HgN.
    - rewrite Z.gcd_comm. apply Z.coprime_prime_l; assumption. }
  destruct HgM as [k Hk].
  assert (Hk0 : 0 <= k) by nia.
  assert (EM : a ^ M mod P = 1).
  { rewrite Hk, Z.mul_comm, Z.pow_mul_r by lia. apply pow_mod_one; trivial. lia. }
  assert (HPd : (P | a ^ ((N - 1) / q) mod N - 1)).
  { rewrite HMdiv. apply Z.mod_divide; [lia|].
    rewrite <- Zminus_mod_idemp_l, (Z.mod_mod_divide _ N P HPN), EM.
    reflexivity. }
  assert (HP1 : (P | 1)).
  { rewrite <- Hg. apply Z.gcd_greatest; assumption. }
  apply Z.divide_1_r_nonneg in HP1; lia.
Qed.

Lemma product_divides (qs : list Z) (X : Z) :
  coprime_chain qs = true -> Forall (fun q => (q | X)) qs ->
  (fold_right Z.mul 1 qs | X).
Proof.
  induction qs as [|q qs IH]; simpl; intros Hc Hd.
  - apply Z.divide_1_l.
  - apply andb_true_iff in Hc. destruct Hc as [Hg Hc]. apply Z.eqb_eq in Hg.
    inversion Hd as [|? ? Hq Hqs]; subst.
    specialize (IH Hc Hqs). destruct Hq as [k Hk]. subst X.
    rewrite Z.mul_comm. apply Z.mul_divide_mono_r.
    apply (Z.gauss _ q k); [rewrite Z.mul_comm; exact IH | exact Hg].
Qed.

Theorem pocklington (N : Z) (qs : list Z) :
  Forall Z.prime qs -> pock_check N qs = true -> Z.prime N.
Proof.
  intros Hqs Hc. unfold pock_check in Hc.
  repeat (apply andb_true_iff in Hc; destruct Hc as [Hc ?]).
  apply Z.ltb_lt in Hc.
  rename H into HF, H0 into Hcop, H1 into Hall, H2 into Ea.
  apply Z.eqb_eq in Ea. apply Z.ltb_lt in HF.
  rewrite Zpow_mod_correct in Ea by lia.
  set (F := fold_right Z.mul 1 qs) in *.
  assert (Key : forall P, Z.prime P -> (P | N) -> F + 1 <= P).
  { intros P HP HPN.
    assert (HFP : (F | P - 1)).
    { apply product_divides; [exact Hcop|].
      rewrite Forall_forall. intros q Hq.
      rewrite forallb_forall in Hall. specialize (Hall q Hq).
      apply andb_true_iff in Hall. destruct Hall as [H1 H2].
      apply Z.eqb_eq in H1, H2.
      rewrite Forall_forall in Hqs. pose proof (Hqs q Hq) as Hqp.
      pose proof (Z.prime_ge_2 _ Hqp).
      rewrite Zpow_mod_correct in H2 by lia.
      apply (pock_step N P 2 q); trivial.
      apply Z.mod_divide; [lia | exact H1]. }
    pose proof (Z.prime_ge_2 _ HP).
    apply Z.divide_pos_le in HFP; lia. }
  apply prime_alt. destruct (prime_dec N) as [Hp|Hp]; [exact Hp|exfalso].
  destruct (not_prime_divide N Hc Hp) as (d & Hd & [k Hk]).
  assert (Hk1 : 1 < k) by nia.
  destruct (prime_divisor_exists d ltac:(lia)) as (P1 & HP1 & HP1d).
  destruct (prime_divisor_exists k Hk1) as (P2 & HP2 & HP2k).
  assert (F + 1 <= P1).
  { apply Key; trivial. eapply Z.divide_trans; [exact HP1d|]. exists k. exact Hk. }
  assert (F + 1 <= P2).
  { apply Key; trivial. eapply Z.divide_trans; [exact HP2k|]. exists d. lia. }
  apply Z.divide_pos_le in HP1d; [|lia]. apply Z.divide_pos_le in HP2k; [|lia].
  assert (0 < F).
  { unfold F. clear - Hqs. induction Hqs as [|q qs Hq _ IH]; simpl; [lia|].
    pose proof (Z.prime_ge_2 _ Hq). nia. }
  nia.
Qed.

Lemma trial_check_prime (n : Z) (B : nat) : trial_check n B = true -> Z.prime n.
Proof.
  unfold trial_check. intros Hc.
  repeat (apply andb_true_iff in Hc; destruct Hc as [Hc ?]).
  apply Z.ltb_lt in Hc. rename H into Hall, H0 into HB. apply Z.ltb_lt in HB.
  assert (Small : forall d, 1 < d -> d * d <= n -> ~ (d | n)).
  { intros d Hd Hdd Hdiv.
    rewrite forallb_forall in Hall.
    assert (Hlt : d < Z.of_nat B) by nia.
    specialize (Hall d). rewrite in_map_iff in Hall.
    assert (Hin : exists x, Z.of_nat x = d /\ In x (seq 2 (B - 2))).
    { exists (Z.to_nat d). split; [lia|]. apply in_seq. lia. }
    specialize (Hall Hin). apply negb_true_iff, Z.eqb_neq in Hall.
    apply Hall. apply Z.mod_divide; [lia | exact Hdiv]. }
  split; [exact Hc|]. intros m Hm [k Hk].
  assert (Hk1 : 1 < k) by nia.
  destruct (Z.le_gt_cases m k) as [Hle|Hgt].
  - apply (Small m); [lia | nia | exists k; exact Hk].
  - apply (Small k); [lia | nia | exists m; lia].
Qed.

Lemma pock_r_prime : Z.prime pock_r.
Proof.
  apply (pocklington pock_r [107590001; 7240687; 96557; 41201; 4423; 2657]).
  - repeat apply Forall_cons; try apply Forall_nil.
    + apply (trial_check_prime _ (Z.to_nat 10400)). vm_compute. reflexivity.
    + apply (trial_check_prime _ (Z.to_nat 2700)). vm_compute. reflexivity.
    + apply (trial_check_prime _ (Z.to_nat 320)). vm_compute. reflexivity.
    + apply (trial_check_prime _ (Z.to_nat 210)). vm_compute. reflexivity.
    + apply (trial_check_prime _ (Z.to_nat 70)). vm_compute. reflexivity.
    + apply (trial_check_prime _ (Z.to_nat 60)). vm_compute. reflexivity.
  - vm_compute. reflexivity.
Qed.

Lemma pock_q_prime : Z.prime pock_q.
Proof.
  apply (pocklington pock_q [pock_r]).
  - apply Forall_cons; [exact pock_r_prime | apply Forall_nil].
  - vm_compute. reflexivity.
Qed.

Theorem p_field_prime : Z.prime p_field.
Proof.
  apply (pocklington p_field [pock_q]).
  - apply Forall_cons; [exact pock_q_prime | apply Forall_nil].
  - vm_compute. reflexivity.
Qed.

(** ** Residues *)

Lemma Fp_morph :
  ring_morph (R:=Fp) Zmod.zero Zmod.one Zmod.add Zmod.mul Zmod.sub Zmod.opp eq
    0 1 Z.add Z.mul Z.sub Z.opp Z.eqb (Zmod.of_Z p_field).
Proof.
  split; intros.
  - apply Zmod.of_Z_0.
  - apply Zmod.of_Z_1.
  - apply Zmod.of_Z_add.
  - apply Zmod.of_Z_sub.
  - apply Zmod.of_Z_mul.
  - apply Zmod.of_Z_opp.
  - match goal with H : (_ =? _) = true |- _ => apply Z.eqb_eq in H; subst end.
    reflexivity.
Qed.

Ltac Fp_cst t :=
  match t with
  | Zmod.of_Z _ ?z =>
      match isZcst z with
      | true => z
      | _ => constr:(InitialRing.NotConstant)
      end
  | @Zmod.zero _ => constr:(0)
  | @Zmod.one _ => constr:(1)
  | _ => constr:(InitialRing.NotConstant)
  end.

Add Ring Fp_ring :
  (Zmod.ring_theory p_field) (morphism Fp_morph, constants [Fp_cst]).

Lemma p_field_pos : 1 < p_field.
Proof. reflexivity. Qed.

Lemma fv_eq_iff (x y : FieldElem) :
  fv x = fv y <-> value x mod p_field = value y mod p_field.
Proof. apply Zmod.of_Z_inj. Qed.

Lemma of_Z_eq_iff (x y : Z) :
  Zmod.of_Z p_field x = Zmod.of_Z p_field y <-> eqp x y.
Proof. apply Zmod.of_Z_inj. Qed.

Lemma of_Z_mul_p (k : Z) : Zmod.of_Z p_field (k * p_field) = Zmod.zero.
Proof.
  rewrite <- Zmod.of_Z_0. apply Zmod.of_Z_inj.
  rewrite Z.mod_mul, Z.mod_0_l; unfold p_field; lia.
Qed.

Lemma fv_zero_iff (x : FieldElem) : fv x = Zmod.zero <-> value x mod p_field = 0.
Proof.
  unfold fv. rewrite <- Zmod.of_Z_0, of_Z_eq_iff. unfold eqp.
  rewrite Z.mod_0_l by (unfold p_field; lia). reflexivity.
Qed.

(** The kernels and the linear operations, on residues. *)

Lemma SetMult_fv (a b : FieldElem) :
  magnitude 8 a -> magnitude 8 b ->
  exists r, SetMult a b = Some r /\ fv r = (fv a * fv b)%fp /\ mult_output r.
Proof.
  intros Ha Hb. destruct (SetMult_ok a b Ha Hb) as (r & Hr & Hv & Ho).
  exists r. split; [exact Hr|]. split; [|exact Ho].
  unfold fv. rewrite <- Zmod.of_Z_mul. apply Zmod.of_Z_inj. exact Hv.
Qed.

Lemma SetSquare_fv (a : FieldElem) :
  magnitude 8 a ->
  exists r, SetSquare a = Some r /\ fv r = (fv a * fv a)%fp /\ mult_output r.
Proof.
  intros Ha. destruct (SetSquare_ok a Ha) as (r & Hr & Hv & Ho).
  exists r. split; [exact Hr|]. split; [|exact Ho].
  unfold fv. rewrite <- Zmod.of_Z_mul. apply Zmod.of_Z_inj. exact Hv.
Qed.

(** ** The addition chains *)

Lemma pw_base (a : FieldElem) : magnitude 8 a -> pw a 1 a.
Proof. intros H. split; [exact H|]. rewrite Zmod.pow_1_r. reflexivity. Qed.

Lemma SetMult_pw (a : FieldElem) (i j k : Z) (x y : FieldElem) :
  k = i + j -> 0 <= i -> 0 <= j -> pw a i x -> pw a j y ->
  exists r, SetMult x y = Some r /\ pw a k r.
Proof.
  intros -> Hi Hj [Mx Ex] [My Ey].
  destruct (SetMult_fv x y Mx My) as (r & Hr & Hv & Ho).
  exists r. split; [exact Hr|]. split; [apply mult_output_magnitude8, Ho|].
  rewrite Hv, Ex, Ey. symmetry. apply Zmod.pow_add_r_nonneg; assumption.
Qed.

Lemma SetSquare_pw (a : FieldElem) (i k : Z) (x : FieldElem) :
  k = 2 * i -> 0 <= i -> pw a i x ->
  exists r, SetSquare x = Some r /\ pw a k r.
Proof.
  intros -> Hi [Mx Ex].
  destruct (SetSquare_fv x Mx) as (r & Hr & Hv & Ho).
  exists r. split; [exact Hr|]. split; [apply mult_output_magnitude8, Ho|].
  rewrite Hv, Ex. replace (2 * i) with (i + i) by lia.
  symmetry. apply Zmod.pow_add_r_nonneg; assumption.
Qed.

Lemma repeatM_pw (a : FieldElem) (f : FieldElem -> option FieldElem)
  (g : Z -> Z) :
  (forall e, 0 <= e -> 0 <= g e) ->
  (forall x e, 0 <= e -> pw a e x -> exists r, f x = Some r /\ pw a (g e) r) ->
  forall n x e, 0 <= e -> pw a e x ->
  exists r, repeatM n f x = Some r /\ pw a (iter_exp n g e) r.
Proof.
  intros Hg Hf n. induction n as [|n IH]; intros x e He Hx; cbn [repeatM iter_exp].
  - exists x. auto.
  - destruct (Hf x e He Hx) as (r & -> & Hr). rewrite bind_some.
    apply IH; auto.
Qed.

Lemma square10_pw (a x : FieldElem) (e : Z) :
  0 <= e -> pw a e x ->
  exists r, repeatM 10 SetSquare x = Some r /\ pw a (1024 * e) r.
Proof.
  intros He Hx.
  destruct (repeatM_pw a SetSquare (fun e => 2 * e)) with (n := 10%nat) (x := x) (e := e)
    as (r & Hr & Hp); trivial.
  - intros; lia.
  - intros y k Hk Hy. apply (SetSquare_pw a k); trivial.
  - exists r. split; [exact Hr|].
    replace (1024 * e) with (iter_exp 10 (fun e => 2 * e) e); [exact Hp|].
    cbv [iter_exp]. ring.
Qed.

Lemma square10_mult_pw (a m x : FieldElem) (j e : Z) :
  0 <= j -> pw a j m -> 0 <= e -> pw a e x ->
  exists r, square10_mult m x = Some r /\ pw a (1024 * e + j) r.
Proof.
  intros Hj Hm He Hx. unfold square10_mult.
  destruct (square10_pw a x e He Hx) as (y & -> & Hy). rewrite bind_some.
  apply (SetMult_pw a (1024 * e) j); trivial. lia.
Qed.

Lemma square10_mult_loop_pw (a m : FieldElem) (j : Z) (n : nat) (x : FieldElem)
  (e : Z) :
  0 <= j -> pw a j m -> 0 <= e -> pw a e x ->
  exists r, repeatM n (square10_mult m) x = Some r /\
            pw a (iter_exp n (fun e => 1024 * e + j) e) r.
Proof.
  intros Hj Hm He Hx.
  apply (repeatM_pw a (square10_mult m) (fun e => 1024 * e + j)); trivial.
  - intros; lia.
  - intros y k Hk Hy. apply square10_mult_pw; trivial.
Qed.

Lemma iter_exp_nonneg (n : nat) (j e : Z) :
  0 <= j -> 0 <= e -> 0 <= iter_exp n (fun e => 1024 * e + j) e.
Proof.
  intros Hj. revert e.
  induction n as [|n IH]; cbn [iter_exp]; intros e He; [exact He|].
  apply IH. lia.
Qed.

(** One step of a chain: run the kernel, name the result and record which
    power it is. *)
Ltac sq_step a Hx r Hr :=
  match type of Hx with
  | pw _ ?i ?x =>
      let k := eval vm_compute in (2 * i) in
      let E := fresh "E" in
      destruct (SetSquare_pw a i k x eq_refl ltac:(lia) Hx) as (r & E & Hr);
      rewrite E; rewrite bind_some; clear E
  end.

Ltac mul_step a Hx Hy r Hr :=
  match type of Hx with
  | pw _ ?i ?x =>
      match type of Hy with
      | pw _ ?j ?y =>
          let k := eval vm_compute in (i + j) in
          let E := fresh "E" in
          destruct (SetMult_pw a i j k x y eq_refl ltac:(lia) ltac:(lia) Hx Hy)
            as (r & E & Hr);
          rewrite E; rewrite bind_some; clear E
      end
  end.

(** What [SetInverse] computes.  [a4] is set by [a4.SetSquare(a)], so it
    holds the square of [a], and every later local holds a smaller power
    than its name says. *)
Lemma SetInverse_locals_ok (a : FieldElem) :
  magnitude 8 a ->
  exists l, SetInverse_locals a = Some l /\
    pw a 2 (i_a2 l) /\ pw a 3 (i_a3 l) /\ pw a 2 (i_a4 l) /\ pw a 3 (i_a5 l) /\
    pw a 6 (i_a10 l) /\ pw a 7 (i_a11 l) /\ pw a 13 (i_a21 l) /\
    pw a 26 (i_a42 l) /\ pw a 29 (i_a45 l) /\ pw a 39 (i_a63 l) /\
    pw a 78 (i_a126 l) /\ pw a 156 (i_a252 l) /\ pw a 312 (i_a504 l) /\
    pw a 624 (i_a1008 l) /\ pw a 631 (i_a1019 l) /\ pw a 633 (i_a1023 l).
Proof.
  intros Ha. pose proof (pw_base a Ha) as H1. unfold SetInverse_locals.
  sq_step a H1 a2 H2.
  mul_step a H2 H1 a3 H3.
  (* [a4.SetSquare(a)]: the call that gave [a2] *)
  rewrite bind_some. pose proof H2 as H4.
  mul_step a H4 H1 a5 H5.
  sq_step a H5 a10 H10.
  mul_step a H10 H1 a11 H11.
  mul_step a H11 H10 a21 H21.
  sq_step a H21 a42 H42.
  mul_step a H42 H3 a45 H45.
  mul_step a H42 H21 a63 H63.
  sq_step a H63 a126 H126.
  sq_step a H126 a252 H252.
  sq_step a H252 a504 H504.
  sq_step a H504 a1008 H1008.
  mul_step a H1008 H11 a1019 H1019.
  mul_step a H1019 H4 a1023 H1023.
  eexists. split; [reflexivity|]. cbn [i_a2 i_a3 i_a4 i_a5 i_a10 i_a11 i_a21
    i_a42 i_a45 i_a63 i_a126 i_a252 i_a504 i_a1008 i_a1019 i_a1023].
  repeat (split; [assumption|]). assumption.
Qed.

Lemma SetMult_pw_output (a : FieldElem) (i j k : Z) (x y : FieldElem) :
  k = i + j -> 0 <= i -> 0 <= j -> pw a i x -> pw a j y ->
  exists r, SetMult x y = Some r /\ pw a k r /\ mult_output r.
Proof.
  intros -> Hi Hj [Mx Ex] [My Ey].
  destruct (SetMult_fv x y Mx My) as (r & Hr & Hv & Ho).
  exists r. split; [exact Hr|]. split; [|exact Ho].
  split; [apply mult_output_magnitude8, Ho|].
  rewrite Hv, Ex, Ey. symmetry. apply Zmod.pow_add_r_nonneg; assumption.
Qed.

(** The loops common to both chains: from the power [e0] in [x], with
    [m1023], [mmid] and [mlast] the powers [j], [jmid] and [jlast]. *)
Lemma chain_loops (a m1023 mmid mlast x0 : FieldElem) (j jmid jlast e0 : Z) :
  0 <= j -> pw a j m1023 -> 0 <= jmid -> pw a jmid mmid ->
  0 <= jlast -> pw a jlast mlast -> 0 <= e0 -> pw a e0 x0 ->
  exists r,
    (x <- repeatM 21 (square10_mult m1023) x0 ;;
     x <- square10_mult mmid x ;;
     x <- repeatM 2 (square10_mult m1023) x ;;
     x <- repeatM 10 SetSquare x ;;
     SetMult x mlast) = Some r /\
    pw a (1024 * iter_exp 2 (fun e => 1024 * e + j)
                   (1024 * iter_exp 21 (fun e => 1024 * e + j) e0 + jmid)
          + jlast) r /\
    mult_output r.
Proof.
  intros Hj Hm Hjm Hmm Hjl Hml He0 Hx0.
  destruct (square10_mult_loop_pw a m1023 j 21 x0 e0 Hj Hm He0 Hx0)
    as (x1 & -> & H1). rewrite bind_some.
  pose proof (iter_exp_nonneg 21 j e0 Hj He0) as He1.
  destruct (square10_mult_pw a mmid x1 jmid _ Hjm Hmm He1 H1)
    as (x2 & -> & H2). rewrite bind_some.
  assert (He2 : 0 <= 1024 * iter_exp 21 (fun e => 1024 * e + j) e0 + jmid) by lia.
  destruct (square10_mult_loop_pw a m1023 j 2 x2 _ Hj Hm He2 H2)
    as (x3 & -> & H3). rewrite bind_some.
  pose proof (iter_exp_nonneg 2 j _ Hj He2) as He3.
  destruct (square10_pw a x3 _ He3 H3) as (x4 & -> & H4). rewrite bind_some.
  eapply (SetMult_pw_output a _ jlast); [reflexivity|lia|lia|exact H4|exact Hml].
Qed.

Lemma SetInverse_ok (a : FieldElem) :
  magnitude 8 a ->
  exists r, SetInverse a = Some r /\ pw a inverse_exponent r /\ mult_output r.
Proof.
  intros Ha.
  destruct (SetInverse_locals_ok a Ha) as (l & El & H).
  unfold SetInverse. rewrite El, bind_some.
  apply (chain_loops a (i_a1023 l) (i_a1019 l) (i_a45 l) (i_a63 l)
           633 631 29 39); try lia; apply H.
Qed.

Lemma SetSquareRoot_ok (a : FieldElem) :
  magnitude 8 a ->
  exists r, SetSquareRoot a = Some r /\ pw a sqrt_exponent r /\ mult_output r.
Proof.
  intros Ha. pose proof (pw_base a Ha) as H1. unfold SetSquareRoot.
  sq_step a H1 a2 H2.
  mul_step a H2 H1 a3 H3.
  sq_step a H3 a6 H6.
  sq_step a H6 a12 H12.
  mul_step a H12 H3 a15 H15.
  sq_step a H15 a30 H30.
  sq_step a H30 a60 H60.
  sq_step a H60 a120 H120.
  sq_step a H120 a240 H240.
  mul_step a H240 H15 a255 H255.
  sq_step a H255 a510 H510.
  mul_step a H510 H240 a750 H750.
  mul_step a H750 H30 a780 H780.
  sq_step a H510 a1020 H1020.
  mul_step a H1020 H2 a1022 H1022.
  mul_step a H1022 H1 a1023 H1023.
  apply (chain_loops a a1023 a1022 a780 a15 1023 1022 780 15); try lia;
    assumption.
Qed.

Lemma sqrt_exponent_eq : sqrt_exponent = (p_field + 1) / 4.
Proof. vm_compute. reflexivity. Qed.

Lemma inverse_exponent_neq : inverse_exponent mod (p_field - 1) <> p_field - 2.
Proof. vm_compute. discriminate. Qed.

(** ** C1: SetInverse *)

(** C1.  [SetInverse] does not compute the inverse.  The local [a4] is set
    by [a4.SetSquare(a)] (the square of [a], where the chain needs the
    square of [a2]), so [a5], [a10], ... [a1023] hold the powers 3, 6, 7,
    13, 26, 29, 39, ..., 631, 633 and the result is the power
    [inverse_exponent] of [a] ([SetInverse_ok]), not the power [p - 2].  On
    the operand 7: [a4] is 49, and the product of the result and 7 is not 1
    modulo the prime. *)
Theorem C1_SetInverse_wrong_power :
  magnitude 8 inverse_input /\ value inverse_input mod p_field <> 0 /\
  (exists l, SetInverse_locals inverse_input = Some l /\
             value (i_a2 l) = 7 ^ 2 /\ value (i_a4 l) = 7 ^ 2 /\
             value (i_a1023 l) mod p_field = 7 ^ 633 mod p_field) /\
  (exists r, SetInverse inverse_input = Some r /\
             (value r * value inverse_input) mod p_field <> 1 /\
             value r mod p_field = 7 ^ inverse_exponent mod p_field) /\
  inverse_exponent mod (p_field - 1) <> (p_field - 2) mod (p_field - 1).
Proof.
  split.
  { unfold magnitude, limbs_le, inverse_input, FieldElem_of_int;
      cbn [n0 n1 n2 n3 n4]. rewrite u64_small; lia. }
  split; [vm_compute; discriminate|].
  split.
  { eexists. split; [vm_compute; reflexivity|].
    split; [vm_compute; reflexivity|]. split; [vm_compute; reflexivity|].
    rewrite <- (Zpow_mod_correct 7 633 p_field) by (unfold p_field; lia).
    vm_compute. reflexivity. }
  split.
  { eexists. split; [vm_compute; reflexivity|]. split; [vm_compute; discriminate|].
    rewrite <- (Zpow_mod_correct 7 inverse_exponent p_field)
      by (unfold p_field; lia).
    vm_compute. reflexivity. }
  vm_compute. discriminate.
Qed.

(** ** C8: SetSquareRoot *)

Lemma eqp_fv (x : FieldElem) (y : Z) :
  eqp (value x) y <-> fv x = Zmod.of_Z p_field y.
Proof. unfold fv. rewrite of_Z_eq_iff. reflexivity. Qed.

Lemma half_exponents :
  2 * sqrt_exponent = 1 + (p_field - 1) / 2 /\
  2 * ((p_field - 1) / 2) = Z.pred p_field /\
  0 <= (p_field - 1) / 2 /\ 0 <= sqrt_exponent /\ sqrt_exponent <> 0.
Proof. vm_compute. intuition discriminate. Qed.

(** The square of the [sqrt_exponent]-th power of [A] is [A] times the
    Euler power of [A]. *)
Lemma sqrt_power_square (A : Fp) :
  ((A ^ sqrt_exponent) * (A ^ sqrt_exponent) = A * A ^ ((p_field - 1) / 2))%fp.
Proof.
  destruct half_exponents as (E1 & E2 & H1 & H2 & H3).
  rewrite <- Zmod.pow_add_r_nonneg by assumption.
  replace (sqrt_exponent + sqrt_exponent) with (1 + (p_field - 1) / 2) by lia.
  rewrite Zmod.pow_add_r_nonneg, Zmod.pow_1_r by lia. reflexivity.
Qed.

Lemma euler_power_square (A : Fp) :
  A <> Zmod.zero -> ((A ^ ((p_field - 1) / 2)) ^ 2 = Zmod.one)%fp.
Proof.
  intros HA. destruct half_exponents as (E1 & E2 & H1 & H2 & H3).
  rewrite <- Zmod.pow_mul_r_nonneg by lia.
  rewrite Z.mul_comm, E2. apply Zmod.fermat_nz; [exact HA | exact p_field_prime].
Qed.

Lemma sqrt_power_cases (A : Fp) :
  let R := (A ^ sqrt_exponent)%fp in
  (R * R = A \/ R * R = - A)%fp.
Proof.
  intros R. unfold R. rewrite sqrt_power_square.
  destruct (Zmod.eqb_spec A Zmod.zero) as [->|HA].
  - left. ring.
  - destruct (proj1 (Zmod.square_roots_1_prime p_field_prime _)
                (euler_power_square A HA)) as [->| ->].
    + left. ring.
    + right. ring.
Qed.

Lemma sqrt_power_of_square (B : Fp) :
  let R := ((B * B) ^ sqrt_exponent)%fp in
  (R * R = B * B)%fp /\ (R = B \/ R = (- B)%fp).
Proof.
  intros R. destruct half_exponents as (E1 & E2 & H1 & H2 & H3).
  assert (HR : (R * R = B * B)%fp).
  { unfold R. rewrite sqrt_power_square.
    destruct (Zmod.eqb_spec B Zmod.zero) as [->|HB].
    - ring.
    - rewrite <- (Zmod.pow_2_r B), <- Zmod.pow_mul_r_nonneg, E2 by lia.
      rewrite Zmod.fermat_nz by (assumption || exact p_field_prime). ring. }
  split; [exact HR|].
  apply (Zmod.square_roots_opp_prime p_field_prime).
  rewrite !Zmod.pow_2_r. exact HR.
Qed.

(** C8.  For every operand within the magnitude-8 bounds [SetSquareRoot]
    returns a magnitude-1 representation [r] of the power [(p+1)/4] of
    [a]; the square of [r] is congruent to [a] or to [-a] modulo the prime;
    and when [a] is congruent to a square [b * b], the square of [r] is
    congruent to [a] and [r] is congruent to [b] or to [-b]. *)
Theorem C8_SetSquareRoot (a : FieldElem) :
  magnitude 8 a ->
  exists r, SetSquareRoot a = Some r /\ magnitude 1 r /\
    eqp (value r) (value a ^ ((p_field + 1) / 4)) /\
    (eqp (value r * value r) (value a) \/ eqp (value r * value r) (- value a)) /\
    (forall b : Z, eqp (value a) (b * b) ->
       eqp (value r * value r) (value a) /\
       (eqp (value r) b \/ eqp (value r) (- b))).
Proof.
  intros Ha. destruct (SetSquareRoot_ok a Ha) as (r & Hr & [Hm Hp] & Ho).
  exists r. split; [exact Hr|]. split; [apply mult_output_magnitude, Ho|].
  destruct half_exponents as (E1 & E2 & H1 & H2 & H3).
  split; [|split].
  - apply eqp_fv. rewrite Hp, <- sqrt_exponent_eq, Zmod.of_Z_pow by lia.
    reflexivity.
  - rewrite <- !of_Z_eq_iff, Zmod.of_Z_mul, Zmod.of_Z_opp. fold (fv r) (fv a).
    rewrite Hp. apply sqrt_power_cases.
  - intros b Hb. apply eqp_fv in Hb. rewrite Zmod.of_Z_mul in Hb.
    rewrite <- !of_Z_eq_iff, Zmod.of_Z_mul, Zmod.of_Z_opp. fold (fv r) (fv a).
    rewrite Hp, Hb. apply sqrt_power_of_square.
Qed.

Lemma C8_SetSquareRoot_witness :
  magnitude 8 (FieldElem_of_int 4) /\
  exists r, SetSquareRoot (FieldElem_of_int 4) = Some r /\ magnitude 1 r /\
    (eqp (value r * value r) 4 \/ eqp (value r * value r) (- 4)).
Proof.
  assert (H4 : magnitude 8 (FieldElem_of_int 4))
    by (unfold magnitude, limbs_le; cbn; lia).
  split; [exact H4|].
  destruct (C8_SetSquareRoot (FieldElem_of_int 4) H4) as (r & Hr & Hm & _ & Hs & _).
  exists r. split; [exact Hr|]. split; [exact Hm|]. exact Hs.
Defined.

(** ** Linear operations on residues *)

Lemma SetNeg_fv (a : FieldElem) (m b0 b1 b2 b3 b4 : Z) :
  0 <= m <= 1023 ->
  limbs_le a b0 b1 b2 b3 b4 ->
  b0 <= (m + 1) * L0 -> b1 <= (m + 1) * L1 -> b2 <= (m + 1) * L1 ->
  b3 <= (m + 1) * L1 -> b4 <= (m + 1) * L4 ->
  limbs_le (SetNeg a m) ((m + 1) * L0) ((m + 1) * L1) ((m + 1) * L1)
           ((m + 1) * L1) ((m + 1) * L4) /\
  fv (SetNeg a m) = (- fv a)%fp.
Proof.
  intros Hm Ha B0 B1 B2 B3 B4.
  destruct (SetNeg_ok a m b0 b1 b2 b3 b4 Hm Ha B0 B1 B2 B3 B4) as [Hl Hv].
  split; [exact Hl|]. unfold fv. rewrite Hv, Zmod.of_Z_sub, of_Z_mul_p. ring.
Qed.

Lemma mul_int_fv (a : FieldElem) (v b0 b1 b2 b3 b4 : Z) :
  0 <= v < 2^64 ->
  limbs_le a b0 b1 b2 b3 b4 ->
  b0 * v < 2^64 -> b1 * v < 2^64 -> b2 * v < 2^64 -> b3 * v < 2^64 ->
  b4 * v < 2^64 ->
  limbs_le (mul_int a v) (b0 * v) (b1 * v) (b2 * v) (b3 * v) (b4 * v) /\
  fv (mul_int a v) = (Zmod.of_Z p_field v * fv a)%fp.
Proof.
  intros Hv Ha B0 B1 B2 B3 B4.
  destruct (mul_int_ok a v b0 b1 b2 b3 b4 Hv Ha B0 B1 B2 B3 B4) as [Hl E].
  split; [exact Hl|]. unfold fv. rewrite E, Zmod.of_Z_mul. reflexivity.
Qed.

Lemma add_assign_fv (r a : FieldElem) (b0 b1 b2 b3 b4 c0 c1 c2 c3 c4 : Z) :
  limbs_le r b0 b1 b2 b3 b4 -> limbs_le a c0 c1 c2 c3 c4 ->
  b0 + c0 < 2^64 -> b1 + c1 < 2^64 -> b2 + c2 < 2^64 -> b3 + c3 < 2^64 ->
  b4 + c4 < 2^64 ->
  limbs_le (add_assign r a) (b0 + c0) (b1 + c1) (b2 + c2) (b3 + c3) (b4 + c4) /\
  fv (add_assign r a) = (fv r + fv a)%fp.
Proof.
  intros Hr Ha B0 B1 B2 B3 B4.
  destruct (add_assign_ok r a _ _ _ _ _ _ _ _ _ _ Hr Ha B0 B1 B2 B3 B4) as [Hl E].
  split; [exact Hl|]. unfold fv. rewrite E, Zmod.of_Z_add. reflexivity.
Qed.

Lemma limbs_le_magnitude8 (a : FieldElem) (b0 b1 b2 b3 b4 : Z) :
  limbs_le a b0 b1 b2 b3 b4 ->
  b0 <= 8 * (2^53 - 1) -> b1 <= 8 * (2^53 - 1) -> b2 <= 8 * (2^53 - 1) ->
  b3 <= 8 * (2^53 - 1) -> b4 <= 8 * (2^49 - 1) ->
  magnitude 8 a.
Proof. unfold magnitude, limbs_le. lia. Qed.

Lemma canonical_fv_eq (a b : FieldElem) :
  canonical a -> canonical b -> fv a = fv b -> a = b.
Proof.
  intros Ha Hb E. apply canonical_unique; trivial. apply fv_eq_iff. exact E.
Qed.

(** [operator==] on kernel outputs decides equality of residues. *)
Lemma eq_op_mult_output (a b : FieldElem) :
  mult_output a -> mult_output b ->
  exists e a' b', eq_op a b = (e, a', b') /\
    canonical a' /\ fv a' = fv a /\ canonical b' /\ fv b' = fv b /\
    (e = true <-> fv a = fv b).
Proof.
  intros Ha Hb.
  destruct (eq_op_ok a b (mult_output_magnitude8 a Ha) (mult_output_folded a Ha)
              (mult_output_magnitude8 b Hb) (mult_output_folded b Hb))
    as (e & a' & b' & E & Ca & Va & Cb & Vb & He).
  exists e, a', b'. rewrite !fv_eq_iff. auto 10.
Qed.

(** ** Runs *)

Lemma runs_bind {A B : Type} (m : M A) (k : A -> M B) (h : Store)
  (Q : B -> Store -> Prop) :
  runs m h (fun x h' => runs (k x) h' Q) -> runs (mbind m k) h Q.
Proof.
  intros (x & h' & E & y & h'' & E' & HQ).
  exists y, h''. unfold mbind. rewrite E. auto.
Qed.

Lemma runs_ret {A : Type} (x : A) (h : Store) (Q : A -> Store -> Prop) :
  Q x h -> runs (mret x) h Q.
Proof. intros H. exists x, h. auto. Qed.

Lemma runs_lift {A : Type} (o : option A) (x : A) (h : Store)
  (Q : A -> Store -> Prop) :
  o = Some x -> Q x h -> runs (lift o) h Q.
Proof. intros -> H. exists x, h. auto. Qed.

Lemma runs_load (a : addr) (h : Store) (Q : GroupElemJac -> Store -> Prop) :
  Q (h a) h -> runs (load a) h Q.
Proof. intros H. exists (h a), h. auto. Qed.

Lemma runs_assign (a : addr) (o : GroupElemJac) (h : Store)
  (Q : unit -> Store -> Prop) :
  Q tt (store h a o) -> runs (assign a o) h Q.
Proof. intros H. exists tt, (store h a o). auto. Qed.

Lemma runs_load_inf (a : addr) (h : Store) (Q : bool -> Store -> Prop) :
  Q (fInfinity (h a)) h -> runs (load_inf a) h Q.
Proof. intros H. exists (fInfinity (h a)), h. auto. Qed.

Lemma runs_load_x (a : addr) (h : Store) (Q : FieldElem -> Store -> Prop) :
  Q (gx (h a)) h -> runs (load_x a) h Q.
Proof. intros H. exists (gx (h a)), h. auto. Qed.

Lemma runs_load_y (a : addr) (h : Store) (Q : FieldElem -> Store -> Prop) :
  Q (gy (h a)) h -> runs (load_y a) h Q.
Proof. intros H. exists (gy (h a)), h. auto. Qed.

Lemma runs_load_z (a : addr) (h : Store) (Q : FieldElem -> Store -> Prop) :
  Q (gz (h a)) h -> runs (load_z a) h Q.
Proof. intros H. exists (gz (h a)), h. auto. Qed.

Lemma store_same (h : Store) (a : addr) (o : GroupElemJac) : store h a o a = o.
Proof. unfold store. rewrite Nat.eqb_refl. reflexivity. Qed.

Lemma store_other (h : Store) (a b : addr) (o : GroupElemJac) :
  b <> a -> store h a o b = h b.
Proof. intros H. unfold store. apply Nat.eqb_neq in H. rewrite H. reflexivity. Qed.

(** The stores of a field of the receiver, when the receiver is known. *)
Lemma runs_store_inf (a : addr) (v : bool) (h : Store) (o : GroupElemJac)
  (Q : unit -> Store -> Prop) :
  h a = o ->
  (forall h', h' a = mkGroupElemJac v (gx o) (gy o) (gz o) ->
              (forall b, b <> a -> h' b = h b) -> Q tt h') ->
  runs (store_inf a v) h Q.
Proof.
  intros E H. eexists tt, _. split; [reflexivity|]. rewrite E.
  apply H; [apply store_same | intros; apply store_other; assumption].
Qed.

Lemma runs_store_x (a : addr) (v : FieldElem) (h : Store) (o : GroupElemJac)
  (Q : unit -> Store -> Prop) :
  h a = o ->
  (forall h', h' a = mkGroupElemJac (fInfinity o) v (gy o) (gz o) ->
              (forall b, b <> a -> h' b = h b) -> Q tt h') ->
  runs (store_x a v) h Q.
Proof.
  intros E H. eexists tt, _. split; [reflexivity|]. rewrite E.
  apply H; [apply store_same | intros; apply store_other; assumption].
Qed.

Lemma runs_store_y (a : addr) (v : FieldElem) (h : Store) (o : GroupElemJac)
  (Q : unit -> Store -> Prop) :
  h a = o ->
  (forall h', h' a = mkGroupElemJac (fInfinity o) (gx o) v (gz o) ->
              (forall b, b <> a -> h' b = h b) -> Q tt h') ->
  runs (store_y a v) h Q.
Proof.
  intros E H. eexists tt, _. split; [reflexivity|]. rewrite E.
  apply H; [apply store_same | intros; apply store_other; assumption].
Qed.

Lemma runs_store_z (a : addr) (v : FieldElem) (h : Store) (o : GroupElemJac)
  (Q : unit -> Store -> Prop) :
  h a = o ->
  (forall h', h' a = mkGroupElemJac (fInfinity o) (gx o) (gy o) v ->
              (forall b, b <> a -> h' b = h b) -> Q tt h') ->
  runs (store_z a v) h Q.
Proof.
  intros E H. eexists tt, _. split; [reflexivity|]. rewrite E.
  apply H; [apply store_same | intros; apply store_other; assumption].
Qed.

Lemma runs_elim {A : Type} (m : M A) (h : Store) (Q : A -> Store -> Prop) :
  runs m h Q -> exists x h', m h = Some (x, h') /\ Q x h'.
Proof. exact (fun H => H). Qed.

(** ** SetAdd, Jacobian + Jacobian *)

Ltac bnd := unfold L0, L1, L4; lia.

(** Steps of a run. *)
Ltac ld := apply runs_bind;
  first [ apply runs_load_x | apply runs_load_y | apply runs_load_z
        | apply runs_load_inf | apply runs_load ];
  cbv beta.

Ltac lf E := apply runs_bind; eapply runs_lift; [exact E|]; cbv beta.

Tactic Notation "st_with" constr(lem) ident(H) ident(hn) :=
  eapply lem; [exact H|];
  clear H; intros hn H _;
  cbn [fInfinity gx gy gz] in H.

Tactic Notation "st_last" ident(H) ident(hn) :=
  first [ st_with runs_store_x H hn | st_with runs_store_y H hn
        | st_with runs_store_z H hn | st_with runs_store_inf H hn ].

Tactic Notation "st" ident(H) ident(hn) :=
  apply runs_bind; st_last H hn; cbv beta.

Ltac ld_this Hthis := ld; rewrite Hthis; cbn [fInfinity gx gy gz].

(** What the straight-line part of both [SetAdd]s computes from the
    normalised [u1], [u2], the kernel outputs [s1], [s2] and the factor
    [zz] of the new [z]. *)
Lemma mult_output_limbs (a : FieldElem) :
  mult_output a ->
  limbs_le a (2^52 - 1) (2^52 + 2^34) (2^52 - 1) (2^52 - 1) (2^48 - 1).
Proof. exact (fun H => H). Qed.

Lemma canonical_limbs (a : FieldElem) :
  canonical a ->
  limbs_le a (2^52 - 1) (2^52 - 1) (2^52 - 1) (2^52 - 1) (2^48 - 1).
Proof. intros [H _]. exact H. Qed.

Lemma sub_fields (u1 u2 : FieldElem) :
  mult_output u1 -> mult_output u2 ->
  let h := add_assign (SetNeg u1 1) u2 in
  magnitude 8 h /\ fv h = (fv u2 - fv u1)%fp.
Proof.
  intros H1 H2 h.
  destruct (SetNeg_fv u1 1 _ _ _ _ _ ltac:(lia) (mult_output_limbs _ H1))
    as [Bn Vn]; try bnd.
  destruct (add_assign_fv _ u2 _ _ _ _ _ _ _ _ _ _ Bn (mult_output_limbs _ H2))
    as [Bh Vh]; try bnd.
  split.
  - eapply limbs_le_magnitude8; [exact Bh|..]; bnd.
  - unfold h. rewrite Vh, Vn. ring.
Qed.

Lemma add_finish_ok (this : addr) (u1 s1 h r r2 h2 h3 : FieldElem)
  (hs : Store) (o : GroupElemJac) :
  hs this = o -> magnitude 8 (gz o) ->
  magnitude 8 u1 -> magnitude 8 s1 -> magnitude 8 h -> magnitude 8 r ->
  mult_output r2 -> magnitude 8 h2 -> mult_output h3 ->
  runs (add_finish this u1 s1 h r r2 h2 h3) hs (fun _ h' =>
    exists X Y Z, h' this = mkGroupElemJac (fInfinity o) X Y Z /\
      let T := (fv u1 * fv h2)%fp in
      fv X = (fv r2 - fv h3 - two * T)%fp /\
      fv Y = (fv r * (T - fv X) - fv s1 * fv h3)%fp /\
      fv Z = (fv (gz o) * fv h)%fp /\
      magnitude 5 X /\ magnitude 3 Y /\ magnitude 1 Z).
Proof.
  intros Hthis Mz Mu1 Ms1 Mh Mr Or2 Mh2 Oh3. unfold add_finish.
  destruct (SetMult_fv (gz o) h Mz Mh) as (z3 & Ez3 & Vz3 & Oz3).
  destruct (SetMult_fv u1 h2 Mu1 Mh2) as (t & Et & Vt & Ot).
  ld_this Hthis. lf Ez3. st Hthis ha.
  lf Et. st Hthis hb.
  (* x = 2 t *)
  destruct (mul_int_fv t 2 _ _ _ _ _ ltac:(lia) (mult_output_limbs _ Ot))
    as [Bx1 Vx1]; try bnd.
  ld_this Hthis. st Hthis hc.
  (* x += h3 *)
  destruct (add_assign_fv _ h3 _ _ _ _ _ _ _ _ _ _ Bx1 (mult_output_limbs _ Oh3))
    as [Bx2 Vx2]; try bnd.
  ld_this Hthis. st Hthis hd.
  (* x = -x *)
  destruct (SetNeg_fv _ 3 _ _ _ _ _ ltac:(lia) Bx2) as [Bx3 Vx3]; try bnd.
  ld_this Hthis. st Hthis he.
  (* x += r2 *)
  destruct (add_assign_fv _ r2 _ _ _ _ _ _ _ _ _ _ Bx3 (mult_output_limbs _ Or2))
    as [Bx4 Vx4]; try bnd.
  ld_this Hthis. st Hthis hf.
  (* y = -x *)
  destruct (SetNeg_fv _ 5 _ _ _ _ _ ltac:(lia) Bx4) as [By1 Vy1]; try bnd.
  ld_this Hthis. st Hthis hg.
  (* y += t *)
  destruct (add_assign_fv _ t _ _ _ _ _ _ _ _ _ _ By1 (mult_output_limbs _ Ot))
    as [By2 Vy2]; try bnd.
  ld_this Hthis. st Hthis hh.
  (* y = y * r *)
  assert (My2 : magnitude 8 (add_assign (SetNeg (add_assign (SetNeg
            (add_assign (mul_int t 2) h3) 3) r2) 5) t)).
  { eapply limbs_le_magnitude8; [exact By2|..]; bnd. }
  destruct (SetMult_fv _ r My2 Mr) as (y3 & Ey3 & Vy3 & Oy3).
  ld_this Hthis. lf Ey3. st Hthis hi.
  (* h3 = -(h3 * s1) *)
  destruct (SetMult_fv h3 s1 (mult_output_magnitude8 _ Oh3) Ms1)
    as (h3s & Eh3s & Vh3s & Oh3s).
  lf Eh3s. cbv zeta.
  destruct (SetNeg_fv h3s 1 _ _ _ _ _ ltac:(lia) (mult_output_limbs _ Oh3s))
    as [Bn Vn]; try bnd.
  (* y += h3 *)
  destruct (add_assign_fv y3 _ _ _ _ _ _ _ _ _ _ _ (mult_output_limbs _ Oy3) Bn)
    as [By4 Vy4]; try bnd.
  ld_this Hthis. st_last Hthis hj.
  eexists _, _, _. split; [exact Hthis|]. cbv zeta.
  assert (VX : fv (add_assign (SetNeg (add_assign (mul_int t 2) h3) 3) r2) =
               (fv r2 - fv h3 - two * (fv u1 * fv h2))%fp).
  { rewrite Vx4, Vx3, Vx2, Vx1, Vt. unfold two. ring. }
  split; [exact VX|]. split.
  { rewrite Vy4, Vn, Vh3s, Vy3, Vy2, Vy1, Vt, VX. unfold two. ring. }
  split; [exact Vz3|].
  split; [|split].
  - unfold magnitude. unfold limbs_le in *. unfold L0, L1, L4 in *. lia.
  - unfold magnitude. unfold limbs_le in *. unfold L0, L1, L4 in *. lia.
  - apply mult_output_magnitude, Oz3.
Qed.

Lemma runs_conseq {A : Type} (m : M A) (h : Store) (Q Q' : A -> Store -> Prop) :
  runs m h Q -> (forall x h', Q x h' -> Q' x h') -> runs m h Q'.
Proof. intros (x & h' & E & HQ) H. exists x, h'. auto. Qed.

Lemma runs_eq {A : Type} (m m' : M A) (h h' : Store) (Q : A -> Store -> Prop) :
  m h = m' h' -> runs m' h' Q -> runs m h Q.
Proof. unfold runs. intros ->. exact (fun H => H). Qed.

(** Equations of a run. *)
Lemma mbind_load_inf {B : Type} (a : addr) (k : bool -> M B) (h : Store) :
  mbind (load_inf a) k h = k (fInfinity (h a)) h.
Proof. reflexivity. Qed.

Lemma mbind_load {B : Type} (a : addr) (k : GroupElemJac -> M B) (h : Store) :
  mbind (load a) k h = k (h a) h.
Proof. reflexivity. Qed.

Lemma mbind_load_x {B : Type} (a : addr) (k : FieldElem -> M B) (h : Store) :
  mbind (load_x a) k h = k (gx (h a)) h.
Proof. reflexivity. Qed.

Lemma mbind_load_y {B : Type} (a : addr) (k : FieldElem -> M B) (h : Store) :
  mbind (load_y a) k h = k (gy (h a)) h.
Proof. reflexivity. Qed.

Lemma mbind_load_z {B : Type} (a : addr) (k : FieldElem -> M B) (h : Store) :
  mbind (load_z a) k h = k (gz (h a)) h.
Proof. reflexivity. Qed.

Lemma mbind_lift {A B : Type} (o : option A) (x : A) (k : A -> M B) (h : Store) :
  o = Some x -> mbind (lift o) k h = k x h.
Proof. intros ->. reflexivity. Qed.

Lemma mbind_store_inf {B : Type} (a : addr) (v : bool) (k : unit -> M B)
  (h : Store) :
  mbind (store_inf a v) k h = k tt (store h a (with_inf (h a) v)).
Proof. reflexivity. Qed.

(** A store of the flag leaves every coordinate of every object as it
    was. *)
Lemma with_inf_coords (h : Store) (a b : addr) (v : bool) :
  gx (store h a (with_inf (h a) v) b) = gx (h b) /\
  gy (store h a (with_inf (h a) v) b) = gy (h b) /\
  gz (store h a (with_inf (h a) v) b) = gz (h b).
Proof.
  unfold store. destruct (Nat.eqb_spec b a) as [->|]; auto.
Qed.

Lemma SetAdd_prefix (this p q : addr) (h : Store) :
  fInfinity (h p) = false -> fInfinity (h q) = false ->
  coords8 (h p) -> coords8 (h q) ->
  exists u1 u2 s1 s2,
    mult_output u1 /\ fv u1 = jU1 (h p) (h q) /\
    mult_output u2 /\ fv u2 = jU2 (h p) (h q) /\
    mult_output s1 /\ fv s1 = jS1 (h p) (h q) /\
    mult_output s2 /\ fv s2 = jS2 (h p) (h q) /\
    SetAdd this p q h =
    SetAdd_rest this p q u1 u2 s1 s2 (store h this (with_inf (h this) false)).
Proof.
  intros Hp Hq (Px & Py & Pz) (Qx & Qy & Qz).
  destruct (SetSquare_fv _ Qz) as (z22 & Ez22 & Vz22 & Oz22).
  destruct (SetSquare_fv _ Pz) as (z12 & Ez12 & Vz12 & Oz12).
  pose proof (mult_output_magnitude8 _ Oz22) as Mz22.
  pose proof (mult_output_magnitude8 _ Oz12) as Mz12.
  destruct (SetMult_fv _ _ Px Mz22) as (u1 & Eu1 & Vu1 & Ou1).
  destruct (SetMult_fv _ _ Qx Mz12) as (u2 & Eu2 & Vu2 & Ou2).
  destruct (SetMult_fv _ _ Py Mz22) as (s1a & Es1a & Vs1a & Os1a).
  destruct (SetMult_fv _ _ (mult_output_magnitude8 _ Os1a) Qz)
    as (s1 & Es1 & Vs1 & Os1).
  destruct (SetMult_fv _ _ Qy Mz12) as (s2a & Es2a & Vs2a & Os2a).
  destruct (SetMult_fv _ _ (mult_output_magnitude8 _ Os2a) Pz)
    as (s2 & Es2 & Vs2 & Os2).
  exists u1, u2, s1, s2.
  split; [exact Ou1|]. split; [unfold jU1; rewrite Vu1, Vz22; reflexivity|].
  split; [exact Ou2|]. split; [unfold jU2; rewrite Vu2, Vz12; reflexivity|].
  split; [exact Os1|].
  split; [unfold jS1; rewrite Vs1, Vs1a, Vz22; reflexivity|].
  split; [exact Os2|].
  split; [unfold jS2; rewrite Vs2, Vs2a, Vz12; reflexivity|].
  unfold SetAdd.
  rewrite mbind_load_inf, Hp. cbv beta iota.
  rewrite mbind_load_inf, Hq. cbv beta iota.
  rewrite mbind_store_inf.
  set (h1 := store h this (with_inf (h this) false)).
  assert (C : forall b, gx (h1 b) = gx (h b) /\ gy (h1 b) = gy (h b) /\
                        gz (h1 b) = gz (h b)).
  { intros b. apply with_inf_coords. }
  destruct (C p) as (Cpx & Cpy & Cpz). destruct (C q) as (Cqx & Cqy & Cqz).
  rewrite mbind_load_z, Cqz, (mbind_lift _ _ _ _ Ez22).
  rewrite mbind_load_z, Cpz, (mbind_lift _ _ _ _ Ez12).
  rewrite mbind_load_x, Cpx, (mbind_lift _ _ _ _ Eu1).
  rewrite mbind_load_x, Cqx, (mbind_lift _ _ _ _ Eu2).
  rewrite mbind_load_y, Cpy, (mbind_lift _ _ _ _ Es1a).
  rewrite mbind_load_z, Cqz, (mbind_lift _ _ _ _ Es1).
  rewrite mbind_load_y, Cqy, (mbind_lift _ _ _ _ Es2a).
  rewrite mbind_load_z, Cpz, (mbind_lift _ _ _ _ Es2).
  reflexivity.
Qed.

(** The three outcomes of [SetAdd] on two finite operands. *)
Lemma SetAdd_finite (this p q : addr) (h : Store) :
  fInfinity (h p) = false -> fInfinity (h q) = false ->
  coords8 (h p) -> coords8 (h q) ->
  let u1 := jU1 (h p) (h q) in let u2 := jU2 (h p) (h q) in
  let s1 := jS1 (h p) (h q) in let s2 := jS2 (h p) (h q) in
  let H := (u2 - u1)%fp in let R := (s2 - s1)%fp in
  (u1 = u2 -> s1 = s2 ->
   SetAdd this p q h = SetDouble this p (store h this (with_inf (h this) false))) /\
  (u1 = u2 -> s1 <> s2 ->
   runs (SetAdd this p q) h (fun _ h' => fInfinity (h' this) = true)) /\
  (u1 <> u2 ->
   runs (SetAdd this p q) h (fun _ h' =>
     fInfinity (h' this) = false /\
     fv (gx (h' this)) = (R * R - H * H * H - two * u1 * H * H)%fp /\
     fv (gy (h' this)) =
       (R * (u1 * H * H - fv (gx (h' this))) - s1 * H * H * H)%fp /\
     fv (gz (h' this)) = (fv (gz (h p)) * fv (gz (h q)) * H)%fp /\
     magnitude 5 (gx (h' this)) /\ magnitude 3 (gy (h' this)) /\
     magnitude 1 (gz (h' this)))).
Proof.
  intros Hp Hq Cp Cq.
  destruct (SetAdd_prefix this p q h Hp Hq Cp Cq)
    as (u1 & u2 & s1 & s2 & Ou1 & Vu1 & Ou2 & Vu2 & Os1 & Vs1 & Os2 & Vs2 & E).
  cbv zeta. rewrite <- Vu1, <- Vu2, <- Vs1, <- Vs2.
  set (h1 := store h this (with_inf (h this) false)) in *.
  destruct (eq_op_mult_output u1 u2 Ou1 Ou2)
    as (eu & u1n & u2n & Eeu & Cu1 & Vu1n & Cu2 & Vu2n & Heu).
  destruct (eq_op_mult_output s1 s2 Os1 Os2)
    as (es & s1n & s2n & Ees & Cs1 & Vs1n & Cs2 & Vs2n & Hes).
  assert (Hthis : h1 this = with_inf (h this) false) by apply store_same.
  split; [|split].
  - intros EU ES. rewrite E. unfold SetAdd_rest. rewrite Eeu, Ees.
    apply Heu in EU. apply Hes in ES. subst eu es. reflexivity.
  - intros EU ES. apply (runs_eq _ _ _ _ _ E). unfold SetAdd_rest.
    rewrite Eeu, Ees. apply Heu in EU. subst eu.
    destruct es; [exfalso; apply ES, Hes; reflexivity|].
    st_last Hthis h2. rewrite Hthis. reflexivity.
  - intros EU. apply (runs_eq _ _ _ _ _ E). unfold SetAdd_rest.
    rewrite Eeu. destruct eu; [exfalso; apply EU, Heu; reflexivity|].
    cbv zeta.
    destruct (sub_fields u1n u2n (canonical_mult_output _ Cu1)
                (canonical_mult_output _ Cu2)) as [Mh Vh].
    destruct (sub_fields s1 s2 Os1 Os2) as [Mr Vr].
    destruct (SetSquare_fv _ Mr) as (r2 & Er2 & Vr2 & Or2).
    destruct (SetSquare_fv _ Mh) as (h2 & Eh2 & Vh2 & Oh2).
    destruct (SetMult_fv _ _ Mh (mult_output_magnitude8 _ Oh2))
      as (h3 & Eh3 & Vh3 & Oh3).
    destruct Cp as (_ & _ & Pz). destruct Cq as (_ & _ & Qz).
    destruct (SetMult_fv _ _ Pz Qz) as (zz & Ezz & Vzz & Ozz).
    lf Er2. lf Eh2. lf Eh3.
    destruct (with_inf_coords h this p false) as (_ & _ & Cpz).
    destruct (with_inf_coords h this q false) as (_ & _ & Cqz).
    fold h1 in Cpz, Cqz.
    ld. rewrite Cpz. ld. rewrite Cqz. lf Ezz.
    unfold with_inf in Hthis. st Hthis h2'.
    eapply runs_conseq.
    + eapply (add_finish_ok this u1n s1); try eassumption.
      * cbn [gz]. apply mult_output_magnitude8, Ozz.
      * apply mult_output_magnitude8, canonical_mult_output, Cu1.
      * apply mult_output_magnitude8, Os1.
      * apply mult_output_magnitude8, Oh2.
    + cbv beta. intros _ h' (X & Y & Z & Hh' & VX & VY & VZ & MX & MY & MZ).
      rewrite Hh'. cbn [fInfinity gx gy gz] in *.
      split; [reflexivity|].
      assert (EX : fv X = ((fv s2 - fv s1) * (fv s2 - fv s1)
                   - (fv u2 - fv u1) * (fv u2 - fv u1) * (fv u2 - fv u1)
                   - two * fv u1 * (fv u2 - fv u1) * (fv u2 - fv u1))%fp).
      { rewrite VX, Vr2, Vh3, Vh2, Vr, Vh, Vu1n, Vu2n. unfold two. ring. }
      split; [exact EX|]. split.
      { rewrite VY, Vr, Vh3, Vh2, Vh, Vu1n, Vu2n. ring. }
      split; [|auto].
      rewrite VZ, Vzz, Vh, Vu1n, Vu2n. ring.
Qed.

(** ** SetAdd, Jacobian + affine *)

Lemma SetAdd_affine_prefix (this p : addr) (q : GroupElem) (h : Store) :
  fInfinity (h p) = false -> a_fInfinity q = false ->
  coords8 (h p) -> magnitude 8 (a_x q) -> magnitude 8 (a_y q) ->
  exists u2 s2,
    mult_output u2 /\ fv u2 = aU2 (h p) q /\
    mult_output s2 /\ fv s2 = aS2 (h p) q /\
    SetAdd_affine this p q h =
    SetAdd_affine_rest this p (Normalize (gx (h p))) u2 (Normalize (gy (h p))) s2
      (store h this (with_inf (h this) false)).
Proof.
  intros Hp Hq (Px & Py & Pz) Qx Qy.
  destruct (SetSquare_fv _ Pz) as (z12 & Ez12 & Vz12 & Oz12).
  pose proof (mult_output_magnitude8 _ Oz12) as Mz12.
  destruct (SetMult_fv _ _ Qx Mz12) as (u2 & Eu2 & Vu2 & Ou2).
  destruct (SetMult_fv _ _ Qy Mz12) as (s2a & Es2a & Vs2a & Os2a).
  destruct (SetMult_fv _ _ (mult_output_magnitude8 _ Os2a) Pz)
    as (s2 & Es2 & Vs2 & Os2).
  exists u2, s2.
  split; [exact Ou2|]. split; [unfold aU2; rewrite Vu2, Vz12; reflexivity|].
  split; [exact Os2|].
  split; [unfold aS2; rewrite Vs2, Vs2a, Vz12; reflexivity|].
  unfold SetAdd_affine.
  rewrite mbind_load_inf, Hp. cbv beta iota. rewrite Hq. cbv beta iota.
  rewrite mbind_store_inf.
  set (h1 := store h this (with_inf (h this) false)).
  destruct (with_inf_coords h this p false) as (Cpx & Cpy & Cpz).
  fold h1 in Cpx, Cpy, Cpz.
  rewrite mbind_load_z, Cpz, (mbind_lift _ _ _ _ Ez12).
  rewrite mbind_load_x, Cpx. generalize (Normalize (gx (h p))) as u1. intros u1.
  cbv zeta. rewrite (mbind_lift _ _ _ _ Eu2).
  rewrite mbind_load_y, Cpy. generalize (Normalize (gy (h p))) as s1. intros s1.
  cbv zeta. rewrite (mbind_lift _ _ _ _ Es2a).
  rewrite mbind_load_z, Cpz, (mbind_lift _ _ _ _ Es2).
  reflexivity.
Qed.

(** The outcomes of [SetAdd] with an affine second operand.  The [x] and
    [y] of [p] go through [Normalize], which is right on them when their
    folded values fit 256 bits. *)
Lemma SetAdd_affine_outcomes (this p : addr) (q : GroupElem) (h : Store) :
  let P := h p in
  (fInfinity P = true ->
   runs (SetAdd_affine this p q) h (fun _ h' =>
     h' this = mkGroupElemJac (a_fInfinity q) (a_x q) (a_y q) (FieldElem_of_int 1))) /\
  (fInfinity P = false -> a_fInfinity q = true ->
   runs (SetAdd_affine this p q) h (fun _ h' => h' this = P)) /\
  (fInfinity P = false -> a_fInfinity q = false ->
   coords8 P -> magnitude 8 (a_x q) -> magnitude 8 (a_y q) ->
   folded (gx P) < 2^256 -> folded (gy P) < 2^256 ->
   let U1 := fv (gx P) in let U2 := aU2 P q in
   let S1 := fv (gy P) in let S2 := aS2 P q in
   let H := (U2 - U1)%fp in let R := (S2 - S1)%fp in
   (U1 = U2 -> S1 = S2 ->
    SetAdd_affine this p q h =
    SetDouble this p (store h this (with_inf (h this) false))) /\
   (U1 = U2 -> S1 <> S2 ->
    runs (SetAdd_affine this p q) h (fun _ h' => fInfinity (h' this) = true)) /\
   (U1 <> U2 ->
    runs (SetAdd_affine this p q) h (fun _ h' =>
      fInfinity (h' this) = false /\
      fv (gx (h' this)) = (R * R - H * H * H - two * U1 * H * H)%fp /\
      fv (gy (h' this)) =
        (R * (U1 * H * H - fv (gx (h' this))) - S1 * H * H * H)%fp /\
      fv (gz (h' this)) = (fv (gz P) * H)%fp))).
Proof.
  cbv zeta. split; [|split].
  - intros Hp. unfold SetAdd_affine.
    apply runs_bind, runs_load_inf. rewrite Hp. cbv beta iota.
    assert (Hthis : h this = h this) by reflexivity.
    st Hthis h1. st Hthis h2. st Hthis h3. st_last Hthis h4. exact Hthis.
  - intros Hp Hq. unfold SetAdd_affine. eexists tt, _. split.
    + rewrite mbind_load_inf, Hp. cbv beta iota. rewrite Hq.
      rewrite mbind_load. reflexivity.
    + apply store_same.
  - intros Hp Hq Cp Qx Qy Fx Fy.
    destruct (SetAdd_affine_prefix this p q h Hp Hq Cp Qx Qy)
      as (u2 & s2 & Ou2 & Vu2 & Os2 & Vs2 & E).
    rewrite <- Vu2, <- Vs2.
    destruct Cp as (Px & Py & Pz).
    destruct (Normalize_ok _ Px Fx) as [Cu1 Vu1]. apply fv_eq_iff in Vu1.
    destruct (Normalize_ok _ Py Fy) as [Cs1 Vs1]. apply fv_eq_iff in Vs1.
    rewrite <- Vu1, <- Vs1.
    set (u1 := Normalize (gx (h p))) in *.
    set (s1 := Normalize (gy (h p))) in *.
    pose proof (canonical_mult_output _ Cu1) as Ou1.
    pose proof (canonical_mult_output _ Cs1) as Os1.
    set (h1 := store h this (with_inf (h this) false)) in *.
    destruct (eq_op_mult_output u1 u2 Ou1 Ou2)
      as (eu & u1n & u2n & Eeu & Cu1n & Vu1n & Cu2n & Vu2n & Heu).
    destruct (eq_op_mult_output s1 s2 Os1 Os2)
      as (es & s1n & s2n & Ees & Cs1n & Vs1n & Cs2n & Vs2n & Hes).
    assert (Hthis : h1 this = with_inf (h this) false) by apply store_same.
    split; [|split].
    + intros EU ES. rewrite E. unfold SetAdd_affine_rest. rewrite Eeu, Ees.
      apply Heu in EU. apply Hes in ES. subst eu es. reflexivity.
    + intros EU ES. apply (runs_eq _ _ _ _ _ E). unfold SetAdd_affine_rest.
      rewrite Eeu, Ees. apply Heu in EU. subst eu.
      destruct es; [exfalso; apply ES, Hes; reflexivity|].
      st_last Hthis h2. rewrite Hthis. reflexivity.
    + intros EU. apply (runs_eq _ _ _ _ _ E). unfold SetAdd_affine_rest.
      rewrite Eeu. destruct eu; [exfalso; apply EU, Heu; reflexivity|].
      cbv zeta.
      destruct (sub_fields u1n u2n (canonical_mult_output _ Cu1n)
                  (canonical_mult_output _ Cu2n)) as [Mh Vh].
      destruct (sub_fields s1 s2 Os1 Os2) as [Mr Vr].
      destruct (SetSquare_fv _ Mr) as (r2 & Er2 & Vr2 & Or2).
      destruct (SetSquare_fv _ Mh) as (h2 & Eh2 & Vh2 & Oh2).
      destruct (SetMult_fv _ _ Mh (mult_output_magnitude8 _ Oh2))
        as (h3 & Eh3 & Vh3 & Oh3).
      lf Er2. lf Eh2. lf Eh3.
      destruct (with_inf_coords h this p false) as (_ & _ & Cpz).
      fold h1 in Cpz.
      ld. rewrite Cpz.
      unfold with_inf in Hthis. st Hthis h2'.
      eapply runs_conseq.
      * eapply (add_finish_ok this u1n s1); try eassumption.
        -- apply mult_output_magnitude8, canonical_mult_output, Cu1n.
        -- apply mult_output_magnitude8, Os1.
        -- apply mult_output_magnitude8, Oh2.
      * cbv beta. intros _ h' (X & Y & Z & Hh' & VX & VY & VZ & MX & MY & MZ).
        rewrite Hh'. cbn [fInfinity gx gy gz] in *.
        split; [reflexivity|].
        assert (EX : fv X = ((fv s2 - fv s1) * (fv s2 - fv s1)
                     - (fv u2 - fv u1) * (fv u2 - fv u1) * (fv u2 - fv u1)
                     - two * fv u1 * (fv u2 - fv u1) * (fv u2 - fv u1))%fp).
        { rewrite VX, Vr2, Vh3, Vh2, Vr, Vh, Vu1n, Vu2n. unfold two. ring. }
        split; [exact EX|]. split.
        { rewrite VY, Vr, Vh3, Vh2, Vh, Vu1n, Vu2n. ring. }
        rewrite VZ, Vh, Vu1n, Vu2n. ring.
Qed.


(** ** SetAdd: the outcomes *)

(** The outcomes of [SetAdd] on Jacobian points [p] and [q], the receiver
    being any object of the store, [p] and [q] included. *)
Lemma SetAdd_outcomes (this p q : addr) (h : Store) :
  let P := h p in let Q := h q in
  (fInfinity P = true -> runs (SetAdd this p q) h (fun _ h' => h' this = Q)) /\
  (fInfinity P = false -> fInfinity Q = true ->
   runs (SetAdd this p q) h (fun _ h' => h' this = P)) /\
  (fInfinity P = false -> fInfinity Q = false -> coords8 P -> coords8 Q ->
   let U1 := jU1 P Q in let U2 := jU2 P Q in
   let S1 := jS1 P Q in let S2 := jS2 P Q in
   let H := (U2 - U1)%fp in let R := (S2 - S1)%fp in
   (U1 = U2 -> S1 = S2 ->
    SetAdd this p q h =
    SetDouble this p (store h this (with_inf (h this) false))) /\
   (U1 = U2 -> S1 <> S2 ->
    runs (SetAdd this p q) h (fun _ h' => fInfinity (h' this) = true)) /\
   (U1 <> U2 ->
    runs (SetAdd this p q) h (fun _ h' =>
      fInfinity (h' this) = false /\
      fv (gx (h' this)) = (R * R - H * H * H - two * U1 * H * H)%fp /\
      fv (gy (h' this)) =
        (R * (U1 * H * H - fv (gx (h' this))) - S1 * H * H * H)%fp /\
      fv (gz (h' this)) = (fv (gz P) * fv (gz Q) * H)%fp))).
Proof.
  cbv zeta. split; [|split].
  - intros Hp. unfold SetAdd. eexists tt, _. split.
    + rewrite mbind_load_inf, Hp. cbv beta iota. rewrite mbind_load. reflexivity.
    + apply store_same.
  - intros Hp Hq. unfold SetAdd. eexists tt, _. split.
    + rewrite mbind_load_inf, Hp. cbv beta iota.
      rewrite mbind_load_inf, Hq. cbv beta iota. rewrite mbind_load. reflexivity.
    + apply store_same.
  - intros Hp Hq Cp Cq.
    destruct (SetAdd_finite this p q h Hp Hq Cp Cq) as (A & B & C).
    split; [exact A|]. split; [exact B|].
    intros HU. eapply runs_conseq; [exact (C HU)|].
    cbv beta. intros _ h'. tauto.
Qed.
(** ** SetDouble: the formulas *)

Lemma SetDouble_unfold (this p : addr) (h : Store) :
  SetDouble this p h =
  if fInfinity (h p) then Some (tt, store h this (with_inf (h this) true))
  else
    let h1 := store h this (tested (h this)) in
    if fst (IsZero (gy (h this)))
    then Some (tt, store h1 this (with_inf (h1 this) true))
    else SetDouble_formula this p h1.
Proof.
  unfold SetDouble. rewrite mbind_load_inf.
  destruct (fInfinity (h p)); [reflexivity|].
  cbv zeta. unfold tested.
  unfold mbind at 1 2 3. unfold load_y at 1. unfold mbind at 1. unfold load at 1.
  cbv beta iota. cbn [mret].
  destruct (IsZero (gy (h this))) as [b y'] eqn:EZ. cbn [fst snd].
  destruct b; reflexivity.
Qed.

(** The field computations of the doubling formulas on coordinates within
    the magnitude-8 bounds. *)
Lemma double_fields (x y z : FieldElem) :
  magnitude 8 x -> magnitude 8 y -> magnitude 8 z ->
  exists zz t1 t2 t3 t4 t3' yy,
    SetMult y z = Some zz /\ SetSquare x = Some t1 /\
    SetSquare (mul_int t1 3) = Some t2 /\ SetSquare y = Some t3 /\
    SetSquare (mul_int t3 2) = Some t4 /\
    SetMult x (mul_int t3 2) = Some t3' /\
    SetMult (mul_int t1 3) (add_assign (mul_int t3' 6) (SetNeg t2 1)) = Some yy /\
    let X := add_assign (SetNeg (mul_int t3' 4) 4) t2 in
    let Y := add_assign yy (SetNeg (mul_int t4 2) 2) in
    let Z := mul_int zz 2 in
    fv Z = (fc 2 * fv y * fv z)%fp /\
    fv X = (fc 9 * (fv x * fv x * fv x * fv x) - fc 8 * fv x * (fv y * fv y))%fp /\
    fv Y = (fc 36 * (fv x * fv x * fv x) * (fv y * fv y)
            - fc 27 * (fv x * fv x * fv x * (fv x * fv x * fv x))
            - fc 8 * (fv y * fv y * (fv y * fv y)))%fp /\
    magnitude 6 X /\ magnitude 4 Y /\ magnitude 2 Z.
Proof.
  intros Mx My Mz.
  destruct (SetMult_fv y z My Mz) as (zz & Ezz & Vzz & Ozz).
  destruct (SetSquare_fv x Mx) as (t1 & Et1 & Vt1 & Ot1).
  destruct (mul_int_fv t1 3 _ _ _ _ _ ltac:(lia) (mult_output_limbs _ Ot1))
    as [Bt1 Wt1]; try bnd.
  assert (Mt1 : magnitude 8 (mul_int t1 3)).
  { eapply limbs_le_magnitude8; [exact Bt1|..]; bnd. }
  destruct (SetSquare_fv _ Mt1) as (t2 & Et2 & Vt2 & Ot2).
  destruct (SetSquare_fv y My) as (t3 & Et3 & Vt3 & Ot3).
  destruct (mul_int_fv t3 2 _ _ _ _ _ ltac:(lia) (mult_output_limbs _ Ot3))
    as [Bt3 Wt3]; try bnd.
  assert (Mt3 : magnitude 8 (mul_int t3 2)).
  { eapply limbs_le_magnitude8; [exact Bt3|..]; bnd. }
  destruct (SetSquare_fv _ Mt3) as (t4 & Et4 & Vt4 & Ot4).
  destruct (mul_int_fv t4 2 _ _ _ _ _ ltac:(lia) (mult_output_limbs _ Ot4))
    as [Bt4 Wt4]; try bnd.
  destruct (SetMult_fv x _ Mx Mt3) as (t3' & Et3' & Vt3' & Ot3').
  (* x = -(4 t3) + t2 *)
  destruct (mul_int_fv t3' 4 _ _ _ _ _ ltac:(lia) (mult_output_limbs _ Ot3'))
    as [Bx1 Wx1]; try bnd.
  destruct (SetNeg_fv _ 4 _ _ _ _ _ ltac:(lia) Bx1) as [Bx2 Wx2]; try bnd.
  destruct (add_assign_fv _ t2 _ _ _ _ _ _ _ _ _ _ Bx2 (mult_output_limbs _ Ot2))
    as [Bx3 Wx3]; try bnd.
  (* t3 = 6 t3 - t2 *)
  destruct (SetNeg_fv t2 1 _ _ _ _ _ ltac:(lia) (mult_output_limbs _ Ot2))
    as [Bn2 Wn2]; try bnd.
  destruct (mul_int_fv t3' 6 _ _ _ _ _ ltac:(lia) (mult_output_limbs _ Ot3'))
    as [Bs1 Ws1]; try bnd.
  destruct (add_assign_fv _ _ _ _ _ _ _ _ _ _ _ _ Bs1 Bn2) as [Bs2 Ws2]; try bnd.
  assert (Ms2 : magnitude 8 (add_assign (mul_int t3' 6) (SetNeg t2 1))).
  { eapply limbs_le_magnitude8; [exact Bs2|..]; bnd. }
  destruct (SetMult_fv _ _ Mt1 Ms2) as (yy & Eyy & Vyy & Oyy).
  (* y = yy - t4 *)
  destruct (SetNeg_fv _ 2 _ _ _ _ _ ltac:(lia) Bt4) as [Bn4 Wn4]; try bnd.
  destruct (add_assign_fv yy _ _ _ _ _ _ _ _ _ _ _ (mult_output_limbs _ Oyy) Bn4)
    as [By Wy]; try bnd.
  destruct (mul_int_fv zz 2 _ _ _ _ _ ltac:(lia) (mult_output_limbs _ Ozz))
    as [Bz Wz]; try bnd.
  exists zz, t1, t2, t3, t4, t3', yy.
  do 7 (split; [assumption|]). cbv zeta.
  split; [rewrite Wz, Vzz; unfold fc; ring|].
  split; [rewrite Wx3, Wx2, Wx1, Vt3', Wt3, Vt3, Vt2, Wt1, Vt1; unfold fc; ring|].
  split.
  { rewrite Wy, Wn4, Wt4, Vt4, Wt3, Vt3, Vyy, Ws2, Wn2, Ws1, Vt3', Wt3, Vt3,
      Vt2, Wt1, Vt1. unfold fc. ring. }
  split; [|split].
  - unfold magnitude. unfold limbs_le in *. unfold L0, L1, L4 in *. lia.
  - unfold magnitude. unfold limbs_le in *. unfold L0, L1, L4 in *. lia.
  - unfold magnitude. unfold limbs_le in *. unfold L0, L1, L4 in *. lia.
Qed.

(** A store of [z] leaves every [x] and [y] as it was. *)
Lemma runs_store_z_xy (a : addr) (v : FieldElem) (h : Store) (o : GroupElemJac)
  (Q : unit -> Store -> Prop) :
  h a = o ->
  (forall h', h' a = mkGroupElemJac (fInfinity o) (gx o) (gy o) v ->
              (forall b, gx (h' b) = gx (h b) /\ gy (h' b) = gy (h b)) ->
              Q tt h') ->
  runs (store_z a v) h Q.
Proof.
  intros E H. eapply runs_store_z; [exact E|]. intros h' Ha F.
  apply H; [exact Ha|]. intros b.
  destruct (Nat.eq_dec b a) as [->|N].
  - rewrite Ha, E. auto.
  - rewrite (F b N). auto.
Qed.

Lemma SetDouble_formula_ok (this p : addr) (hs : Store) :
  coords8 (hs p) ->
  runs (SetDouble_formula this p) hs (fun _ h' =>
    fInfinity (h' this) = fInfinity (hs this) /\
    fv (gx (h' this)) = dX (hs p) /\ fv (gy (h' this)) = dY (hs p) /\
    fv (gz (h' this)) = dZ (hs p) /\
    magnitude 6 (gx (h' this)) /\ magnitude 4 (gy (h' this)) /\
    magnitude 2 (gz (h' this))).
Proof.
  intros (Mx & My & Mz).
  destruct (double_fields _ _ _ Mx My Mz)
    as (zz & t1 & t2 & t3 & t4 & t3' & yy & Ezz & Et1 & Et2 & Et3 & Et4 & Et3' &
        Eyy & VZ & VX & VY & MX & MY & MZ).
  assert (Hthis : hs this = hs this) by reflexivity.
  unfold SetDouble_formula.
  ld. ld. lf Ezz.
  apply runs_bind. eapply runs_store_z_xy; [exact Hthis|].
  clear Hthis; intros h1 Hthis F1; cbn [fInfinity gx gy gz] in Hthis. cbv beta.
  ld_this Hthis.
  apply runs_bind. eapply runs_store_z_xy; [exact Hthis|].
  clear Hthis; intros h2 Hthis F2; cbn [fInfinity gx gy gz] in Hthis. cbv beta.
  assert (Fx : gx (h2 p) = gx (hs p)).
  { rewrite (proj1 (F2 p)). apply F1. }
  assert (Fy : gy (h2 p) = gy (hs p)).
  { rewrite (proj2 (F2 p)). apply F1. }
  ld. rewrite Fx. lf Et1. cbv zeta. lf Et2.
  ld. rewrite Fy. lf Et3. cbv zeta. lf Et4.
  ld. rewrite Fx. lf Et3'.
  st Hthis h3. ld_this Hthis. st Hthis h4. ld_this Hthis. st Hthis h5.
  ld_this Hthis. st Hthis h6.
  lf Eyy. st Hthis h7. ld_this Hthis. st_last Hthis h8.
  rewrite Hthis. cbn [fInfinity gx gy gz]. unfold dX, dY, dZ.
  auto 10.
Qed.

(** ** Curve membership *)

Lemma on_curve_fv (g : GroupElemJac) :
  on_curve g <->
  (fv (gy g) * fv (gy g) =
   fv (gx g) * fv (gx g) * fv (gx g) +
   fc 7 * (fv (gz g) * fv (gz g) * fv (gz g) *
           (fv (gz g) * fv (gz g) * fv (gz g))))%fp.
Proof.
  unfold on_curve, fv, fc. rewrite <- of_Z_eq_iff.
  rewrite Zmod.of_Z_add, !Zmod.of_Z_mul. reflexivity.
Qed.

(** The doubling formulas map a point of the curve to a point of the
    curve. *)
Lemma double_on_curve (x y z : Fp) :
  (y * y = x * x * x + fc 7 * (z * z * z * (z * z * z)))%fp ->
  let Z' := (fc 2 * y * z)%fp in
  let X' := (fc 9 * (x * x * x * x) - fc 8 * x * (y * y))%fp in
  let Y' := (fc 36 * (x * x * x) * (y * y)
             - fc 27 * (x * x * x * (x * x * x))
             - fc 8 * (y * y * (y * y)))%fp in
  (Y' * Y' = X' * X' * X' + fc 7 * (Z' * Z' * Z' * (Z' * Z' * Z')))%fp.
Proof.
  intros E Z' X' Y'.
  assert (E7 : (fc 7 * (z * z * z * (z * z * z)) = y * y - x * x * x)%fp).
  { rewrite E. ring. }
  transitivity (X' * X' * X' +
                fc 64 * (y * y * y * (y * y * y)) *
                (fc 7 * (z * z * z * (z * z * z))))%fp.
  - rewrite E7. unfold X', Y', fc. ring.
  - unfold Z', fc. ring.
Qed.

(** The chord formulas: with [S1^2 = U1^3 + B] and [S2^2 = U2^3 + B] the
    point [(X3, Y3)] satisfies [Y3^2 = X3^3 + B H^6]. *)
Lemma chord_identity (U1 U2 S1 S2 B : Fp) :
  (S1 * S1 = U1 * U1 * U1 + B)%fp ->
  (S2 * S2 = U2 * U2 * U2 + B)%fp ->
  let H := (U2 - U1)%fp in
  let R := (S2 - S1)%fp in
  let X3 := (R * R - H * H * H - fc 2 * U1 * H * H)%fp in
  let Y3 := (R * (U1 * H * H - X3) - S1 * H * H * H)%fp in
  (Y3 * Y3 = X3 * X3 * X3 + B * (H * H * H * (H * H * H)))%fp.
Proof.
  intros E1 E2 H R X3 Y3.
  set (Q := (H * H * H * (R * R - H * H * (U2 + fc 2 * U1)))%fp).
  transitivity
    (X3 * X3 * X3 + B * (H * H * H * (H * H * H)) +
     (Q * (S2 * S2 - U2 * U2 * U2 - B) -
      (Q - H * H * H * (H * H * H)) * (S1 * S1 - U1 * U1 * U1 - B)))%fp.
  - unfold Y3, X3, Q, R, H, fc. ring.
  - rewrite E1, E2. ring.
Qed.

Lemma add_on_curve (x1 y1 z1 x2 y2 z2 : Fp) :
  (y1 * y1 = x1 * x1 * x1 + fc 7 * (z1 * z1 * z1 * (z1 * z1 * z1)))%fp ->
  (y2 * y2 = x2 * x2 * x2 + fc 7 * (z2 * z2 * z2 * (z2 * z2 * z2)))%fp ->
  let U1 := (x1 * (z2 * z2))%fp in let U2 := (x2 * (z1 * z1))%fp in
  let S1 := (y1 * (z2 * z2) * z2)%fp in let S2 := (y2 * (z1 * z1) * z1)%fp in
  let H := (U2 - U1)%fp in
  let R := (S2 - S1)%fp in
  let X3 := (R * R - H * H * H - fc 2 * U1 * H * H)%fp in
  let Y3 := (R * (U1 * H * H - X3) - S1 * H * H * H)%fp in
  let Z3 := (z1 * z2 * H)%fp in
  (Y3 * Y3 = X3 * X3 * X3 + fc 7 * (Z3 * Z3 * Z3 * (Z3 * Z3 * Z3)))%fp.
Proof.
  intros E1 E2 U1 U2 S1 S2 H R X3 Y3 Z3.
  set (B := (fc 7 * (z1 * z1 * z1 * (z1 * z1 * z1)) *
             (z2 * z2 * z2 * (z2 * z2 * z2)))%fp).
  assert (A1 : (S1 * S1 = U1 * U1 * U1 + B)%fp).
  { transitivity ((y1 * y1) * (z2 * z2 * z2 * (z2 * z2 * z2)))%fp.
    - unfold S1. ring.
    - rewrite E1. unfold U1, B. ring. }
  assert (A2 : (S2 * S2 = U2 * U2 * U2 + B)%fp).
  { transitivity ((y2 * y2) * (z1 * z1 * z1 * (z1 * z1 * z1)))%fp.
    - unfold S2. ring.
    - rewrite E2. unfold U2, B. ring. }
  pose proof (chord_identity U1 U2 S1 S2 B A1 A2) as C. cbv zeta in C.
  fold H R X3 Y3 in C. rewrite C. unfold Z3, B. ring.
Qed.

(** ** SetDouble: the outcomes *)

(** The three outcomes of [SetDouble]; [h1] is the store once the receiver
    has been tested, and the operand of the formulas is [p] in that
    store. *)
Lemma SetDouble_outcomes (this p : addr) (h : Store) :
  let h1 := store h this (tested (h this)) in
  (fInfinity (h p) = true ->
   runs (SetDouble this p) h (fun _ h' => fInfinity (h' this) = true)) /\
  (fInfinity (h p) = false -> fst (IsZero (gy (h this))) = true ->
   runs (SetDouble this p) h (fun _ h' => fInfinity (h' this) = true)) /\
  (fInfinity (h p) = false -> fst (IsZero (gy (h this))) = false ->
   coords8 (h1 p) ->
   runs (SetDouble this p) h (fun _ h' =>
     fInfinity (h' this) = fInfinity (h this) /\
     fv (gx (h' this)) = dX (h1 p) /\ fv (gy (h' this)) = dY (h1 p) /\
     fv (gz (h' this)) = dZ (h1 p) /\
     magnitude 6 (gx (h' this)) /\ magnitude 4 (gy (h' this)) /\
     magnitude 2 (gz (h' this)))).
Proof.
  intros h1. split; [|split].
  - intros Hp. unfold runs. rewrite SetDouble_unfold, Hp.
    eexists tt, _. split; [reflexivity|]. rewrite store_same. reflexivity.
  - intros Hp Hz. unfold runs. rewrite SetDouble_unfold, Hp, Hz.
    eexists tt, _. split; [reflexivity|]. rewrite store_same. reflexivity.
  - intros Hp Hz C.
    assert (E : SetDouble this p h = SetDouble_formula this p h1).
    { rewrite SetDouble_unfold, Hp, Hz. reflexivity. }
    apply (runs_eq _ _ _ _ _ E).
    eapply runs_conseq; [apply SetDouble_formula_ok; exact C|].
    cbv beta. intros _ h' (F & R). split; [|exact R].
    rewrite F. unfold h1. rewrite store_same. reflexivity.
Qed.

(** The operand of the formulas stands for the same residues as [p], when
    [Normalize] is right on the [y] that is tested. *)
Lemma tested_operand (this p : addr) (h : Store) :
  coords8 (h p) ->
  (p = this -> folded (gy (h p)) < 2^256) ->
  let P := store h this (tested (h this)) p in
  coords8 P /\
  fv (gx P) = fv (gx (h p)) /\ fv (gy P) = fv (gy (h p)) /\
  fv (gz P) = fv (gz (h p)).
Proof.
  intros (Mx & My & Mz) Hf. cbv zeta. unfold store.
  destruct (Nat.eqb_spec p this) as [->|N].
  - destruct (Normalize_ok _ My (Hf eq_refl)) as [Cy Vy].
    unfold tested, IsZero, coords8. cbn [snd gx gy gz].
    split; [|split; [reflexivity|split; [|reflexivity]]].
    + split; [exact Mx|]. split; [|exact Mz].
      apply mult_output_magnitude8, canonical_mult_output, Cy.
    + apply fv_eq_iff. exact Vy.
  - unfold coords8. auto.
Qed.

(** [SetDouble] keeps the curve: a point of the curve, or one flagged
    infinity, is mapped to a point of the curve or to one flagged infinity,
    provided that [Normalize] is right on the [y] of the operand when it is
    doubled in place. *)
Lemma SetDouble_keeps_curve (this p : addr) (h : Store) :
  coords8 (h p) ->
  (fInfinity (h p) = false -> on_curve (h p)) ->
  (p = this -> folded (gy (h p)) < 2^256) ->
  runs (SetDouble this p) h (fun _ h' =>
    fInfinity (h' this) = true \/ on_curve (h' this)).
Proof.
  intros C V Hf.
  destruct (SetDouble_outcomes this p h) as (O1 & O2 & O3).
  destruct (fInfinity (h p)) eqn:Hp.
  { eapply runs_conseq; [exact (O1 eq_refl)|]. cbv beta. auto. }
  destruct (fst (IsZero (gy (h this)))) eqn:Hz.
  { eapply runs_conseq; [exact (O2 eq_refl eq_refl)|]. cbv beta. auto. }
  destruct (tested_operand this p h C Hf) as (C1 & Ex & Ey & Ez).
  eapply runs_conseq; [exact (O3 eq_refl eq_refl C1)|].
  cbv beta. intros _ h' (_ & VX & VY & VZ & _). right.
  apply on_curve_fv. rewrite VX, VY, VZ. unfold dX, dY, dZ.
  rewrite Ex, Ey, Ez. apply double_on_curve.
  apply on_curve_fv, V. reflexivity.
Qed.

(** ** SetAdd keeps the curve *)

Lemma SetAdd_keeps_curve (this p q : addr) (h : Store) :
  coords8 (h p) -> coords8 (h q) ->
  (fInfinity (h p) = false -> on_curve (h p)) ->
  (fInfinity (h q) = false -> on_curve (h q)) ->
  (p = this -> folded (gy (h p)) < 2^256) ->
  runs (SetAdd this p q) h (fun _ h' =>
    fInfinity (h' this) = true \/ on_curve (h' this)).
Proof.
  intros Cp Cq Vp Vq Hf.
  destruct (fInfinity (h p)) eqn:Hp.
  { unfold SetAdd. eexists tt, _. split.
    - rewrite mbind_load_inf, Hp. cbv beta iota. rewrite mbind_load. reflexivity.
    - rewrite store_same. destruct (fInfinity (h q)) eqn:Hq; auto. }
  destruct (fInfinity (h q)) eqn:Hq.
  { unfold SetAdd. eexists tt, _. split.
    - rewrite mbind_load_inf, Hp. cbv beta iota.
      rewrite mbind_load_inf, Hq. cbv beta iota. rewrite mbind_load. reflexivity.
    - rewrite store_same. auto. }
  destruct (SetAdd_finite this p q h Hp Hq Cp Cq) as (A & B & C).
  cbv zeta in A, B, C.
  destruct (Zmod.eqb_spec (jU1 (h p) (h q)) (jU2 (h p) (h q))) as [EU|NU].
  - destruct (Zmod.eqb_spec (jS1 (h p) (h q)) (jS2 (h p) (h q))) as [ES|NS].
    + apply (runs_eq _ _ _ _ _ (A EU ES)).
      set (h1 := store h this (with_inf (h this) false)).
      destruct (with_inf_coords h this p false) as (Gx & Gy & Gz). fold h1 in Gx, Gy, Gz.
      eapply runs_conseq.
      * apply SetDouble_keeps_curve.
        -- unfold coords8. rewrite Gx, Gy, Gz. exact Cp.
        -- intros _. unfold on_curve. rewrite Gx, Gy, Gz. exact (Vp eq_refl).
        -- intros E. rewrite Gy. exact (Hf E).
      * cbv beta. auto.
    + eapply runs_conseq; [exact (B EU NS)|]. cbv beta. auto.
  - eapply runs_conseq; [exact (C NU)|].
    cbv beta. intros _ h' (_ & VX & VY & VZ & _). right.
    apply on_curve_fv. rewrite VY, VZ, VX. unfold jU1, jU2, jS1, jS2, two.
    apply (add_on_curve (fv (gx (h p))) (fv (gy (h p))) (fv (gz (h p)))
                        (fv (gx (h q))) (fv (gy (h q))) (fv (gz (h q)))).
    + apply on_curve_fv, Vp. reflexivity.
    + apply on_curve_fv, Vq. reflexivity.
Qed.

Lemma on_curve_affine_fv (q : GroupElem) :
  on_curve_affine q <->
  (fv (a_y q) * fv (a_y q) = fv (a_x q) * fv (a_x q) * fv (a_x q) + fc 7)%fp.
Proof.
  unfold on_curve_affine, fv, fc. rewrite <- of_Z_eq_iff.
  rewrite Zmod.of_Z_add, !Zmod.of_Z_mul. reflexivity.
Qed.

Lemma add_affine_on_curve (x1 y1 z1 x2 y2 : Fp) :
  (y1 * y1 = x1 * x1 * x1 + fc 7 * (z1 * z1 * z1 * (z1 * z1 * z1)))%fp ->
  (y2 * y2 = x2 * x2 * x2 + fc 7)%fp ->
  let U1 := x1 in let U2 := (x2 * (z1 * z1))%fp in
  let S1 := y1 in let S2 := (y2 * (z1 * z1) * z1)%fp in
  let H := (U2 - U1)%fp in
  let R := (S2 - S1)%fp in
  let X3 := (R * R - H * H * H - fc 2 * U1 * H * H)%fp in
  let Y3 := (R * (U1 * H * H - X3) - S1 * H * H * H)%fp in
  let Z3 := (z1 * H)%fp in
  (Y3 * Y3 = X3 * X3 * X3 + fc 7 * (Z3 * Z3 * Z3 * (Z3 * Z3 * Z3)))%fp.
Proof.
  intros E1 E2.
  assert (E2' : (y2 * y2 = x2 * x2 * x2 +
                 fc 7 * (fc 1 * fc 1 * fc 1 * (fc 1 * fc 1 * fc 1)))%fp).
  { rewrite E2. unfold fc. ring. }
  pose proof (add_on_curve x1 y1 z1 x2 y2 (fc 1) E1 E2') as A.
  cbv zeta in *.
  etransitivity; [|etransitivity; [exact A|]]; unfold fc; ring.
Qed.

(** [SetAdd] with an affine second operand keeps the curve, when
    [Normalize] is right on the [x] and [y] of [p]. *)
Lemma SetAdd_affine_keeps_curve (this p : addr) (q : GroupElem) (h : Store) :
  coords8 (h p) -> magnitude 8 (a_x q) -> magnitude 8 (a_y q) ->
  folded (gx (h p)) < 2^256 -> folded (gy (h p)) < 2^256 ->
  (fInfinity (h p) = false -> on_curve (h p)) ->
  (a_fInfinity q = false -> on_curve_affine q) ->
  runs (SetAdd_affine this p q) h (fun _ h' =>
    fInfinity (h' this) = true \/ on_curve (h' this)).
Proof.
  intros Cp Qx Qy Fx Fy Vp Vq.
  destruct (SetAdd_affine_outcomes this p q h) as (O1 & O2 & O3).
  cbv zeta in O1, O2, O3.
  destruct (fInfinity (h p)) eqn:Hp.
  { eapply runs_conseq; [exact (O1 eq_refl)|]. cbv beta. intros _ h' E.
    rewrite E. cbn [fInfinity]. destruct (a_fInfinity q) eqn:Hq; [auto|right].
    apply on_curve_fv. cbn [gx gy gz].
    rewrite (proj1 (on_curve_affine_fv q) (Vq eq_refl)).
    replace (fv (FieldElem_of_int 1)) with (fc 1) by reflexivity.
    unfold fc. ring. }
  destruct (a_fInfinity q) eqn:Hq.
  { eapply runs_conseq; [exact (O2 eq_refl eq_refl)|]. cbv beta. intros _ h' E.
    rewrite E. right. apply Vp. reflexivity. }
  destruct (O3 eq_refl eq_refl Cp Qx Qy Fx Fy) as (A & B & C).
  destruct (Zmod.eqb_spec (fv (gx (h p))) (aU2 (h p) q)) as [EU|NU].
  - destruct (Zmod.eqb_spec (fv (gy (h p))) (aS2 (h p) q)) as [ES|NS].
    + apply (runs_eq _ _ _ _ _ (A EU ES)).
      set (h1 := store h this (with_inf (h this) false)).
      destruct (with_inf_coords h this p false) as (Gx & Gy & Gz).
      fold h1 in Gx, Gy, Gz.
      eapply runs_conseq.
      * apply SetDouble_keeps_curve.
        -- unfold coords8. rewrite Gx, Gy, Gz. exact Cp.
        -- intros _. unfold on_curve. rewrite Gx, Gy, Gz. exact (Vp eq_refl).
        -- intros _. rewrite Gy. exact Fy.
      * cbv beta. auto.
    + eapply runs_conseq; [exact (B EU NS)|]. cbv beta. auto.
  - eapply runs_conseq; [exact (C NU)|].
    cbv beta. intros _ h' (_ & VX & VY & VZ). right.
    apply on_curve_fv. rewrite VY, VZ, VX. unfold aU2, aS2, two.
    apply (add_affine_on_curve (fv (gx (h p))) (fv (gy (h p))) (fv (gz (h p)))
                               (fv (a_x q)) (fv (a_y q))).
    + apply on_curve_fv, Vp. reflexivity.
    + apply on_curve_affine_fv, Vq. reflexivity.
Qed.

(** ** C4: SetDouble *)

(** C4.  [SetDouble] tests [this->y.IsZero()], the [y] of the receiver,
    where the claim (and the doubling formula) need the [y] of the operand
    [p], and it never clears the flag of the receiver; past the test the
    coordinates are those of the claim ([SetDouble_outcomes]).  Three runs
    with the receiver at address 0 and the operand at address 1:
    - the operand is the generator ([y] not 0), the receiver a fresh
      [GroupElemJac()] (whose [y] is 0): the result is flagged infinity;
    - the operand is finite with [y = 0], the receiver holds the generator:
      the result is not flagged infinity;
    - the operand is the generator, the receiver is flagged infinity and
      holds a [y] that is not 0: the formula is computed and the result
      is still flagged infinity. *)
Theorem C4_SetDouble_tests_receiver :
  (fInfinity generator = false /\ value (gy generator) mod p_field <> 0 /\
   exists g, object_after (SetDouble 0%nat 1%nat)
               (two_objects GroupElemJac_default generator) 0%nat
             = Some g /\ fInfinity g = true) /\
  (fInfinity point_y0 = false /\ value (gy point_y0) mod p_field = 0 /\
   exists g, object_after (SetDouble 0%nat 1%nat) (two_objects generator point_y0) 0%nat
             = Some g /\ fInfinity g = false) /\
  (exists g, object_after (SetDouble 0%nat 1%nat)
               (two_objects stale_infinity generator) 0%nat
             = Some g /\ fInfinity g = true /\ gx g <> gx stale_infinity).
Proof.
  split; [|split].
  - split; [reflexivity|]. split; [vm_compute; discriminate|].
    eexists. split; [vm_compute; reflexivity|]. reflexivity.
  - split; [reflexivity|]. split; [vm_compute; reflexivity|].
    eexists. split; [vm_compute; reflexivity|]. reflexivity.
  - eexists. split; [vm_compute; reflexivity|]. split; [reflexivity|].
    vm_compute. discriminate.
Qed.

(** ** C7: curve membership *)

Lemma on_curve_dec (g : GroupElemJac) :
  on_curve g <->
  ((value (gy g) * value (gy g)) mod p_field =?
   (value (gx g) * value (gx g) * value (gx g) +
    7 * (value (gz g) * value (gz g) * value (gz g) *
         (value (gz g) * value (gz g) * value (gz g)))) mod p_field) = true.
Proof. unfold on_curve, eqp. rewrite Z.eqb_eq. reflexivity. Qed.

(** C7.  The formulas keep the curve, and so do [SetDouble] and [SetAdd]
    wherever [Normalize] is right on the [y] of an operand that is doubled
    in place ([SetDouble_keeps_curve], [SetAdd_keeps_curve],
    [SetAdd_affine_keeps_curve]).  Doubling in place, as [SetAdd] does it
    for [x1.SetAdd(x1, g2a)], normalises the [y] of the operand through
    [this->y.IsZero()].  On [point_bad_y], a finite point of the curve with
    coordinates within the magnitude-1 bounds, [Normalize] drops a carry
    (C3), so the formula runs on another [y]: the result of [SetDouble],
    and of [SetAdd] of the point and itself, is not flagged infinity and is
    not on the curve, and [IsValid] says so. *)
Theorem C7_SetDouble_in_place_leaves_curve :
  fInfinity point_bad_y = false /\ on_curve point_bad_y /\
  IsValid point_bad_y = Some true /\
  magnitude 1 (gx point_bad_y) /\ magnitude 1 (gy point_bad_y) /\
  magnitude 1 (gz point_bad_y) /\
  (exists g,
     object_after (SetDouble 0%nat 0%nat) (fun _ => point_bad_y) 0%nat = Some g /\
     fInfinity g = false /\ ~ on_curve g /\ IsValid g = Some false) /\
  (exists g,
     object_after (SetAdd 0%nat 0%nat 0%nat) (fun _ => point_bad_y) 0%nat = Some g /\
     fInfinity g = false /\ ~ on_curve g /\ IsValid g = Some false).
Proof.
  split; [reflexivity|].
  split; [apply on_curve_dec; vm_compute; reflexivity|].
  split; [vm_compute; reflexivity|].
  split; [vm_compute; intuition discriminate|].
  split; [vm_compute; intuition discriminate|].
  split; [vm_compute; intuition discriminate|].
  split.
  - eexists. split; [vm_compute; reflexivity|].
    split; [reflexivity|]. split.
    + rewrite on_curve_dec. vm_compute. discriminate.
    + vm_compute. reflexivity.
  - eexists. split; [vm_compute; reflexivity|].
    split; [reflexivity|]. split.
    + rewrite on_curve_dec. vm_compute. discriminate.
    + vm_compute. reflexivity.
Qed.

(** ** SetHex and ToString *)

Lemma lor_disjoint (a b k : Z) :
  0 <= k -> 0 <= a < 2^k -> Z.lor a (b * 2^k) = a + b * 2^k.
Proof.
  intros Hk Ha.
  assert (E : Z.land a (b * 2^k) = 0).
  { apply Z.bits_inj'. intros n Hn. rewrite Z.land_spec, Z.bits_0.
    destruct (Z.lt_ge_cases n k) as [Hlt|Hge].
    - rewrite Z.mul_pow2_bits_low by lia. apply andb_false_r.
    - destruct (Z.eq_dec a 0) as [->|Hnz]; [rewrite Z.bits_0; reflexivity|].
      rewrite (Z.bits_above_log2 a n); [reflexivity|lia|].
      apply Z.log2_lt_pow2; [lia|].
      apply Z.lt_le_trans with (2^k); [lia|].
      apply Z.pow_le_mono_r; lia. }
  rewrite <- Z.lxor_lor by exact E. symmetry. apply Z.add_nocarry_lxor. exact E.
Qed.

Lemma cvt_range : Forall (fun v => 0 <= v <= 15) cvt.
Proof. unfold cvt. repeat (apply Forall_cons; [lia|]). apply Forall_nil. Qed.

Lemma cvt_char_range (ch : ascii) : 0 <= cvt_char ch <= 15.
Proof.
  unfold cvt_char.
  destruct (nth_in_or_default (nat_of_ascii ch) cvt 0) as [H| ->]; [|lia].
  exact (proj1 (Forall_forall _ _) cvt_range _ H).
Qed.

Lemma hex_digit_at_range (str : string) (i : nat) : 0 <= hex_digit_at str i <= 15.
Proof.
  unfold hex_digit_at.
  destruct (63 - i <? String.length str)%nat; [|lia].
  destruct (String.get (63 - i) str); [apply cvt_char_range | lia].
Qed.

(** The characters of the string are the leading digits: character [k]
    lands at nibble [63 - k], and the nibbles below stay 0. *)
Lemma hex_digit_at_char (str : string) (k : nat) (ch : ascii) :
  (k < 64)%nat -> String.get k str = Some ch ->
  hex_digit_at str (63 - k) = cvt_char ch.
Proof.
  intros Hk Hg. unfold hex_digit_at.
  replace (63 - (63 - k))%nat with k by lia. rewrite Hg.
  destruct (Nat.ltb_spec k (String.length str)) as [_|Hge]; [reflexivity|].
  exfalso. revert k Hk Hg Hge. induction str as [|c s IH]; intros k Hk Hg Hge.
  - discriminate.
  - destruct k; simpl in *; [lia|]. apply (IH k); [lia|exact Hg|lia].
Qed.

Lemma hex_digit_at_low (str : string) (i : nat) :
  (i < 64 - String.length str)%nat -> hex_digit_at str i = 0.
Proof.
  intros Hi. unfold hex_digit_at.
  destruct (Nat.ltb_spec (63 - i) (String.length str)); [lia|reflexivity].
Qed.

Lemma shifted_digit_eq (str : string) (i : nat) :
  shifted_digit str i = hex_digit_at str i * 2 ^ Z.of_nat ((i mod 16) * 4).
Proof.
  unfold shifted_digit. pose proof (hex_digit_at_range str i) as Hd.
  pose proof (Nat.mod_upper_bound i 16 ltac:(lia)) as Hm.
  rewrite (u64_small (hex_digit_at str i)) by lia.
  rewrite Z.shiftl_mul_pow2 by lia.
  apply u64_small.
  assert (H1 : 2 ^ Z.of_nat (i mod 16 * 4) <= 2 ^ 60)
    by (apply Z.pow_le_mono_r; lia).
  assert (H2 : 0 < 2 ^ Z.of_nat (i mod 16 * 4)) by (apply Z.pow_pos_nonneg; lia).
  nia.
Qed.

Lemma set_word_length (w : list Z) (i : nat) (v : Z) :
  List.length (set_word w i v) = List.length w.
Proof.
  revert i. induction w as [|x w IH]; intros [|i]; simpl; auto.
Qed.

Lemma set_word_same (w : list Z) (i : nat) :
  set_word w i (word w i) = w.
Proof.
  unfold word. revert i. induction w as [|x w IH]; intros [|i]; simpl; auto.
  f_equal. apply IH.
Qed.

(** One turn of the loop, without the test on the length. *)
Lemma SetHex_step_eq (str : string) (tmp : list Z) (i : nat) :
  SetHex_step str tmp i =
  set_word tmp (i / 16) (Z.lor (word tmp (i / 16)) (shifted_digit str i)).
Proof.
  unfold SetHex_step, shifted_digit, hex_digit_at.
  destruct (63 - i <? String.length str)%nat eqn:Hlt.
  - destruct (String.get (63 - i) str) eqn:Hg; [reflexivity|].
    change (u64 (Z.shiftl (u64 0) _)) with (u64 (Z.shiftl 0 (Z.of_nat (i mod 16 * 4)))).
    rewrite Z.shiftl_0_l. change (u64 0) with 0.
    rewrite Z.lor_0_r, set_word_same. reflexivity.
  - change (u64 (Z.shiftl (u64 0) _)) with (u64 (Z.shiftl 0 (Z.of_nat (i mod 16 * 4)))).
    rewrite Z.shiftl_0_l. change (u64 0) with 0.
    rewrite Z.lor_0_r, set_word_same. reflexivity.
Qed.

Lemma fold_left_ext_list {A B : Type} (f g : A -> B -> A) (l : list B) (a : A) :
  (forall x y, f x y = g x y) -> fold_left f l a = fold_left g l a.
Proof.
  intros H. revert a. induction l as [|y l IH]; intros a; simpl; [reflexivity|].
  rewrite H. apply IH.
Qed.

Lemma SetHex_words_eq (str : string) :
  SetHex_words str = words_of (shifted_digit str).
Proof.
  unfold SetHex_words, words_of. apply fold_left_ext_list.
  intros tmp i. apply SetHex_step_eq.
Qed.

Lemma words_of_unroll (D : nat -> Z) :
  words_of D = [word_of D 0; word_of D 16; word_of D 32; word_of D 48].
Proof. cbv - [Z.lor]. reflexivity. Qed.

(** Or-ing digits into disjoint nibbles adds them. *)
Lemma lor_nibbles (e : nat -> Z) (n : nat) :
  (forall k, 0 <= e k <= 15) ->
  fold_left (fun w k => Z.lor w (e k * 2 ^ Z.of_nat (k * 4))) (seq 0 n) 0
  = nibble_sum e n /\
  0 <= nibble_sum e n < 2 ^ Z.of_nat (n * 4).
Proof.
  intros He. induction n as [|n [IH1 IH2]].
  - simpl. lia.
  - rewrite seq_S, fold_left_app, IH1. cbn [fold_left nibble_sum Nat.add].
    assert (E16 : 16 ^ Z.of_nat n = 2 ^ Z.of_nat (n * 4)).
    { replace (Z.of_nat (n * 4)) with (4 * Z.of_nat n) by lia.
      rewrite Z.pow_mul_r by lia. reflexivity. }
    rewrite lor_disjoint by (lia || assumption).
    rewrite E16. split; [reflexivity|].
    specialize (He n).
    replace (Z.of_nat (S n * 4)) with (Z.of_nat (n * 4) + 4) by lia.
    rewrite Z.pow_add_r by lia.
    assert (0 < 2 ^ Z.of_nat (n * 4)) by (apply Z.pow_pos_nonneg; lia).
    nia.
Qed.

Lemma word_of_shifted (str : string) (j : nat) :
  (j < 4)%nat ->
  word_of (shifted_digit str) (16 * j) =
  nibble_sum (fun k => hex_digit_at str (16 * j + k)) 16 /\
  0 <= word_of (shifted_digit str) (16 * j) < 2^64.
Proof.
  intros Hj. unfold word_of.
  pose proof (lor_nibbles (fun k => hex_digit_at str (16 * j + k)) 16
                (fun k => hex_digit_at_range str _)) as [E B].
  assert (F : fold_left (fun w k => Z.lor w (shifted_digit str (16 * j + k)))
                (seq 0 16) 0 =
              fold_left (fun w k => Z.lor w (hex_digit_at str (16 * j + k) *
                                             2 ^ Z.of_nat (k * 4))) (seq 0 16) 0).
  { assert (G : forall l w, Forall (fun k => (k < 16)%nat) l ->
       fold_left (fun w k => Z.lor w (shifted_digit str (16 * j + k))) l w =
       fold_left (fun w k => Z.lor w (hex_digit_at str (16 * j + k) *
                                      2 ^ Z.of_nat (k * 4))) l w).
    { induction l as [|k l IH]; intros w Hl; cbn [fold_left]; [reflexivity|].
      inversion Hl as [|? ? Hk Hl']; subst.
      rewrite shifted_digit_eq.
      replace ((16 * j + k) mod 16)%nat with k.
      - apply IH. exact Hl'.
      - rewrite Nat.add_comm, Nat.mul_comm, Nat.Div0.mod_add.
        symmetry. apply Nat.mod_small. exact Hk. }
    apply G. apply Forall_forall. intros k Hk. apply in_seq in Hk. lia. }
  rewrite F, E. split; [reflexivity|]. exact B.
Qed.

Lemma nibble_sum_split (d : nat -> Z) :
  nibble_sum d 64 =
  nibble_sum (fun k => d (16 * 0 + k)%nat) 16 +
  nibble_sum (fun k => d (16 * 1 + k)%nat) 16 * 2^64 +
  nibble_sum (fun k => d (16 * 2 + k)%nat) 16 * 2^128 +
  nibble_sum (fun k => d (16 * 3 + k)%nat) 16 * 2^192.
Proof.
  cbv [nibble_sum Nat.add Nat.mul Z.of_nat Pos.of_succ_nat Pos.succ]. ring.
Qed.

Lemma SetHex_words_value (str : string) :
  words_value (SetHex_words str) = left_aligned_value str /\
  exists w0 w1 w2 w3, SetHex_words str = [w0; w1; w2; w3] /\
    0 <= w0 < 2^64 /\ 0 <= w1 < 2^64 /\ 0 <= w2 < 2^64 /\ 0 <= w3 < 2^64.
Proof.
  rewrite SetHex_words_eq, words_of_unroll.
  destruct (word_of_shifted str 0 ltac:(lia)) as [E0 B0].
  destruct (word_of_shifted str 1 ltac:(lia)) as [E1 B1].
  destruct (word_of_shifted str 2 ltac:(lia)) as [E2 B2].
  destruct (word_of_shifted str 3 ltac:(lia)) as [E3 B3].
  change (16 * 0)%nat with 0%nat in *. change (16 * 1)%nat with 16%nat in *.
  change (16 * 2)%nat with 32%nat in *. change (16 * 3)%nat with 48%nat in *.
  split.
  - unfold words_value, word; cbn [nth]. rewrite E0, E1, E2, E3.
    unfold left_aligned_value. rewrite nibble_sum_split. reflexivity.
  - eexists _, _, _, _. split; [reflexivity|]. auto.
Qed.

(** [Set] keeps the value of the four words. *)
Lemma Set_value (w0 w1 w2 w3 : Z) :
  0 <= w0 < 2^64 -> 0 <= w1 < 2^64 -> 0 <= w2 < 2^64 -> 0 <= w3 < 2^64 ->
  value (Set_ [w0; w1; w2; w3]) = words_value [w0; w1; w2; w3] /\
  masked (Set_ [w0; w1; w2; w3]).
Proof.
  intros H0 H1 H2 H3.
  unfold Set_, words_value, value, masked, limbs_le, word;
    cbn [nth n0 n1 n2 n3 n4].
  assert (S : forall a b k k', 0 <= k -> 0 <= k' -> k + k' = 64 ->
    0 <= a < 2^64 -> 0 <= b < 2^64 ->
    Z.land (Z.lor (Z.shiftr a k') (u64 (Z.shiftl b k))) mask52 =
    (a / 2^k' + (b mod 2^k') * 2^k) mod 2^52).
  { intros a b k k' Hk Hk' Hs Ha Hb.
    rewrite land_mask52, Z.shiftr_div_pow2, Z.shiftl_mul_pow2 by lia.
    f_equal. unfold u64.
    assert (P64 : 2^64 = 2^k' * 2^k).
    { rewrite <- Z.pow_add_r by lia. f_equal. lia. }
    assert (Pk : 0 < 2^k) by (apply Z.pow_pos_nonneg; lia).
    assert (Pk' : 0 < 2^k') by (apply Z.pow_pos_nonneg; lia).
    replace ((b * 2^k) mod 2^64) with ((b mod 2^k') * 2^k).
    - apply lor_disjoint; [lia|]. split; [apply Z.div_pos; lia|].
      apply Z.div_lt_upper_bound; [lia|]. lia.
    - rewrite P64. rewrite Z.mul_mod_distr_r by lia. reflexivity. }
  rewrite (S w0 w1 12 52), (S w1 w2 24 40), (S w2 w3 36 28) by lia.
  rewrite land_mask52, Z.shiftr_div_pow2 by lia.
  clear S. Z.to_euclidean_division_equations. lia.
Qed.

Lemma SetHex_value (str : string) :
  value (SetHex str) = left_aligned_value str /\ masked (SetHex str).
Proof.
  destruct (SetHex_words_value str) as [E (w0 & w1 & w2 & w3 & Ew & B0 & B1 & B2 & B3)].
  unfold SetHex. rewrite Ew in *.
  destruct (Set_value w0 w1 w2 w3 B0 B1 B2 B3) as [V M].
  split; [rewrite V; exact E | exact M].
Qed.

(** *** Right padding *)

Lemma zeros_length (n : nat) : String.length (zeros n) = n.
Proof. induction n; simpl; auto. Qed.

Lemma zeros_get (n m : nat) : (m < n)%nat -> String.get m (zeros n) = Some "0"%char.
Proof.
  revert m. induction n as [|n IH]; intros m Hm; [lia|].
  destruct m; simpl; [reflexivity|]. apply IH. lia.
Qed.

Lemma append_length (s1 s2 : string) :
  String.length (s1 ++ s2) = (String.length s1 + String.length s2)%nat.
Proof. induction s1; simpl; auto. Qed.

Lemma pad_right_length (str : string) :
  (String.length str <= 64)%nat -> String.length (pad_right str) = 64%nat.
Proof.
  intros H. unfold pad_right. rewrite append_length, zeros_length. lia.
Qed.

Lemma hex_digit_at_pad_right (str : string) (i : nat) :
  (String.length str <= 64)%nat -> (i < 64)%nat ->
  hex_digit_at (pad_right str) i = hex_digit_at str i.
Proof.
  intros Hl Hi. unfold hex_digit_at. rewrite pad_right_length by exact Hl.
  destruct (Nat.ltb_spec (63 - i) 64) as [_|]; [|lia].
  destruct (Nat.ltb_spec (63 - i) (String.length str)) as [Hlt|Hge].
  - unfold pad_right. rewrite <- append_correct1 by exact Hlt. reflexivity.
  - unfold pad_right.
    replace (63 - i)%nat with (63 - i - String.length str + String.length str)%nat
      at 1 by lia.
    rewrite <- append_correct2, zeros_get by lia. reflexivity.
Qed.

Lemma fold_left_ext_in {A B : Type} (f g : A -> B -> A) (l : list B) (a : A) :
  (forall x y, In y l -> f x y = g x y) -> fold_left f l a = fold_left g l a.
Proof.
  revert a. induction l as [|y l IH]; intros a H; cbn [fold_left]; [reflexivity|].
  rewrite H by (left; reflexivity). apply IH. intros x z Hz. apply H. right. exact Hz.
Qed.

Lemma SetHex_pad_right (str : string) :
  (String.length str <= 64)%nat -> SetHex str = SetHex (pad_right str).
Proof.
  intros Hl. unfold SetHex. f_equal. rewrite !SetHex_words_eq. unfold words_of.
  apply fold_left_ext_in. intros tmp i Hi. apply in_seq in Hi.
  unfold shifted_digit. rewrite hex_digit_at_pad_right by lia. reflexivity.
Qed.

(** *** ToString *)

Lemma string_of_list_ascii_length (l : list ascii) :
  String.length (string_of_list_ascii l) = List.length l.
Proof. induction l; simpl; auto. Qed.

Lemma string_of_list_ascii_get (l : list ascii) (k : nat) :
  String.get k (string_of_list_ascii l) = nth_error l k.
Proof.
  revert k. induction l as [|c l IH]; intros [|k]; simpl; auto.
Qed.

Lemma ToString_fst (f : FieldElem) :
  fst (ToString f) =
  string_of_list_ascii
    (map (fun i => hexchar (nibble (fst (Get f)) i)) (rev (seq 0 64))).
Proof. unfold ToString. destruct (Get f) as [tmp a']. reflexivity. Qed.

Lemma nibble_range (tmp : list Z) (i : nat) : 0 <= nibble tmp i <= 15.
Proof.
  unfold nibble.
  generalize (Z.shiftr (word tmp (i / 16)) (Z.of_nat (i mod 16 * 4))) as x.
  intros x. change (Z.land x 0xF) with (Z.land x (Z.ones 4)).
  rewrite Z.land_ones by lia.
  pose proof (Z.mod_pos_bound x (2^4) ltac:(lia)). lia.
Qed.

Lemma hexchar_digits (v : Z) :
  0 <= v <= 15 ->
  String.get (Z.to_nat v) hexdigits = Some (hexchar v) /\
  In (hexchar v) (list_ascii_of_string hexdigits).
Proof.
  intros Hv.
  assert (C : v = 0 \/ v = 1 \/ v = 2 \/ v = 3 \/ v = 4 \/ v = 5 \/ v = 6 \/
              v = 7 \/ v = 8 \/ v = 9 \/ v = 10 \/ v = 11 \/ v = 12 \/ v = 13 \/
              v = 14 \/ v = 15) by lia.
  repeat (destruct C as [->|C]; [split; [reflexivity|cbv; tauto]|]).
  subst v. split; [reflexivity|cbv; tauto].
Qed.

Lemma ToString_get (f : FieldElem) (k : nat) :
  (k < 64)%nat ->
  String.get k (fst (ToString f)) = Some (hexchar (nibble (fst (Get f)) (63 - k))).
Proof.
  intros Hk. rewrite ToString_fst, string_of_list_ascii_get.
  rewrite nth_error_map, nth_error_rev, length_seq.
  replace (64 - S k)%nat with (63 - k)%nat by lia.
  rewrite nth_error_seq.
  destruct (Nat.ltb_spec k 64) as [_|]; [|lia].
  destruct (Nat.ltb_spec (63 - k) 64) as [_|]; [|lia].
  reflexivity.
Qed.

Lemma ToString_length (f : FieldElem) : String.length (fst (ToString f)) = 64%nat.
Proof.
  rewrite ToString_fst, string_of_list_ascii_length, length_map, length_rev, length_seq.
  reflexivity.
Qed.

Lemma get_some_lt (str : string) (k : nat) (ch : ascii) :
  String.get k str = Some ch -> (k < String.length str)%nat.
Proof.
  revert k. induction str as [|c s IH]; intros k H; [discriminate|].
  destruct k; simpl in *; [lia|]. apply IH in H. lia.
Qed.

(** *** Short strings *)

(** C10, as stated, fails: [SetHex] on the one-character string [1] gives
    the value [2^252], the string left-padded with [0] to 64 characters
    gives 1, and [ToString] shows the digit in front. *)
Lemma C10_SetHex_short_string_counterexample :
  value (SetHex "1") = 2^252 /\
  value (SetHex (pad_left "1")) = 1 /\
  SetHex "1" <> SetHex (pad_left "1") /\
  fst (ToString (SetHex "1")) =
    "1000000000000000000000000000000000000000000000000000000000000000"%string /\
  fst (ToString (SetHex (pad_left "1"))) =
    "0000000000000000000000000000000000000000000000000000000000000001"%string.
Proof.
  split; [vm_compute; reflexivity|].
  split; [vm_compute; reflexivity|].
  split; [intros H; apply (f_equal value) in H; vm_compute in H; discriminate|].
  split; vm_compute; reflexivity.
Qed.

(** C10, amended: for a string of 1 to 64 characters [SetHex] parses it
    left-aligned.  The string gives the same element as the string padded
    on the right with [0] to 64 characters; the value is the sum of the
    digits with character [k] at nibble [63 - k], the nibbles below the
    last character being 0, and the limbs are within their masks.  For every
    element [ToString] gives 64 characters, the character at index [k] being
    the upper-case digit of nibble [63 - k] of the four words of [Get]. *)
Theorem C10_SetHex_left_aligned_ToString (str : string) (f : FieldElem) :
  (1 <= String.length str <= 64)%nat ->
  SetHex str = SetHex (pad_right str) /\
  String.length (pad_right str) = 64%nat /\
  value (SetHex str) = left_aligned_value str /\
  masked (SetHex str) /\
  (forall k ch, String.get k str = Some ch ->
                hex_digit_at str (63 - k) = cvt_char ch) /\
  (forall i, (i < 64 - String.length str)%nat -> hex_digit_at str i = 0) /\
  String.length (fst (ToString f)) = 64%nat /\
  (forall k, (k < 64)%nat ->
     0 <= nibble (fst (Get f)) (63 - k) <= 15 /\
     String.get k (fst (ToString f)) =
       Some (hexchar (nibble (fst (Get f)) (63 - k))) /\
     In (hexchar (nibble (fst (Get f)) (63 - k)))
        (list_ascii_of_string hexdigits)).
Proof.
  intros [Hlo Hhi].
  split; [apply SetHex_pad_right; exact Hhi|].
  split; [apply pad_right_length; exact Hhi|].
  split; [apply SetHex_value|].
  split; [apply SetHex_value|].
  split.
  { intros k ch Hg. apply hex_digit_at_char; [|exact Hg].
    apply get_some_lt in Hg. lia. }
  split; [intros i Hi; apply hex_digit_at_low; exact Hi|].
  split; [apply ToString_length|].
  intros k Hk. pose proof (nibble_range (fst (Get f)) (63 - k)) as R.
  split; [exact R|]. split; [apply ToString_get; exact Hk|].
  apply hexchar_digits. exact R.
Qed.

Lemma C10_SetHex_left_aligned_ToString_witness :
  (1 <= String.length "1F" <= 64)%nat /\
  value (SetHex "1F") = left_aligned_value "1F" /\
  String.length (fst (ToString (SetHex "1F"))) = 64%nat.
Proof.
  assert (H : (1 <= String.length "1F" <= 64)%nat) by (simpl; lia).
  split; [exact H|].
  pose proof (C10_SetHex_left_aligned_ToString "1F" (SetHex "1F") H) as T.
  split; [apply T|apply T].
Defined.

(** ** The field operations on operands where [Normalize] is right *)

(** The operands on which [Normalize] is right: limbs within the
    magnitude-8 bounds and a folded value that fits 256 bits.  The outputs
    of [SetMult], [SetSquare], [Set] and [SetHex] are of this kind. *)
Lemma Normalize_canonical (a : FieldElem) : canonical a -> Normalize a = a.
Proof.
  intros Ca.
  assert (Ma : magnitude 8 a)
    by (apply mult_output_magnitude8, canonical_mult_output, Ca).
  assert (Fa : folded a < 2^256).
  { rewrite masked_folded by (apply canonical_masked, Ca).
    pose proof (canonical_value_range a Ca). unfold p_field in *. lia. }
  destruct (Normalize_ok a Ma Fa) as [Cn Vn].
  apply canonical_unique; assumption.
Qed.

Lemma Normalize_value (a : FieldElem) :
  magnitude 8 a -> folded a < 2^256 ->
  canonical (Normalize a) /\ value (Normalize a) = value a mod p_field.
Proof.
  intros Ma Fa. destruct (Normalize_ok a Ma Fa) as [Cn Vn].
  split; [exact Cn|]. rewrite <- Vn. symmetry. apply Z.mod_small.
  apply canonical_value_range, Cn.
Qed.

Lemma masked_magnitude8 (a : FieldElem) : masked a -> magnitude 8 a.
Proof. unfold masked, magnitude, limbs_le. lia. Qed.

Lemma masked_folded_fits (a : FieldElem) : masked a -> folded a < 2^256.
Proof.
  intros H. rewrite (masked_folded a H).
  destruct a as [a0 a1 a2 a3 a4].
  unfold masked, limbs_le, value in *; cbn [n0 n1 n2 n3 n4] in *. lia.
Qed.

(** Masked representations are unique. *)
Lemma masked_unique (a b : FieldElem) :
  masked a -> masked b -> value a = value b -> a = b.
Proof.
  destruct a as [a0 a1 a2 a3 a4], b as [b0 b1 b2 b3 b4].
  unfold masked, limbs_le, value; cbn [n0 n1 n2 n3 n4].
  intros Ha Hb E.
  assert (a0 = b0 /\ a1 = b1 /\ a2 = b2 /\ a3 = b3 /\ a4 = b4) by lia.
  intuition congruence.
Qed.

Lemma all_zero_spec (a : FieldElem) :
  all_zero a = true <-> a = mkFieldElem 0 0 0 0 0.
Proof.
  destruct a as [a0 a1 a2 a3 a4]. unfold all_zero; cbn [n0 n1 n2 n3 n4].
  rewrite !andb_true_iff, !Z.eqb_eq. split.
  - intros ((((-> & ->) & ->) & ->) & ->). reflexivity.
  - intros E. injection E. intuition.
Qed.

Lemma zero_canonical : canonical (mkFieldElem 0 0 0 0 0).
Proof. unfold canonical, limbs_le, value, p_field; cbn [n0 n1 n2 n3 n4]. lia. Qed.

Lemma IsZero_ok (a : FieldElem) :
  magnitude 8 a -> folded a < 2^256 ->
  (fst (IsZero a) = true <-> eqp (value a) 0) /\
  snd (IsZero a) = Normalize a.
Proof.
  intros Ma Fa. destruct (Normalize_ok a Ma Fa) as [Cn Vn].
  unfold IsZero. cbn [fst snd]. split; [|reflexivity].
  rewrite all_zero_spec. unfold eqp. rewrite <- Vn. split.
  - intros ->. reflexivity.
  - intros E. apply canonical_unique; [exact Cn|exact zero_canonical|exact E].
Qed.

Lemma odd_low_limb (a : FieldElem) :
  masked a -> Z.odd (value a) = Z.odd (n0 a).
Proof.
  destruct a as [a0 a1 a2 a3 a4]. unfold value; cbn [n0 n1 n2 n3 n4]. intros _.
  replace (a0 + a1 * 2^52 + a2 * 2^104 + a3 * 2^156 + a4 * 2^208)
    with (a0 + 2 * (a1 * 2^51 + a2 * 2^103 + a3 * 2^155 + a4 * 2^207)) by ring.
  rewrite Z.odd_add_mul_2. reflexivity.
Qed.

Lemma land_1_odd (x : Z) : negb (Z.land x 1 =? 0) = Z.odd x.
Proof.
  change 1 with (Z.ones 1). rewrite Z.land_ones by lia. change (2 ^ 1) with 2.
  rewrite Zmod_odd. destruct (Z.odd x); reflexivity.
Qed.

Lemma IsOdd_ok (a : FieldElem) :
  magnitude 8 a -> folded a < 2^256 ->
  fst (IsOdd a) = Z.odd (value a mod p_field) /\ snd (IsOdd a) = Normalize a.
Proof.
  intros Ma Fa. destruct (Normalize_value a Ma Fa) as [Cn Vn].
  unfold IsOdd. cbn [fst snd]. split; [|reflexivity].
  rewrite land_1_odd, <- Vn. symmetry. apply odd_low_limb, canonical_masked, Cn.
Qed.

(** ** Get and Set *)

Lemma lor_shift (a b k k' : Z) :
  0 <= k -> 0 <= k' -> k + k' = 64 -> 0 <= a < 2^k -> 0 <= b ->
  Z.lor a (u64 (Z.shiftl b k)) = a + (b mod 2^k') * 2^k.
Proof.
  intros Hk Hk' Hs Ha Hb.
  rewrite Z.shiftl_mul_pow2 by lia. unfold u64.
  assert (P64 : 2^64 = 2^k' * 2^k).
  { rewrite <- Z.pow_add_r by lia. f_equal. lia. }
  assert (Pk : 0 < 2^k) by (apply Z.pow_pos_nonneg; lia).
  assert (Pk' : 0 < 2^k') by (apply Z.pow_pos_nonneg; lia).
  replace ((b * 2^k) mod 2^64) with ((b mod 2^k') * 2^k).
  - apply lor_disjoint; [lia|exact Ha].
  - rewrite P64. rewrite Z.mul_mod_distr_r by lia. reflexivity.
Qed.

(** The words of [Get] on a masked element that [Normalize] leaves as it
    is. *)
Lemma Get_words (a : FieldElem) :
  masked a ->
  let w0 := Z.lor (n0 a) (u64 (Z.shiftl (n1 a) 52)) in
  let w1 := Z.lor (Z.shiftr (n1 a) 12) (u64 (Z.shiftl (n2 a) 40)) in
  let w2 := Z.lor (Z.shiftr (n2 a) 24) (u64 (Z.shiftl (n3 a) 28)) in
  let w3 := Z.lor (Z.shiftr (n3 a) 36) (u64 (Z.shiftl (n4 a) 16)) in
  0 <= w0 < 2^64 /\ 0 <= w1 < 2^64 /\ 0 <= w2 < 2^64 /\ 0 <= w3 < 2^64 /\
  words_value [w0; w1; w2; w3] = value a.
Proof.
  destruct a as [a0 a1 a2 a3 a4].
  unfold masked, limbs_le, value, words_value, word; cbn [n0 n1 n2 n3 n4 nth].
  intros (A0&A1&A2&A3&A4). cbv zeta.
  rewrite !Z.shiftr_div_pow2 by lia.
  assert (D1 : 0 <= a1 / 2^12 < 2^40).
  { split; [apply Z.div_pos; lia|apply Z.div_lt_upper_bound; lia]. }
  assert (D2 : 0 <= a2 / 2^24 < 2^28).
  { split; [apply Z.div_pos; lia|apply Z.div_lt_upper_bound; lia]. }
  assert (D3 : 0 <= a3 / 2^36 < 2^16).
  { split; [apply Z.div_pos; lia|apply Z.div_lt_upper_bound; lia]. }
  rewrite (lor_shift a0 a1 52 12), (lor_shift (a1 / 2^12) a2 40 24),
    (lor_shift (a2 / 2^24) a3 28 36), (lor_shift (a3 / 2^36) a4 16 48) by lia.
  rewrite (Z.mod_small a4 (2^48)) by lia.
  pose proof (Z.mod_pos_bound a1 (2^12) ltac:(lia)).
  pose proof (Z.mod_pos_bound a2 (2^24) ltac:(lia)).
  pose proof (Z.mod_pos_bound a3 (2^36) ltac:(lia)).
  pose proof (Z.div_mod a1 (2^12) ltac:(lia)).
  pose proof (Z.div_mod a2 (2^24) ltac:(lia)).
  pose proof (Z.div_mod a3 (2^36) ltac:(lia)).
  lia.
Qed.

Lemma Get_ok (a : FieldElem) :
  magnitude 8 a -> folded a < 2^256 ->
  exists w0 w1 w2 w3,
    fst (Get a) = [w0; w1; w2; w3] /\
    0 <= w0 < 2^64 /\ 0 <= w1 < 2^64 /\ 0 <= w2 < 2^64 /\ 0 <= w3 < 2^64 /\
    words_value [w0; w1; w2; w3] = value a mod p_field /\
    snd (Get a) = Normalize a.
Proof.
  intros Ma Fa. destruct (Normalize_value a Ma Fa) as [Cn Vn].
  pose proof (Get_words _ (canonical_masked _ Cn)) as G. cbv zeta in G.
  destruct G as (W0 & W1 & W2 & W3 & E).
  unfold Get. cbn [fst snd]. eexists _, _, _, _.
  split; [reflexivity|]. rewrite <- Vn. auto 10.
Qed.

(** [Set] after [Get] is [Normalize]. *)
Lemma Set_Get (a : FieldElem) :
  magnitude 8 a -> folded a < 2^256 -> Set_ (fst (Get a)) = Normalize a.
Proof.
  intros Ma Fa.
  destruct (Get_ok a Ma Fa) as (w0 & w1 & w2 & w3 & E & W0 & W1 & W2 & W3 & V & _).
  destruct (Normalize_value a Ma Fa) as [Cn Vn].
  rewrite E. destruct (Set_value w0 w1 w2 w3 W0 W1 W2 W3) as [VS MS].
  apply masked_unique; [exact MS|apply canonical_masked, Cn|].
  rewrite VS, V, Vn. reflexivity.
Qed.

Lemma words_unique (w0 w1 w2 w3 v0 v1 v2 v3 : Z) :
  0 <= w0 < 2^64 -> 0 <= w1 < 2^64 -> 0 <= w2 < 2^64 -> 0 <= w3 < 2^64 ->
  0 <= v0 < 2^64 -> 0 <= v1 < 2^64 -> 0 <= v2 < 2^64 -> 0 <= v3 < 2^64 ->
  words_value [w0; w1; w2; w3] = words_value [v0; v1; v2; v3] ->
  [w0; w1; w2; w3] = [v0; v1; v2; v3].
Proof.
  unfold words_value, word; cbn [nth]. intros.
  assert (w0 = v0 /\ w1 = v1 /\ w2 = v2 /\ w3 = v3) by lia.
  intuition congruence.
Qed.

(** [Get] after [Set] gives the words back, when they stand for a value
    below the prime. *)
Lemma Get_Set (w0 w1 w2 w3 : Z) :
  0 <= w0 < 2^64 -> 0 <= w1 < 2^64 -> 0 <= w2 < 2^64 -> 0 <= w3 < 2^64 ->
  words_value [w0; w1; w2; w3] < p_field ->
  fst (Get (Set_ [w0; w1; w2; w3])) = [w0; w1; w2; w3] /\
  snd (Get (Set_ [w0; w1; w2; w3])) = Set_ [w0; w1; w2; w3].
Proof.
  intros W0 W1 W2 W3 Hp.
  destruct (Set_value w0 w1 w2 w3 W0 W1 W2 W3) as [VS MS].
  set (a := Set_ [w0; w1; w2; w3]) in *.
  assert (Ca : canonical a) by (split; [exact MS|lia]).
  pose proof (Normalize_canonical a Ca) as Na.
  destruct (Get_ok a (masked_magnitude8 _ MS) (masked_folded_fits _ MS))
    as (v0 & v1 & v2 & v3 & E & V0 & V1 & V2 & V3 & V & S).
  split; [|rewrite S; exact Na].
  rewrite E. symmetry. apply words_unique; try assumption.
  rewrite V, VS. symmetry. apply Z.mod_small.
  rewrite <- VS. apply canonical_value_range, Ca.
Qed.

(** ** operator*=, operator+= and SetNeg on the magnitudes *)

Lemma mul_int_magnitude (a : FieldElem) (M v : Z) :
  1 <= M -> 0 <= v -> M * v <= 2047 -> magnitude M a ->
  magnitude (M * v) (mul_int a v) /\ value (mul_int a v) = v * value a.
Proof.
  intros HM Hv HMv Ha. unfold magnitude in *.
  assert (Bv : 0 <= v < 2^64) by nia.
  assert (E53 : M * (2^53 - 1) * v = M * v * (2^53 - 1)) by ring.
  assert (E49 : M * (2^49 - 1) * v = M * v * (2^49 - 1)) by ring.
  destruct (mul_int_ok a v _ _ _ _ _ Bv Ha) as [Hl Hval];
    try (rewrite ?E53, ?E49; lia).
  rewrite E53, E49 in Hl. auto.
Qed.

Lemma add_assign_magnitude (r a : FieldElem) (M N : Z) :
  M + N <= 2047 -> magnitude M r -> magnitude N a ->
  magnitude (M + N) (add_assign r a) /\
  value (add_assign r a) = value r + value a.
Proof.
  intros HMN Hr Ha. unfold magnitude in *.
  destruct (add_assign_ok r a _ _ _ _ _ _ _ _ _ _ Hr Ha) as [Hl Hval]; try lia.
  split; [|exact Hval]. unfold limbs_le in *. lia.
Qed.

(** ** SetInverse at 0 and at 1 *)

Lemma pow_nonzero (A : Fp) (e : Z) :
  0 <= e -> A <> Zmod.zero -> (A ^ e)%fp <> Zmod.zero.
Proof.
  intros He HA E.
  assert (H1 : ((A ^ e) ^ Z.pred p_field = Zmod.one)%fp).
  { rewrite <- Zmod.pow_mul_r_nonneg by (unfold p_field; lia).
    rewrite Z.mul_comm, Zmod.pow_mul_r_nonneg by (unfold p_field; lia).
    rewrite Zmod.fermat_nz by (assumption || exact p_field_prime).
    apply Zmod.pow_1_l. }
  rewrite E, Zmod.pow_0_l in H1 by (unfold p_field; lia).
  symmetry in H1. revert H1. apply Zmod.one_neq_zero. unfold p_field. lia.
Qed.

Lemma inverse_exponent_pos : 0 < inverse_exponent.
Proof. reflexivity. Qed.

Lemma SetInverse_edges (a : FieldElem) :
  magnitude 8 a ->
  exists r, SetInverse a = Some r /\ magnitude 1 r /\
    (fv r = Zmod.zero <-> fv a = Zmod.zero) /\
    (fv a = Zmod.one -> fv r = Zmod.one).
Proof.
  intros Ma. destruct (SetInverse_ok a Ma) as (r & Er & [_ Pr] & Or).
  pose proof inverse_exponent_pos as He.
  exists r. split; [exact Er|]. split; [apply mult_output_magnitude, Or|].
  rewrite Pr. split; [split|].
  - intros E. destruct (Zmod.eqb_spec (fv a) Zmod.zero) as [Z|NZ]; [exact Z|].
    exfalso. revert E. apply pow_nonzero; [lia|exact NZ].
  - intros ->. apply Zmod.pow_0_l. lia.
  - intros ->. apply Zmod.pow_1_l.
Qed.


(** *** The digits of the value *)

(** Nibble [i] of the four words is the digit of weight [16^i]. *)
Lemma nibble_value (w0 w1 w2 w3 : Z) (i : nat) :
  0 <= w0 < 2^64 -> 0 <= w1 < 2^64 -> 0 <= w2 < 2^64 -> 0 <= w3 < 2^64 ->
  (i < 64)%nat ->
  nibble [w0; w1; w2; w3] i =
  (words_value [w0; w1; w2; w3] / 16 ^ Z.of_nat i) mod 16.
Proof.
  intros H0 H1 H2 H3 Hi.
  pose proof (Nat.div_mod_eq i 16) as Ei.
  pose proof (Nat.mod_upper_bound i 16 ltac:(lia)) as Hr.
  set (q := (i / 16)%nat) in *. set (r := (i mod 16)%nat) in *.
  assert (Hq : (q < 4)%nat) by lia.
  unfold nibble. fold q r.
  change 0xF with (Z.ones 4). rewrite Z.land_ones, Z.shiftr_div_pow2 by lia.
  change (2 ^ 4) with 16.
  set (K := 2 ^ Z.of_nat (r * 4)).
  set (M' := 2 ^ (60 - Z.of_nat (r * 4))).
  assert (HK : 0 < K) by (apply Z.pow_pos_nonneg; lia).
  assert (HM : 0 <= M') by (apply Z.pow_nonneg; lia).
  assert (EK : 2^64 = 16 * M' * K).
  { unfold K, M'. change 16 with (2^4).
    rewrite <- !Z.pow_add_r by lia. f_equal. lia. }
  assert (E16 : 16 ^ Z.of_nat i = 2^(64 * Z.of_nat q) * K).
  { unfold K. change 16 with (2^4).
    rewrite <- Z.pow_mul_r, <- Z.pow_add_r by lia. f_equal. lia. }
  assert (D : forall w Hh, (w + 2^64 * Hh) / K mod 16 = w / K mod 16).
  { intros w Hh. rewrite EK.
    replace (w + 16 * M' * K * Hh) with (w + (16 * M' * Hh) * K) by ring.
    rewrite Z.div_add by lia.
    replace (w / K + 16 * M' * Hh) with (w / K + (M' * Hh) * 16) by ring.
    apply Z_mod_plus_full. }
  rewrite E16, <- Z.div_div by (try apply Z.pow_pos_nonneg; lia).
  unfold words_value, word. cbn [nth].
  destruct q as [|[|[|[|q]]]]; [| | | |lia]; cbn [nth].
  - change (2 ^ (64 * Z.of_nat 0)) with 1. rewrite Z.div_1_r.
    replace (w0 + w1 * 2^64 + w2 * 2^128 + w3 * 2^192)
      with (w0 + 2^64 * (w1 + w2 * 2^64 + w3 * 2^128)) by ring.
    symmetry. apply D.
  - change (2 ^ (64 * Z.of_nat 1)) with (2^64).
    replace ((w0 + w1 * 2^64 + w2 * 2^128 + w3 * 2^192) / 2^64)
      with (w1 + 2^64 * (w2 + w3 * 2^64)).
    + symmetry. apply D.
    + apply Z.div_unique with w0; [lia|ring].
  - change (2 ^ (64 * Z.of_nat 2)) with (2^128).
    replace ((w0 + w1 * 2^64 + w2 * 2^128 + w3 * 2^192) / 2^128)
      with (w2 + 2^64 * w3).
    + symmetry. apply D.
    + apply Z.div_unique with (w0 + w1 * 2^64); [lia|ring].
  - change (2 ^ (64 * Z.of_nat 3)) with (2^192).
    replace ((w0 + w1 * 2^64 + w2 * 2^128 + w3 * 2^192) / 2^192)
      with (w3 + 2^64 * 0).
    + symmetry. apply D.
    + apply Z.div_unique with (w0 + w1 * 2^64 + w2 * 2^128); [lia|ring].
Qed.

(** ** The digits of a value *)

Lemma nibble_sum_ext (d d' : nat -> Z) (n : nat) :
  (forall i, (i < n)%nat -> d i = d' i) -> nibble_sum d n = nibble_sum d' n.
Proof.
  induction n as [|n IH]; intros H; cbn [nibble_sum]; [reflexivity|].
  rewrite IH, (H n) by auto with arith. reflexivity.
Qed.

Lemma nibble_sum_bound (d : nat -> Z) (n : nat) :
  (forall i, 0 <= d i <= 15) -> 0 <= nibble_sum d n < 16 ^ Z.of_nat n.
Proof.
  intros Hd. induction n as [|n IH]; cbn [nibble_sum].
  - change (16 ^ Z.of_nat 0) with 1. lia.
  - rewrite Nat2Z.inj_succ, Z.pow_succ_r by lia.
    pose proof (Hd n). nia.
Qed.

Lemma nibble_sum_digit (d : nat -> Z) (n i : nat) :
  (forall j, 0 <= d j <= 15) -> (i < n)%nat ->
  hex_digit (nibble_sum d n) i = d i.
Proof.
  intros Hd. unfold hex_digit. induction n as [|n IH]; intros Hi; [lia|].
  cbn [nibble_sum].
  assert (Pi : 0 < 16 ^ Z.of_nat i) by (apply Z.pow_pos_nonneg; lia).
  destruct (Nat.eq_dec i n) as [->|Hne].
  - rewrite Z.div_add by lia.
    rewrite (Z.div_small (nibble_sum d n)) by (apply nibble_sum_bound, Hd).
    apply Z.mod_small. pose proof (Hd n). lia.
  - replace (16 ^ Z.of_nat n)
      with (16 * 16 ^ Z.of_nat (n - S i) * 16 ^ Z.of_nat i).
    + replace (nibble_sum d n + d n * (16 * 16 ^ Z.of_nat (n - S i) * 16 ^ Z.of_nat i))
        with (nibble_sum d n + (d n * 16 ^ Z.of_nat (n - S i) * 16) * 16 ^ Z.of_nat i)
        by ring.
      rewrite Z.div_add by lia.
      replace (nibble_sum d n / 16 ^ Z.of_nat i + d n * 16 ^ Z.of_nat (n - S i) * 16)
        with (nibble_sum d n / 16 ^ Z.of_nat i + (d n * 16 ^ Z.of_nat (n - S i)) * 16)
        by ring.
      rewrite Z_mod_plus_full. apply IH. lia.
    + rewrite <- (Z.pow_succ_r 16) by lia. rewrite <- Z.pow_add_r by lia.
      f_equal. lia.
Qed.

Lemma digits_sum (v : Z) (n : nat) :
  0 <= v -> nibble_sum (hex_digit v) n = v mod 16 ^ Z.of_nat n.
Proof.
  intros Hv. induction n as [|n IH]; cbn [nibble_sum].
  - change (16 ^ Z.of_nat 0) with 1. rewrite Z.mod_1_r. reflexivity.
  - rewrite IH. unfold hex_digit.
    assert (Pn : 0 < 16 ^ Z.of_nat n) by (apply Z.pow_pos_nonneg; lia).
    rewrite Nat2Z.inj_succ, Z.pow_succ_r by lia.
    rewrite (Z.mul_comm 16), Z.rem_mul_r by lia. ring.
Qed.

Lemma hex_digit_range (v : Z) (i : nat) : 0 <= hex_digit v i <= 15.
Proof.
  unfold hex_digit. pose proof (Z.mod_pos_bound (v / 16 ^ Z.of_nat i) 16). lia.
Qed.

(** ** ToString and SetHex: the round trips *)

(** [ToString] writes the hexadecimal digits of the value modulo the
    prime, the most significant one first. *)
Lemma ToString_digits (a : FieldElem) (k : nat) :
  magnitude 8 a -> folded a < 2^256 -> (k < 64)%nat ->
  String.get k (fst (ToString a)) =
  Some (hexchar (hex_digit (value a mod p_field) (63 - k))).
Proof.
  intros Ma Fa Hk. rewrite ToString_get by exact Hk.
  destruct (Get_ok a Ma Fa) as (w0 & w1 & w2 & w3 & E & W0 & W1 & W2 & W3 & V & _).
  rewrite E, nibble_value by (assumption || lia).
  rewrite V. reflexivity.
Qed.

Lemma cvt_hexchar (v : Z) : 0 <= v <= 15 -> cvt_char (hexchar v) = v.
Proof.
  intros Hv.
  assert (C : v = 0 \/ v = 1 \/ v = 2 \/ v = 3 \/ v = 4 \/ v = 5 \/ v = 6 \/
              v = 7 \/ v = 8 \/ v = 9 \/ v = 10 \/ v = 11 \/ v = 12 \/ v = 13 \/
              v = 14 \/ v = 15) by lia.
  repeat (destruct C as [->|C]; [reflexivity|]). subst v. reflexivity.
Qed.

Lemma hexchar_cvt (ch : ascii) :
  In ch (list_ascii_of_string hexdigits) -> hexchar (cvt_char ch) = ch.
Proof.
  cbn [list_ascii_of_string hexdigits In].
  intros H. repeat (destruct H as [<-|H]; [reflexivity|]). destruct H.
Qed.

Lemma get_beyond (s : string) (k : nat) :
  (String.length s <= k)%nat -> String.get k s = None.
Proof.
  revert k. induction s as [|c s IH]; intros k H; [destruct k; reflexivity|].
  destruct k; simpl in *; [lia|]. apply IH. lia.
Qed.

Lemma get_within (s : string) (k : nat) :
  (k < String.length s)%nat -> exists ch, String.get k s = Some ch.
Proof.
  revert k. induction s as [|c s IH]; intros k H; simpl in H; [lia|].
  destruct k; simpl; [eauto|]. apply IH. lia.
Qed.

Lemma hex_digit_at_full (str : string) (i : nat) (ch : ascii) :
  (i < 64)%nat -> String.get (63 - i) str = Some ch ->
  hex_digit_at str i = cvt_char ch.
Proof.
  intros Hi Hg. rewrite <- (hex_digit_at_char str (63 - i) ch) by (lia || exact Hg).
  f_equal. lia.
Qed.

(** [SetHex] after [ToString] is [Normalize]. *)
Lemma SetHex_ToString (a : FieldElem) :
  magnitude 8 a -> folded a < 2^256 ->
  SetHex (fst (ToString a)) = Normalize a.
Proof.
  intros Ma Fa. destruct (Normalize_value a Ma Fa) as [Cn Vn].
  destruct (SetHex_value (fst (ToString a))) as [VS MS].
  apply masked_unique; [exact MS|apply canonical_masked, Cn|].
  rewrite VS, Vn. unfold left_aligned_value.
  rewrite (nibble_sum_ext _ (hex_digit (value a mod p_field))).
  - rewrite digits_sum by (apply Z.mod_pos_bound; reflexivity).
    apply Z.mod_small.
    pose proof (Z.mod_pos_bound (value a) p_field ltac:(reflexivity)).
    change (Z.of_nat 64) with 64. unfold p_field in *. lia.
  - intros i Hi.
    rewrite (hex_digit_at_full _ i
               (hexchar (hex_digit (value a mod p_field) i))) by
      (try exact Hi; rewrite ToString_digits by (assumption || lia);
       do 3 f_equal; lia).
    apply cvt_hexchar, hex_digit_range.
Qed.

(** [ToString] after [SetHex] gives the string back, for 64 upper-case
    digits that stand for a value below the prime. *)
Lemma ToString_SetHex (str : string) :
  String.length str = 64%nat -> upper_hex str ->
  left_aligned_value str < p_field ->
  ToString (SetHex str) = (str, SetHex str).
Proof.
  intros Hl Hu Hp. destruct (SetHex_value str) as [VS MS].
  set (a := SetHex str) in *.
  assert (Ca : canonical a) by (split; [exact MS|lia]).
  pose proof (masked_magnitude8 _ MS) as Ma.
  pose proof (masked_folded_fits _ MS) as Fa.
  assert (E2 : snd (ToString a) = a).
  { unfold ToString. destruct (Get a) as [tmp a'] eqn:EG. cbn [snd].
    change a' with (snd (tmp, a')). rewrite <- EG.
    unfold Get. cbn [snd]. apply Normalize_canonical, Ca. }
  assert (E1 : fst (ToString a) = str).
  { apply get_correct. intros k.
    destruct (Nat.lt_ge_cases k 64) as [Hk|Hk].
    - rewrite ToString_digits by assumption.
      destruct (get_within str k ltac:(lia)) as [ch Hch]. rewrite Hch. f_equal.
      rewrite (Z.mod_small (value a)) by (apply canonical_value_range, Ca).
      rewrite VS. unfold left_aligned_value.
      rewrite nibble_sum_digit by (try apply hex_digit_at_range; lia).
      rewrite (hex_digit_at_full str (63 - k) ch)
        by (try lia; replace (63 - (63 - k))%nat with k by lia; exact Hch).
      apply hexchar_cvt, (Hu k), Hch.
    - rewrite !get_beyond by (rewrite ?ToString_length; lia). reflexivity. }
  rewrite (surjective_pairing (ToString a)), E1, E2. reflexivity.
Qed.

(** ** SetHex: what the result depends on *)

Lemma hex_digit_at_get (str : string) (i : nat) :
  hex_digit_at str i =
  match String.get (63 - i) str with
  | Some ch => cvt_char ch
  | None => 0
  end.
Proof.
  unfold hex_digit_at.
  destruct (Nat.ltb_spec (63 - i) (String.length str)) as [H|H]; [reflexivity|].
  rewrite get_beyond by exact H. reflexivity.
Qed.

Lemma SetHex_ext (s t : string) :
  (forall i, (i < 64)%nat -> hex_digit_at s i = hex_digit_at t i) ->
  SetHex s = SetHex t.
Proof.
  intros H. unfold SetHex. f_equal. rewrite !SetHex_words_eq. unfold words_of.
  apply fold_left_ext_in. intros tmp i Hi. apply in_seq in Hi.
  unfold shifted_digit. rewrite H by lia. reflexivity.
Qed.

Lemma map_string_get (f : ascii -> ascii) (s : string) (k : nat) :
  String.get k (map_string f s) = option_map f (String.get k s).
Proof.
  revert k. induction s as [|c s IH]; intros [|k]; simpl; auto.
Qed.

Lemma cvt_char_to_upper (ch : ascii) : cvt_char (to_upper ch) = cvt_char ch.
Proof.
  destruct ch as [[] [] [] [] [] [] [] []]; reflexivity.
Qed.

Lemma SetHex_upper (s : string) : SetHex (map_string to_upper s) = SetHex s.
Proof.
  apply SetHex_ext. intros i _. rewrite !hex_digit_at_get, map_string_get.
  destruct (String.get (63 - i) s); [apply cvt_char_to_upper|reflexivity].
Qed.

Lemma SetHex_first_64 (s : string) : SetHex (substring 0 64 s) = SetHex s.
Proof.
  apply SetHex_ext. intros i Hi. rewrite !hex_digit_at_get.
  rewrite substring_correct1 by lia. rewrite Nat.add_0_r. reflexivity.
Qed.

(** A check of [upper_hex] by computation. *)
Lemma upper_hex_check (str : string) :
  forallb (fun ch => existsb (Ascii.eqb ch) (list_ascii_of_string hexdigits))
          (list_ascii_of_string str) = true ->
  upper_hex str.
Proof.
  intros H k ch Hg. rewrite forallb_forall in H.
  assert (I : In ch (list_ascii_of_string str)).
  { clear H. revert k Hg. induction str as [|c s IH]; intros k Hg; [discriminate|].
    destruct k as [|k]; cbn [String.get] in Hg.
    - injection Hg as E. left. exact E.
    - right. apply (IH k). exact Hg. }
  specialize (H ch I). apply existsb_exists in H.
  destruct H as (c & Hc & E). apply Ascii.eqb_eq in E. subst c. exact Hc.
Qed.


(** ** IsValid *)

(** [IsValid] on a finite point with coordinates within the magnitude-8
    bounds: the two sides [y2] and [x3] that it compares. *)
Lemma IsValid_sides (g : GroupElemJac) :
  fInfinity g = false -> coords8 g ->
  exists y2 x3,
    SetSquare (gy g) = Some y2 /\ IsValid_rhs g = Some x3 /\
    IsValid g = Some (fst (fst (eq_op y2 x3))) /\
    mult_output y2 /\ magnitude 8 x3 /\
    fv y2 = (fv (gy g) * fv (gy g))%fp /\
    fv x3 = (fv (gx g) * fv (gx g) * fv (gx g) +
             fc 7 * (fv (gz g) * fv (gz g) * fv (gz g) *
                     (fv (gz g) * fv (gz g) * fv (gz g))))%fp.
Proof.
  intros Hf (Mx & My & Mz).
  destruct (SetSquare_fv _ My) as (y2 & Ey2 & Vy2 & Oy2).
  destruct (SetSquare_fv _ Mx) as (x2 & Ex2 & Vx2 & Ox2).
  destruct (SetMult_fv _ _ (mult_output_magnitude8 _ Ox2) Mx)
    as (x3 & Ex3 & Vx3 & Ox3).
  destruct (SetSquare_fv _ Mz) as (z2 & Ez2 & Vz2 & Oz2).
  pose proof (mult_output_magnitude8 _ Oz2) as Mz2.
  destruct (SetSquare_fv _ Mz2) as (z4 & Ez4 & Vz4 & Oz4).
  destruct (SetMult_fv _ _ (mult_output_magnitude8 _ Oz4) Mz2)
    as (z6 & Ez6 & Vz6 & Oz6).
  destruct (mul_int_fv z6 7 _ _ _ _ _ ltac:(lia) (mult_output_limbs _ Oz6))
    as [B7 V7]; try bnd.
  destruct (add_assign_fv x3 _ _ _ _ _ _ _ _ _ _ _ (mult_output_limbs _ Ox3) B7)
    as [Bs Vs]; try bnd.
  exists y2, (add_assign x3 (mul_int z6 7)).
  split; [exact Ey2|]. split.
  { unfold IsValid_rhs. rewrite Ex2, bind_some, Ex3, bind_some,
      Ez2, bind_some, Ez4, bind_some, Ez6, bind_some. reflexivity. }
  split.
  { unfold IsValid. rewrite Hf, Ey2, bind_some, Ex2, bind_some, Ex3, bind_some,
      Ez2, bind_some, Ez4, bind_some, Ez6, bind_some. cbv zeta.
    destruct (eq_op y2 (add_assign x3 (mul_int z6 7))) as [[e a'] b'].
    reflexivity. }
  split; [exact Oy2|].
  split; [eapply limbs_le_magnitude8; [exact Bs|..]; bnd|].
  split; [exact Vy2|].
  rewrite Vs, V7, Vx3, Vx2, Vz6, Vz4, Vz2. unfold fc. ring.
Qed.

(** [IsValid] decides the curve equation when [Normalize] is right on the
    right-hand side that it computes, and is [false] on a point flagged
    infinity. *)
Lemma IsValid_decides (g : GroupElemJac) :
  (fInfinity g = true -> IsValid g = Some false) /\
  (fInfinity g = false -> coords8 g ->
   exists x3,
     IsValid_rhs g = Some x3 /\ magnitude 8 x3 /\
     eqp (value x3)
         (value (gx g) * value (gx g) * value (gx g) +
          7 * (value (gz g) * value (gz g) * value (gz g) *
               (value (gz g) * value (gz g) * value (gz g)))) /\
     (exists b, IsValid g = Some b) /\
     (folded x3 < 2^256 -> (IsValid g = Some true <-> on_curve g))).
Proof.
  split.
  - intros Hf. unfold IsValid. rewrite Hf. reflexivity.
  - intros Hf C.
    destruct (IsValid_sides g Hf C) as (y2 & x3 & Ey & Ex & E & Oy & Mx & Vy & Vx).
    exists x3. split; [exact Ex|]. split; [exact Mx|].
    split.
    { apply eqp_fv. rewrite Vx. unfold fv, fc.
      rewrite Zmod.of_Z_add, !Zmod.of_Z_mul. reflexivity. }
    split; [eexists; exact E|].
    intros Fx.
    destruct (eq_op_ok y2 x3 (mult_output_magnitude8 _ Oy) (mult_output_folded _ Oy)
                Mx Fx) as (e & a' & b' & Ee & _ & _ & _ & _ & He).
    rewrite E, Ee. cbn [fst]. rewrite on_curve_fv, <- Vy, <- Vx, fv_eq_iff, <- He.
    split; [intros H; injection H; auto | intros ->; reflexivity].
Qed.

(** ** SetCompressed *)

Lemma p_field_odd : Z.odd p_field = true.
Proof. reflexivity. Qed.

(** The negative of a canonical element, as [SetNeg(y, 1)] gives it. *)
Lemma SetNeg_canonical (y : FieldElem) :
  canonical y ->
  magnitude 2 (SetNeg y 1) /\ folded (SetNeg y 1) < 2^256 /\
  fv (SetNeg y 1) = (- fv y)%fp /\
  value (SetNeg y 1) = 2 * p_field - value y.
Proof.
  intros Cy.
  destruct (SetNeg_ok y 1 _ _ _ _ _ ltac:(lia) (canonical_limbs _ Cy)) as [Bn Vn];
    try bnd.
  destruct (SetNeg_fv y 1 _ _ _ _ _ ltac:(lia) (canonical_limbs _ Cy)) as [_ Fn];
    try bnd.
  pose proof (canonical_value_range y Cy) as Ry.
  split; [|split; [|split; [exact Fn|rewrite Vn; ring]]].
  - unfold magnitude. unfold limbs_le, L0, L1, L4 in *. lia.
  - unfold folded. rewrite Vn. clear Bn Fn Vn.
    set (v := value y) in *. clearbody v. unfold p_field in *.
    Z.to_euclidean_division_equations. lia.
Qed.

Lemma IsOdd_canonical (y : FieldElem) :
  canonical y -> IsOdd y = (Z.odd (value y), y).
Proof.
  intros Cy. unfold IsOdd. rewrite (Normalize_canonical y Cy).
  rewrite land_1_odd, <- (odd_low_limb y (canonical_masked _ Cy)). reflexivity.
Qed.

Lemma IsOdd_SetNeg (y : FieldElem) :
  canonical y -> value y <> 0 ->
  fst (IsOdd (SetNeg y 1)) = negb (Z.odd (value y)).
Proof.
  intros Cy Hy. destruct (SetNeg_canonical y Cy) as (Mn & Fn & _ & Vn).
  assert (M8 : magnitude 8 (SetNeg y 1)).
  { unfold magnitude, limbs_le in *. lia. }
  rewrite (proj1 (IsOdd_ok _ M8 Fn)), Vn.
  pose proof (canonical_value_range y Cy) as Ry.
  replace ((2 * p_field - value y) mod p_field) with (p_field - value y).
  - rewrite Z.odd_sub, p_field_odd. reflexivity.
  - apply Z.mod_unique with 1; lia.
Qed.

Lemma SetCompressed_ok (this : addr) (xin : FieldElem) (fOdd : bool) (h : Store) :
  magnitude 8 xin ->
  runs (SetCompressed this xin fOdd) h (fun _ h' =>
    exists Y, h' this = mkGroupElemJac false xin Y (FieldElem_of_int 1) /\
      magnitude 2 Y /\ folded Y < 2^256 /\
      let c := (fc 7 + fv xin * (fv xin * fv xin))%fp in
      ((fv Y * fv Y = c)%fp \/ (fv Y * fv Y = - c)%fp) /\
      (forall b : Fp, c = (b * b)%fp ->
         on_curve (h' this) /\ (fv Y = b \/ fv Y = (- b)%fp)) /\
      (fv Y <> Zmod.zero -> fst (IsOdd Y) = fOdd)).
Proof.
  intros Mx.
  destruct (SetSquare_fv _ Mx) as (x2 & Ex2 & Vx2 & Ox2).
  destruct (SetMult_fv _ _ Mx (mult_output_magnitude8 _ Ox2))
    as (x3 & Ex3 & Vx3 & Ox3).
  assert (B7 : limbs_le (FieldElem_of_int 7) 7 0 0 0 0).
  { unfold limbs_le, FieldElem_of_int; cbn [n0 n1 n2 n3 n4].
    rewrite u64_small; lia. }
  destruct (add_assign_fv _ x3 _ _ _ _ _ _ _ _ _ _ B7 (mult_output_limbs _ Ox3))
    as [Bc Vc]; try bnd.
  assert (Mc : magnitude 8 (add_assign (FieldElem_of_int 7) x3)).
  { eapply limbs_le_magnitude8; [exact Bc|..]; bnd. }
  destruct (SetSquareRoot_ok _ Mc) as (r & Er & [Mr Pr] & Or).
  destruct (Normalize_mult_output r Or) as [Cn Vn]. apply fv_eq_iff in Vn.
  assert (V7 : fv (FieldElem_of_int 7) = fc 7) by reflexivity.
  set (c := (fc 7 + fv xin * (fv xin * fv xin))%fp).
  assert (Ec : fv (add_assign (FieldElem_of_int 7) x3) = c).
  { rewrite Vc, V7, Vx3, Vx2. reflexivity. }
  rewrite Ec in Pr.
  assert (Hthis : h this = h this) by reflexivity.
  unfold SetCompressed.
  st Hthis h1. ld_this Hthis. lf Ex2. ld_this Hthis. lf Ex3.
  st Hthis h2. cbv zeta. lf Er. st Hthis h3. st Hthis h4.
  ld_this Hthis.
  pose proof (IsOdd_ok r (mult_output_magnitude8 _ Or) (mult_output_folded _ Or))
    as [Ho Hs].
  destruct (IsOdd r) as [odd y'] eqn:EO. cbn [fst snd] in Ho, Hs. subst y'.
  st Hthis h5.
  set (y := Normalize r) in *.
  assert (Vy : value y = value r mod p_field).
  { apply Normalize_value; [apply mult_output_magnitude8|apply mult_output_folded];
      exact Or. }
  assert (Sq : (fv y * fv y = c \/ fv y * fv y = - c)%fp).
  { rewrite Vn, Pr. apply sqrt_power_cases. }
  assert (Rt : forall b : Fp, c = (b * b)%fp ->
                 (fv y * fv y = c)%fp /\ (fv y = b \/ fv y = (- b)%fp)).
  { intros b Hb. rewrite Vn, Pr, Hb. apply sqrt_power_of_square. }
  assert (Oc : forall Y, fv Y = fv y \/ fv Y = (- fv y)%fp ->
                 forall b : Fp, c = (b * b)%fp ->
                 on_curve (mkGroupElemJac false xin Y (FieldElem_of_int 1)) /\
                 (fv Y = b \/ fv Y = (- b)%fp)).
  { intros Y HY b Hb. destruct (Rt b Hb) as [R1 R2]. split.
    - apply on_curve_fv. cbn [gx gy gz].
      replace (fv (FieldElem_of_int 1)) with (fc 1) by reflexivity.
      transitivity c.
      + destruct HY as [-> | ->]; rewrite <- R1; ring.
      + unfold c, fc. ring.
    - destruct HY as [-> | ->]; destruct R2 as [-> | ->];
        [left; reflexivity | right; reflexivity | right; reflexivity | left; ring]. }
  destruct (Bool.eqb odd fOdd) eqn:Eb; cbn [negb].
  - apply runs_ret. exists y. split; [exact Hthis|].
    split; [apply magnitude_mono with 1; [lia|];
            apply mult_output_magnitude, canonical_mult_output, Cn|].
    split; [apply masked_folded_fits, canonical_masked, Cn|].
    cbv zeta. split; [exact Sq|]. split.
    + rewrite Hthis. apply Oc. left. reflexivity.
    + intros _. rewrite (IsOdd_canonical y Cn). cbn [fst].
      apply Bool.eqb_prop in Eb. subst fOdd.
      rewrite Ho, Vy. reflexivity.
  - ld_this Hthis. st_last Hthis h6.
    destruct (SetNeg_canonical y Cn) as (Mn & Fn & Vneg & _).
    exists (SetNeg y 1). split; [exact Hthis|].
    split; [exact Mn|]. split; [exact Fn|].
    cbv zeta. split; [|split].
    + rewrite Vneg. destruct Sq as [<- | <-]; [left|right]; ring.
    + rewrite Hthis. apply Oc. right. exact Vneg.
    + intros Hnz. rewrite IsOdd_SetNeg.
      * replace (Z.odd (value y)) with odd.
        -- destruct odd, fOdd; try reflexivity; discriminate Eb.
        -- rewrite Ho, Vy. reflexivity.
      * exact Cn.
      * intros Hz. apply Hnz. rewrite Vneg.
        assert (fv y = Zmod.zero) as ->.
        { apply fv_zero_iff. rewrite Hz. reflexivity. }
        ring.
Qed.

(** ** The affine class *)

Lemma GroupElem_SetNeg_ok (p : GroupElem) :
  magnitude 8 (a_y p) -> folded (a_y p) < 2^256 ->
  let r := fst (GroupElem_SetNeg p) in
  let p' := snd (GroupElem_SetNeg p) in
  a_fInfinity r = a_fInfinity p /\ a_x r = a_x p /\
  fv (a_y r) = (- fv (a_y p))%fp /\
  magnitude 2 (a_y r) /\ folded (a_y r) < 2^256 /\
  a_fInfinity p' = a_fInfinity p /\ a_x p' = a_x p /\
  canonical (a_y p') /\ fv (a_y p') = fv (a_y p) /\
  (on_curve_affine p -> on_curve_affine r).
Proof.
  intros My Fy. cbv zeta. unfold GroupElem_SetNeg.
  cbn [fst snd a_fInfinity a_x a_y].
  destruct (Normalize_ok _ My Fy) as [Cn Vn]. apply fv_eq_iff in Vn.
  destruct (SetNeg_canonical _ Cn) as (Mn & Fn & Vneg & _).
  rewrite Vneg, Vn. do 9 (split; [auto|]).
  rewrite !on_curve_affine_fv. cbn [a_x a_y]. rewrite Vneg, Vn.
  intros <-. ring.
Qed.

(** Negating twice gives the residues back. *)
Lemma GroupElem_SetNeg_twice (p : GroupElem) :
  magnitude 8 (a_y p) -> folded (a_y p) < 2^256 ->
  let r := fst (GroupElem_SetNeg (fst (GroupElem_SetNeg p))) in
  a_fInfinity r = a_fInfinity p /\ a_x r = a_x p /\ fv (a_y r) = fv (a_y p).
Proof.
  intros My Fy.
  pose proof (GroupElem_SetNeg_ok p My Fy) as H. cbv zeta in H.
  destruct H as (I1 & X1 & Y1 & M1 & F1 & _).
  assert (M8 : magnitude 8 (a_y (fst (GroupElem_SetNeg p)))).
  { unfold magnitude, limbs_le in *. lia. }
  pose proof (GroupElem_SetNeg_ok _ M8 F1) as H. cbv zeta in H.
  destruct H as (I2 & X2 & Y2 & _).
  cbv zeta. rewrite I2, X2, Y2, I1, X1, Y1. repeat split. ring.
Qed.

(** ** ToString of the points *)

Lemma GroupElem_ToString_ok (g : GroupElem) :
  (a_fInfinity g = true -> GroupElem_ToString g = ("(inf)"%string, g)) /\
  (a_fInfinity g = false ->
   fst (GroupElem_ToString g) =
     ("(" ++ fst (ToString (a_x g)) ++ "," ++ fst (ToString (a_y g)) ++ ")")%string /\
   String.length (fst (GroupElem_ToString g)) = 131%nat /\
   fst (GroupElem_ToString g) <> "(inf)"%string).
Proof.
  unfold GroupElem_ToString. split; intros ->; [reflexivity|].
  destruct (ToString (a_x g)) as [sx x] eqn:Ex.
  destruct (ToString (a_y g)) as [sy y] eqn:Ey. cbn [fst].
  assert (Lx : String.length sx = 64%nat).
  { change sx with (fst (sx, x)). rewrite <- Ex. apply ToString_length. }
  assert (Ly : String.length sy = 64%nat).
  { change sy with (fst (sy, y)). rewrite <- Ey. apply ToString_length. }
  assert (L : String.length ("(" ++ sx ++ "," ++ sy ++ ")") = 131%nat).
  { rewrite !append_length. cbn [String.length]. rewrite Lx, Ly. reflexivity. }
  split; [reflexivity|]. split; [exact L|].
  intros E. rewrite E in L. discriminate L.
Qed.

(** [GetAffine] on any receiver with coordinates within the magnitude-8
    bounds. *)
Lemma GetAffine_runs (this : addr) (h : Store) :
  coords8 (h this) ->
  runs (GetAffine this) h (fun aff h' =>
    a_fInfinity aff = false /\
    h' this = mkGroupElemJac (fInfinity (h this)) (a_x aff) (a_y aff)
                             (FieldElem_of_int 1) /\
    mult_output (a_x aff) /\ mult_output (a_y aff)).
Proof.
  intros C. unfold GetAffine.
  destruct (h this) as [f x0 y0 z0] eqn:Hthis.
  destruct C as (Mx & My & Mz). cbn [fInfinity gx gy gz] in *.
  destruct (SetInverse_ok _ Mz) as (w & Ew & _ & Ow).
  pose proof (mult_output_magnitude8 _ Ow) as Mw.
  destruct (SetSquare_fv w Mw) as (z2 & Ez2 & Vz2 & Oz2).
  pose proof (mult_output_magnitude8 _ Oz2) as Mz2.
  destruct (SetMult_fv w z2 Mw Mz2) as (z3 & Ez3 & Vz3 & Oz3).
  pose proof (mult_output_magnitude8 _ Oz3) as Mz3.
  destruct (SetMult_fv _ z2 Mx Mz2) as (X & EX & VX & OX).
  destruct (SetMult_fv _ z3 My Mz3) as (Y & EY & VY & OY).
  ld_this Hthis. lf Ew. st Hthis h1.
  ld_this Hthis. lf Ez2. lf Ez3.
  ld_this Hthis. lf EX. st Hthis h2.
  ld_this Hthis. lf EY. st Hthis h3.
  st Hthis h4.
  ld_this Hthis. ld_this Hthis. apply runs_ret.
  cbn [a_fInfinity a_x a_y]. auto.
Qed.

(** [GroupElemJac::ToString] prints coordinates whatever the flag of the
    receiver is, and leaves the receiver with [z = 1]. *)
Lemma GroupElemJac_ToString_ok (this : addr) (h : Store) :
  coords8 (h this) ->
  runs (GroupElemJac_ToString this) h (fun s h' =>
    s <> "(inf)"%string /\ String.length s = 131%nat /\
    String.get 0 s = Some "("%char /\
    fInfinity (h' this) = fInfinity (h this) /\
    gz (h' this) = FieldElem_of_int 1 /\
    s = ("(" ++ fst (ToString (gx (h' this))) ++ "," ++
         fst (ToString (gy (h' this))) ++ ")")%string).
Proof.
  intros C. unfold GroupElemJac_ToString.
  apply runs_bind. eapply runs_conseq; [apply GetAffine_runs; exact C|].
  cbv beta. intros aff h' (Hf & Hh & _ & _). apply runs_ret.
  destruct (GroupElem_ToString_ok aff) as [_ T].
  destruct (T Hf) as (E & L & N).
  split; [exact N|]. split; [exact L|].
  split; [rewrite E; reflexivity|].
  rewrite Hh. cbn [fInfinity gx gy gz]. auto.
Qed.



(** ** C5: GetAffine *)





(** ** C9: SetNeg *)

(** The limbs of [SetNeg(a, m)] when no subtraction borrows. *)
Lemma SetNeg_limbs (a : FieldElem) (m : Z) :
  0 <= m <= 4095 ->
  limbs_le a ((m + 1) * L0) ((m + 1) * L1) ((m + 1) * L1) ((m + 1) * L1)
           ((m + 1) * L4) ->
  SetNeg a m =
  mkFieldElem ((m + 1) * L0 - n0 a) ((m + 1) * L1 - n1 a) ((m + 1) * L1 - n2 a)
              ((m + 1) * L1 - n3 a) ((m + 1) * L4 - n4 a).
Proof.
  destruct a as [a0 a1 a2 a3 a4].
  unfold limbs_le, SetNeg, L0, L1, L4; cbn [n0 n1 n2 n3 n4].
  intros Hm (A0&A1&A2&A3&A4).
  rewrite (u64_small (m + 1)) by lia.
  rewrite !(u64_small (_ * (m + 1))) by lia.
  rewrite !(u64_small (_ - _)) by lia.
  f_equal; ring.
Qed.

Lemma tracked_limbs (a : FieldElem) (m : Z) :
  1 <= m <= 4095 -> tracked m a ->
  limbs_le a ((m + 1) * L0) ((m + 1) * L1) ((m + 1) * L1) ((m + 1) * L1)
           ((m + 1) * L4).
Proof. unfold tracked, limbs_le, L0, L1, L4. lia. Qed.

Lemma limbs_p_field : L0 + L1 * 2^52 + L1 * 2^104 + L1 * 2^156 + L4 * 2^208 = p_field.
Proof. reflexivity. Qed.

Lemma tracked_mono (a : FieldElem) (m m' : Z) :
  m <= m' -> tracked m a -> tracked m' a.
Proof. unfold tracked, limbs_le. intros H. nia. Qed.

(** The operations keep the limbs of an operand of tracked magnitude [m]
    within [m] times the bounds of a kernel output: the kernels,
    [Normalize] and [Set] give magnitude 1, [SetNeg(a, m)] gives [m + 1],
    [operator*=] multiplies and [operator+=] adds the magnitudes. *)
Lemma tracked_operations :
  (forall a b r, magnitude 8 a -> magnitude 8 b -> SetMult a b = Some r ->
                 tracked 1 r) /\
  (forall a r, magnitude 8 a -> SetSquare a = Some r -> tracked 1 r) /\
  (forall a, magnitude 8 a -> folded a < 2^256 -> tracked 1 (Normalize a)) /\
  (forall w0 w1 w2 w3,
     0 <= w0 < 2^64 -> 0 <= w1 < 2^64 -> 0 <= w2 < 2^64 -> 0 <= w3 < 2^64 ->
     tracked 1 (Set_ [w0; w1; w2; w3])) /\
  (forall a m, 1 <= m <= 4095 -> tracked m a -> tracked (m + 1) (SetNeg a m)) /\
  (forall a M v, 1 <= M -> 0 <= v -> M * v <= 2047 -> tracked M a ->
                 tracked (M * v) (mul_int a v)) /\
  (forall r a M N, M + N <= 2047 -> tracked M r -> tracked N a ->
                   tracked (M + N) (add_assign r a)).
Proof.
  split; [|split; [|split; [|split; [|split; [|split]]]]].
  - intros a b r Ma Mb E. destruct (SetMult_ok a b Ma Mb) as (r' & E' & _ & O).
    rewrite E in E'. injection E' as ->. unfold tracked.
    unfold mult_output, limbs_le in *. lia.
  - intros a r Ma E. destruct (SetSquare_ok a Ma) as (r' & E' & _ & O).
    rewrite E in E'. injection E' as ->. unfold tracked.
    unfold mult_output, limbs_le in *. lia.
  - intros a Ma Fa. destruct (Normalize_ok a Ma Fa) as [[C _] _].
    unfold tracked, limbs_le in *. lia.
  - intros w0 w1 w2 w3 W0 W1 W2 W3.
    destruct (Set_value w0 w1 w2 w3 W0 W1 W2 W3) as [_ Mk].
    unfold tracked, masked, limbs_le in *. lia.
  - intros a m Hm Ht.
    assert (Hm' : 0 <= m <= 4095) by lia.
    rewrite (SetNeg_limbs a m Hm' (tracked_limbs a m Hm Ht)).
    unfold tracked, limbs_le, L0, L1, L4 in *; cbn [n0 n1 n2 n3 n4]. lia.
  - intros a M v HM Hv HMv Ht. unfold tracked in *.
    assert (Bv : 0 <= v < 2^64) by nia.
    destruct (mul_int_ok a v _ _ _ _ _ Bv Ht) as [Hl _]; try nia.
    unfold limbs_le in *. nia.
  - intros r a M N HMN Hr Ha. unfold tracked in *.
    destruct (add_assign_ok r a _ _ _ _ _ _ _ _ _ _ Hr Ha) as [Hl _]; try lia.
    unfold limbs_le in *. lia.
Qed.

(** C9, counterexample.  The magnitude-[m] bounds of the class comment
    (limbs at most [m (2^53 - 1)]) are not enough for [SetNeg(a, m)].  On
    [setneg_bad], within the magnitude-1 bounds, with [m = 1], limb 1
    computes [2 * (2^52 - 1) - (2^53 - 1)], which borrows and wraps to
    [2^64 - 1]; the result is outside the magnitude-2 bounds and is not the
    negative of [a] modulo the prime.  Nor is every [m >= 1] right: with
    [m = 4096] the product [(m + 1) * (2^52 - 1)] wraps, and [SetNeg(0, m)]
    is not congruent to 0. *)
Theorem C9_SetNeg_borrows :
  (magnitude 1 setneg_bad /\
   2 * 0xFFFFFFFFFFFFF - n1 setneg_bad = -1 /\
   n1 (SetNeg setneg_bad 1) = 2^64 - 1 /\
   ~ magnitude 2 (SetNeg setneg_bad 1) /\
   (value setneg_bad + value (SetNeg setneg_bad 1)) mod p_field <> 0) /\
  (magnitude 4096 (FieldElem_of_int 0) /\
   n1 (SetNeg (FieldElem_of_int 0) 4096) = 2^52 - 4097 /\
   (value (FieldElem_of_int 0) + value (SetNeg (FieldElem_of_int 0) 4096))
     mod p_field <> 0).
Proof.
  split.
  - split; [unfold magnitude, limbs_le, setneg_bad; cbn [n0 n1 n2 n3 n4]; lia|].
    split; [reflexivity|].
    split; [vm_compute; reflexivity|].
    split.
    + unfold magnitude, limbs_le. intros (_ & (_ & H) & _).
      vm_compute in H. apply H. reflexivity.
    + vm_compute. discriminate.
  - split; [unfold magnitude, limbs_le; cbn; lia|].
    split; [vm_compute; reflexivity|].
    vm_compute. discriminate.
Qed.

(** C9, amended.  For [0 <= m <= 4095] and an operand whose limbs are at
    most [m + 1] times the limbs of the prime: no limb subtraction
    [(m + 1) L_i - a.n_i] borrows, the result is congruent to [-a], so that
    [a + SetNeg(a, m)] is congruent to 0, and the limbs of the result are
    within the magnitude-[(m + 1)] bounds.  The operands of tracked
    magnitude [m >= 1], whose limbs are at most [m] times the bounds of a
    kernel output ([tracked_operations]), are of this kind. *)
Theorem C9_SetNeg_amended (a : FieldElem) (m : Z) :
  0 <= m <= 4095 ->
  (1 <= m -> tracked m a ->
   limbs_le a ((m + 1) * L0) ((m + 1) * L1) ((m + 1) * L1) ((m + 1) * L1)
            ((m + 1) * L4)) /\
  (limbs_le a ((m + 1) * L0) ((m + 1) * L1) ((m + 1) * L1) ((m + 1) * L1)
            ((m + 1) * L4) ->
   n0 (SetNeg a m) = (m + 1) * L0 - n0 a /\
   n1 (SetNeg a m) = (m + 1) * L1 - n1 a /\
   n2 (SetNeg a m) = (m + 1) * L1 - n2 a /\
   n3 (SetNeg a m) = (m + 1) * L1 - n3 a /\
   n4 (SetNeg a m) = (m + 1) * L4 - n4 a /\
   eqp (value (SetNeg a m)) (- value a) /\
   eqp (value a + value (SetNeg a m)) 0 /\
   magnitude (m + 1) (SetNeg a m)).
Proof.
  intros Hm. split; [intros H1 Ht; apply tracked_limbs; [lia|exact Ht]|].
  intros Ha. rewrite (SetNeg_limbs a m Hm Ha). cbn [n0 n1 n2 n3 n4].
  do 5 (split; [reflexivity|]).
  assert (V : value (mkFieldElem ((m + 1) * L0 - n0 a) ((m + 1) * L1 - n1 a)
                       ((m + 1) * L1 - n2 a) ((m + 1) * L1 - n3 a)
                       ((m + 1) * L4 - n4 a)) = (m + 1) * p_field - value a).
  { rewrite <- limbs_p_field. unfold value; cbn [n0 n1 n2 n3 n4]. ring. }
  rewrite V. split; [|split].
  - unfold eqp.
    replace ((m + 1) * p_field - value a) with (- value a + (m + 1) * p_field)
      by ring.
    apply Z_mod_plus_full.
  - unfold eqp.
    replace (value a + ((m + 1) * p_field - value a)) with (0 + (m + 1) * p_field)
      by ring.
    apply Z_mod_plus_full.
  - unfold magnitude, limbs_le in *; cbn [n0 n1 n2 n3 n4].
    unfold L0, L1, L4 in *. lia.
Qed.

Lemma C9_SetNeg_amended_witness :
  tracked 3 (mul_int (gx generator) 3) /\
  limbs_le (mul_int (gx generator) 3) ((3 + 1) * L0) ((3 + 1) * L1)
           ((3 + 1) * L1) ((3 + 1) * L1) ((3 + 1) * L4) /\
  n1 (SetNeg (mul_int (gx generator) 3) 3) =
    (3 + 1) * L1 - n1 (mul_int (gx generator) 3) /\
  eqp (value (mul_int (gx generator) 3) +
       value (SetNeg (mul_int (gx generator) 3) 3)) 0 /\
  magnitude (3 + 1) (SetNeg (mul_int (gx generator) 3) 3).
Proof.
  assert (Hm : 0 <= 3 <= 4095) by lia.
  assert (T : tracked 3 (mul_int (gx generator) 3))
    by (unfold tracked, limbs_le; vm_compute; intuition discriminate).
  destruct (C9_SetNeg_amended (mul_int (gx generator) 3) 3 Hm) as [B R].
  assert (H : limbs_le (mul_int (gx generator) 3) ((3 + 1) * L0) ((3 + 1) * L1)
                ((3 + 1) * L1) ((3 + 1) * L1) ((3 + 1) * L4))
    by (apply B; [lia|exact T]).
  split; [exact T|]. split; [exact H|].
  destruct (R H) as (_ & E1 & _ & _ & _ & _ & S & M).
  split; [exact E1|]. split; [exact S|exact M].
Defined.

(** ** C6: SetAdd *)

(** C6.  The comparisons and the formulas of [SetAdd] are those of the
    claim ([SetAdd_outcomes], [SetAdd_affine_outcomes]), but two of its cases
    do not give the double of [p].
    - With an affine [q], [u1] and [s1] are [Normalize] of the [x] and [y] of
      [p].  On [point_bad_x], a point of the curve that [IsValid] accepts,
      whose [x] is built by [SetHex], [operator*=] and [SetNeg], [Normalize]
      drops a carry and gives 0 for an [x] congruent to [0x1000003D1].
      Adding the same point in affine coordinates, in place
      ([U1 = U2] and [S1 = S2]), the comparison of [u1] and [u2] fails, the
      formulas for distinct points run, and the receiver is left finite and
      off the curve, where [SetDouble(p)] gives a point of the curve.
    - With Jacobian [p] and [q] both the generator and a receiver freshly
      constructed, [SetDouble(p)] is reached, tests the [y] of the receiver,
      and the result is flagged infinity. *)
Theorem C6_SetAdd_misses_the_double :
  (fInfinity point_bad_x = false /\ IsValid point_bad_x = Some true /\
   on_curve point_bad_x /\ magnitude 3 (gx point_bad_x) /\
   a_fInfinity affine_same_point = false /\ on_curve_affine affine_same_point /\
   canonical (a_x affine_same_point) /\ canonical (a_y affine_same_point) /\
   fv (gx point_bad_x) = aU2 point_bad_x affine_same_point /\
   fv (gy point_bad_x) = aS2 point_bad_x affine_same_point /\
   Normalize (gx point_bad_x) = FieldElem_of_int 0 /\
   (exists g,
      object_after (SetAdd_affine 0%nat 0%nat affine_same_point)
                   (fun _ => point_bad_x) 0%nat = Some g /\
      fInfinity g = false /\ ~ on_curve g /\ IsValid g = Some false) /\
   (exists d,
      object_after (SetDouble 0%nat 0%nat) (fun _ => point_bad_x) 0%nat = Some d /\
      fInfinity d = false /\ on_curve d /\ IsValid d = Some true)) /\
  (fInfinity generator = false /\ ~ eqp (value (gy generator)) 0 /\
   exists g,
     object_after (SetAdd 0%nat 1%nat 1%nat)
                  (two_objects GroupElemJac_default generator) 0%nat = Some g /\
     fInfinity g = true).
Proof.
  split.
  - split; [reflexivity|]. split; [vm_compute; reflexivity|].
    split; [apply on_curve_dec; vm_compute; reflexivity|].
    split; [vm_compute; intuition discriminate|].
    split; [reflexivity|].
    split; [unfold on_curve_affine, eqp; vm_compute; reflexivity|].
    split; [vm_compute; intuition discriminate|].
    split; [vm_compute; intuition discriminate|].
    split; [apply Zmod.to_Z_inj; vm_compute; reflexivity|].
    split; [apply Zmod.to_Z_inj; vm_compute; reflexivity|].
    split; [vm_compute; reflexivity|].
    split.
    + eexists. split; [vm_compute; reflexivity|].
      split; [reflexivity|]. split.
      * rewrite on_curve_dec. vm_compute. discriminate.
      * vm_compute. reflexivity.
    + eexists. split; [vm_compute; reflexivity|].
      split; [reflexivity|]. split.
      * apply on_curve_dec. vm_compute. reflexivity.
      * vm_compute. reflexivity.
  - split; [reflexivity|]. split; [unfold eqp; vm_compute; discriminate|].
    eexists. split; [vm_compute; reflexivity|]. reflexivity.
Qed.

(** * Further properties of the operations *)

(** ** The field class *)

(** X1.  On an operand within the magnitude-8 bounds whose folded value
    fits 256 bits (every output of [SetMult], [SetSquare], [Set] and
    [SetHex] is one), [Normalize] returns the canonical form of the same
    residue: limbs within their masks, value below the prime and equal to
    the value of the operand modulo the prime; normalising again changes
    nothing. *)
Theorem X1_Normalize_canonical_form (a : FieldElem) :
  magnitude 8 a -> folded a < 2^256 ->
  canonical (Normalize a) /\
  value (Normalize a) = value a mod p_field /\
  Normalize (Normalize a) = Normalize a.
Proof.
  intros Ma Fa. destruct (Normalize_value a Ma Fa) as [Cn Vn].
  split; [exact Cn|]. split; [exact Vn|]. apply Normalize_canonical, Cn.
Qed.

Lemma X1_Normalize_canonical_form_witness :
  magnitude 8 (FieldElem_of_int 7) /\ folded (FieldElem_of_int 7) < 2^256 /\
  canonical (Normalize (FieldElem_of_int 7)) /\
  Normalize (Normalize (FieldElem_of_int 7)) = Normalize (FieldElem_of_int 7).
Proof.
  assert (M : magnitude 8 (FieldElem_of_int 7))
    by (unfold magnitude, limbs_le; cbn; lia).
  assert (F : folded (FieldElem_of_int 7) < 2^256) by (vm_compute; reflexivity).
  split; [exact M|]. split; [exact F|].
  destruct (X1_Normalize_canonical_form (FieldElem_of_int 7) M F) as (C & _ & I).
  split; [exact C|exact I].
Defined.

(** X2.  [IsZero] on such an operand answers whether its value is
    congruent to 0 modulo the prime, and leaves the operand in canonical
    form. *)
Theorem X2_IsZero_decides (a : FieldElem) :
  magnitude 8 a -> folded a < 2^256 ->
  (fst (IsZero a) = true <-> eqp (value a) 0) /\
  snd (IsZero a) = Normalize a /\ canonical (snd (IsZero a)).
Proof.
  intros Ma Fa. destruct (IsZero_ok a Ma Fa) as [D S].
  split; [exact D|]. split; [exact S|]. rewrite S. apply Normalize_ok; assumption.
Qed.

Lemma X2_IsZero_decides_witness :
  magnitude 8 (FieldElem_of_int 0) /\ folded (FieldElem_of_int 0) < 2^256 /\
  (fst (IsZero (FieldElem_of_int 0)) = true <-> eqp (value (FieldElem_of_int 0)) 0).
Proof.
  assert (M : magnitude 8 (FieldElem_of_int 0))
    by (unfold magnitude, limbs_le; cbn; lia).
  assert (F : folded (FieldElem_of_int 0) < 2^256) by (vm_compute; reflexivity).
  split; [exact M|]. split; [exact F|].
  exact (proj1 (X2_IsZero_decides (FieldElem_of_int 0) M F)).
Defined.

(** X3.  [operator==] on two such operands answers whether their values
    are congruent modulo the prime, and leaves both in canonical form. *)
Theorem X3_operator_eq_decides (a b : FieldElem) :
  magnitude 8 a -> folded a < 2^256 -> magnitude 8 b -> folded b < 2^256 ->
  exists e, eq_op a b = (e, Normalize a, Normalize b) /\
    (e = true <-> eqp (value a) (value b)) /\
    canonical (Normalize a) /\ canonical (Normalize b).
Proof.
  intros Ma Fa Mb Fb.
  destruct (eq_op_ok a b Ma Fa Mb Fb) as (e & a' & b' & E & Ca & _ & Cb & _ & He).
  unfold eq_op in E. injection E as <- <- <-.
  exists (same_limbs (Normalize a) (Normalize b)).
  split; [reflexivity|]. split; [exact He|]. split; assumption.
Qed.

Lemma X3_operator_eq_decides_witness :
  magnitude 8 (FieldElem_of_int 7) /\ folded (FieldElem_of_int 7) < 2^256 /\
  magnitude 8 (FieldElem_of_int 8) /\ folded (FieldElem_of_int 8) < 2^256 /\
  exists e, eq_op (FieldElem_of_int 7) (FieldElem_of_int 8) =
            (e, Normalize (FieldElem_of_int 7), Normalize (FieldElem_of_int 8)) /\
            (e = true <-> eqp 7 8).
Proof.
  assert (M7 : magnitude 8 (FieldElem_of_int 7))
    by (unfold magnitude, limbs_le; cbn; lia).
  assert (F7 : folded (FieldElem_of_int 7) < 2^256) by (vm_compute; reflexivity).
  assert (M8 : magnitude 8 (FieldElem_of_int 8))
    by (unfold magnitude, limbs_le; cbn; lia).
  assert (F8 : folded (FieldElem_of_int 8) < 2^256) by (vm_compute; reflexivity).
  split; [exact M7|]. split; [exact F7|]. split; [exact M8|]. split; [exact F8|].
  destruct (X3_operator_eq_decides _ _ M7 F7 M8 F8) as (e & E & D & _).
  exists e. split; [exact E|exact D].
Defined.

(** X4.  [IsOdd] on such an operand is the parity of the representative in
    [[0, p)] of its value. *)
Theorem X4_IsOdd_parity (a : FieldElem) :
  magnitude 8 a -> folded a < 2^256 ->
  fst (IsOdd a) = Z.odd (value a mod p_field) /\ snd (IsOdd a) = Normalize a.
Proof. exact (IsOdd_ok a). Qed.

Lemma X4_IsOdd_parity_witness :
  magnitude 8 (FieldElem_of_int 7) /\ folded (FieldElem_of_int 7) < 2^256 /\
  fst (IsOdd (FieldElem_of_int 7)) = Z.odd (value (FieldElem_of_int 7) mod p_field).
Proof.
  assert (M : magnitude 8 (FieldElem_of_int 7))
    by (unfold magnitude, limbs_le; cbn; lia).
  assert (F : folded (FieldElem_of_int 7) < 2^256) by (vm_compute; reflexivity).
  split; [exact M|]. split; [exact F|].
  exact (proj1 (X4_IsOdd_parity (FieldElem_of_int 7) M F)).
Defined.

(** X5.  [Get] on such an operand gives four words below [2^64] that are
    the base-[2^64] digits, word 0 the least significant, of the value
    modulo the prime; the operand is left normalised. *)
Theorem X5_Get_words (a : FieldElem) :
  magnitude 8 a -> folded a < 2^256 ->
  exists w0 w1 w2 w3,
    fst (Get a) = [w0; w1; w2; w3] /\
    0 <= w0 < 2^64 /\ 0 <= w1 < 2^64 /\ 0 <= w2 < 2^64 /\ 0 <= w3 < 2^64 /\
    words_value [w0; w1; w2; w3] = value a mod p_field /\
    snd (Get a) = Normalize a.
Proof. exact (Get_ok a). Qed.

Lemma X5_Get_words_witness :
  magnitude 8 (FieldElem_of_int 7) /\ folded (FieldElem_of_int 7) < 2^256 /\
  exists w0 w1 w2 w3,
    fst (Get (FieldElem_of_int 7)) = [w0; w1; w2; w3] /\
    words_value [w0; w1; w2; w3] = value (FieldElem_of_int 7) mod p_field.
Proof.
  assert (M : magnitude 8 (FieldElem_of_int 7))
    by (unfold magnitude, limbs_le; cbn; lia).
  assert (F : folded (FieldElem_of_int 7) < 2^256) by (vm_compute; reflexivity).
  split; [exact M|]. split; [exact F|].
  destruct (X5_Get_words (FieldElem_of_int 7) M F)
    as (w0 & w1 & w2 & w3 & E & _ & _ & _ & _ & V & _).
  exists w0, w1, w2, w3. split; [exact E|exact V].
Defined.

(** X6.  [Set] on four words below [2^64] gives limbs within their masks
    whose value is the 256-bit integer of the words, word 0 the least
    significant; the value is not reduced modulo the prime. *)
Theorem X6_Set_value (w0 w1 w2 w3 : Z) :
  0 <= w0 < 2^64 -> 0 <= w1 < 2^64 -> 0 <= w2 < 2^64 -> 0 <= w3 < 2^64 ->
  value (Set_ [w0; w1; w2; w3]) = w0 + w1 * 2^64 + w2 * 2^128 + w3 * 2^192 /\
  masked (Set_ [w0; w1; w2; w3]) /\ magnitude 1 (Set_ [w0; w1; w2; w3]).
Proof.
  intros W0 W1 W2 W3. destruct (Set_value w0 w1 w2 w3 W0 W1 W2 W3) as [V Mk].
  split; [exact V|]. split; [exact Mk|].
  unfold masked, magnitude, limbs_le in *. lia.
Qed.

Lemma X6_Set_value_witness :
  value (Set_ [2^64 - 1; 2^64 - 1; 2^64 - 1; 2^64 - 1]) = 2^256 - 1 /\
  masked (Set_ [2^64 - 1; 2^64 - 1; 2^64 - 1; 2^64 - 1]).
Proof.
  destruct (X6_Set_value (2^64 - 1) (2^64 - 1) (2^64 - 1) (2^64 - 1))
    as (V & Mk & _); try lia.
  split; [rewrite V; reflexivity|exact Mk].
Defined.

(** X7.  [Set] of the words that [Get] returns is the normalised
    operand. *)
Theorem X7_Set_after_Get (a : FieldElem) :
  magnitude 8 a -> folded a < 2^256 -> Set_ (fst (Get a)) = Normalize a.
Proof. exact (Set_Get a). Qed.

Lemma X7_Set_after_Get_witness :
  magnitude 8 (FieldElem_of_int 7) /\ folded (FieldElem_of_int 7) < 2^256 /\
  Set_ (fst (Get (FieldElem_of_int 7))) = Normalize (FieldElem_of_int 7).
Proof.
  assert (M : magnitude 8 (FieldElem_of_int 7))
    by (unfold magnitude, limbs_le; cbn; lia).
  assert (F : folded (FieldElem_of_int 7) < 2^256) by (vm_compute; reflexivity).
  split; [exact M|]. split; [exact F|].
  exact (X7_Set_after_Get (FieldElem_of_int 7) M F).
Defined.

(** X8.  [Get] of what [Set] makes of four words below [2^64] gives the
    words back, when the integer they stand for is below the prime; the
    element is left as [Set] made it. *)
Theorem X8_Get_after_Set (w0 w1 w2 w3 : Z) :
  0 <= w0 < 2^64 -> 0 <= w1 < 2^64 -> 0 <= w2 < 2^64 -> 0 <= w3 < 2^64 ->
  words_value [w0; w1; w2; w3] < p_field ->
  fst (Get (Set_ [w0; w1; w2; w3])) = [w0; w1; w2; w3] /\
  snd (Get (Set_ [w0; w1; w2; w3])) = Set_ [w0; w1; w2; w3].
Proof. exact (Get_Set w0 w1 w2 w3). Qed.

Lemma X8_Get_after_Set_witness :
  words_value [1; 2; 3; 4] < p_field /\
  fst (Get (Set_ [1; 2; 3; 4])) = [1; 2; 3; 4].
Proof.
  assert (H : words_value [1; 2; 3; 4] < p_field) by (vm_compute; reflexivity).
  split; [exact H|].
  refine (proj1 (X8_Get_after_Set 1 2 3 4 _ _ _ _ H)); lia.
Defined.

(** X9.  [SetNeg(a, m)] on an operand whose limbs are at most [m + 1] times
    the limbs of the prime (an operand in canonical form, or the output of
    a kernel, for every [m >= 1]): no limb subtraction borrows, the value
    is [(m + 1) p - a], so that [a + SetNeg(a, m)] is congruent to 0, and
    the limbs of the result are within the same bounds. *)
Theorem X9_SetNeg_negates (a : FieldElem) (m : Z) :
  0 <= m <= 1023 ->
  limbs_le a ((m + 1) * L0) ((m + 1) * L1) ((m + 1) * L1) ((m + 1) * L1)
           ((m + 1) * L4) ->
  limbs_le (SetNeg a m) ((m + 1) * L0) ((m + 1) * L1) ((m + 1) * L1)
           ((m + 1) * L1) ((m + 1) * L4) /\
  value (SetNeg a m) = (m + 1) * p_field - value a /\
  eqp (value a + value (SetNeg a m)) 0.
Proof.
  intros Hm Ha.
  destruct (SetNeg_ok a m _ _ _ _ _ Hm Ha) as [Hl Hv]; try lia.
  split; [exact Hl|]. split; [exact Hv|].
  unfold eqp. rewrite Hv.
  replace (value a + ((m + 1) * p_field - value a)) with (0 + (m + 1) * p_field)
    by ring.
  apply Z_mod_plus_full.
Qed.

Lemma X9_SetNeg_negates_witness :
  limbs_le (FieldElem_of_int 7) ((1 + 1) * L0) ((1 + 1) * L1) ((1 + 1) * L1)
           ((1 + 1) * L1) ((1 + 1) * L4) /\
  eqp (value (FieldElem_of_int 7) + value (SetNeg (FieldElem_of_int 7) 1)) 0.
Proof.
  assert (H : limbs_le (FieldElem_of_int 7) ((1 + 1) * L0) ((1 + 1) * L1)
                ((1 + 1) * L1) ((1 + 1) * L1) ((1 + 1) * L4))
    by (unfold limbs_le, L0, L1, L4; cbn; lia).
  split; [exact H|].
  refine (proj2 (proj2 (X9_SetNeg_negates (FieldElem_of_int 7) 1 _ H))). lia.
Defined.

(** X10.  [operator*=] by a constant [v >= 0] multiplies the value by [v]
    (as an integer, no limb wraps) and the magnitude by [v], as long as the
    resulting magnitude is at most 2047. *)
Theorem X10_mul_int_scales (a : FieldElem) (M v : Z) :
  1 <= M -> 0 <= v -> M * v <= 2047 -> magnitude M a ->
  magnitude (M * v) (mul_int a v) /\ value (mul_int a v) = v * value a.
Proof. exact (mul_int_magnitude a M v). Qed.

Lemma X10_mul_int_scales_witness :
  magnitude 1 (FieldElem_of_int 7) /\
  magnitude (1 * 3) (mul_int (FieldElem_of_int 7) 3) /\
  value (mul_int (FieldElem_of_int 7) 3) = 3 * value (FieldElem_of_int 7).
Proof.
  assert (M : magnitude 1 (FieldElem_of_int 7))
    by (unfold magnitude, limbs_le; cbn; lia).
  split; [exact M|].
  refine (X10_mul_int_scales (FieldElem_of_int 7) 1 3 _ _ _ M); lia.
Defined.

(** X11.  [operator+=] adds the values (as integers, no limb wraps) and the
    magnitudes, as long as the resulting magnitude is at most 2047. *)
Theorem X11_add_assign_adds (r a : FieldElem) (M N : Z) :
  M + N <= 2047 -> magnitude M r -> magnitude N a ->
  magnitude (M + N) (add_assign r a) /\
  value (add_assign r a) = value r + value a.
Proof. exact (add_assign_magnitude r a M N). Qed.

Lemma X11_add_assign_adds_witness :
  magnitude 1 (FieldElem_of_int 7) /\ magnitude 1 (FieldElem_of_int 8) /\
  value (add_assign (FieldElem_of_int 7) (FieldElem_of_int 8)) =
  value (FieldElem_of_int 7) + value (FieldElem_of_int 8).
Proof.
  assert (M7 : magnitude 1 (FieldElem_of_int 7))
    by (unfold magnitude, limbs_le; cbn; lia).
  assert (M8 : magnitude 1 (FieldElem_of_int 8))
    by (unfold magnitude, limbs_le; cbn; lia).
  split; [exact M7|]. split; [exact M8|].
  refine (proj2 (X11_add_assign_adds _ _ 1 1 _ M7 M8)). lia.
Defined.

(** X12.  [SetInverse] on an operand within the magnitude-8 bounds returns
    a result within the magnitude-1 bounds; the result is congruent to 0
    exactly when the operand is (there is no error on 0), and the inverse
    of an operand congruent to 1 is congruent to 1. *)
Theorem X12_SetInverse_zero_and_one (a : FieldElem) :
  magnitude 8 a ->
  exists r, SetInverse a = Some r /\ magnitude 1 r /\
    (eqp (value r) 0 <-> eqp (value a) 0) /\
    (eqp (value a) 1 -> eqp (value r) 1).
Proof.
  intros Ma. destruct (SetInverse_edges a Ma) as (r & Er & Mr & Hz & H1).
  exists r. split; [exact Er|]. split; [exact Mr|].
  rewrite !eqp_fv. exact (conj Hz H1).
Qed.

Lemma X12_SetInverse_zero_and_one_witness :
  magnitude 8 (FieldElem_of_int 0) /\
  exists r, SetInverse (FieldElem_of_int 0) = Some r /\ eqp (value r) 0.
Proof.
  assert (M : magnitude 8 (FieldElem_of_int 0))
    by (unfold magnitude, limbs_le; cbn; lia).
  split; [exact M|].
  destruct (X12_SetInverse_zero_and_one (FieldElem_of_int 0) M)
    as (r & Er & _ & Hz & _).
  exists r. split; [exact Er|]. apply Hz. reflexivity.
Defined.

(** ** Hexadecimal strings *)

(** X13.  [ToString] on an operand on which [Normalize] is right gives 64
    characters, the character at index [k] being the upper-case
    hexadecimal digit of weight [16^(63-k)] of the value modulo the
    prime. *)
Theorem X13_ToString_digits (a : FieldElem) :
  magnitude 8 a -> folded a < 2^256 ->
  String.length (fst (ToString a)) = 64%nat /\
  (forall k, (k < 64)%nat ->
     String.get k (fst (ToString a)) =
     Some (hexchar (hex_digit (value a mod p_field) (63 - k)))) /\
  snd (ToString a) = Normalize a.
Proof.
  intros Ma Fa. split; [apply ToString_length|]. split.
  - intros k Hk. apply ToString_digits; assumption.
  - unfold ToString. destruct (Get a) as [tmp a'] eqn:EG. cbn [snd].
    change a' with (snd (tmp, a')). rewrite <- EG. reflexivity.
Qed.

Lemma X13_ToString_digits_witness :
  magnitude 8 (FieldElem_of_int 7) /\ folded (FieldElem_of_int 7) < 2^256 /\
  String.get 63 (fst (ToString (FieldElem_of_int 7))) =
  Some (hexchar (hex_digit (value (FieldElem_of_int 7) mod p_field) (63 - 63))).
Proof.
  assert (M : magnitude 8 (FieldElem_of_int 7))
    by (unfold magnitude, limbs_le; cbn; lia).
  assert (F : folded (FieldElem_of_int 7) < 2^256) by (vm_compute; reflexivity).
  split; [exact M|]. split; [exact F|].
  apply (proj1 (proj2 (X13_ToString_digits (FieldElem_of_int 7) M F))). lia.
Defined.

(** X14.  Rendering and parsing back: [SetHex] of the string that
    [ToString] returns is the normalised operand. *)
Theorem X14_SetHex_after_ToString (a : FieldElem) :
  magnitude 8 a -> folded a < 2^256 ->
  SetHex (fst (ToString a)) = Normalize a.
Proof. exact (SetHex_ToString a). Qed.

Lemma X14_SetHex_after_ToString_witness :
  magnitude 8 (FieldElem_of_int 7) /\ folded (FieldElem_of_int 7) < 2^256 /\
  SetHex (fst (ToString (FieldElem_of_int 7))) = Normalize (FieldElem_of_int 7).
Proof.
  assert (M : magnitude 8 (FieldElem_of_int 7))
    by (unfold magnitude, limbs_le; cbn; lia).
  assert (F : folded (FieldElem_of_int 7) < 2^256) by (vm_compute; reflexivity).
  split; [exact M|]. split; [exact F|].
  exact (X14_SetHex_after_ToString (FieldElem_of_int 7) M F).
Defined.

(** X15.  Parsing and rendering back: for a string of 64 upper-case
    hexadecimal digits that stands for a value below the prime,
    [ToString] of [SetHex] of the string is the string, and the element is
    left as [SetHex] made it. *)
Theorem X15_ToString_after_SetHex (str : string) :
  String.length str = 64%nat -> upper_hex str ->
  left_aligned_value str < p_field ->
  ToString (SetHex str) = (str, SetHex str).
Proof. exact (ToString_SetHex str). Qed.

(** X16.  What [SetHex] depends on: two strings whose characters have the
    same table value [cvt] at every index below 64 (an absent character
    counting as 0) give the same element.  So letters may be of either
    case, and the characters from index 64 on are ignored. *)
Theorem X16_SetHex_depends_on_digits (s t : string) :
  ((forall i, (i < 64)%nat -> hex_digit_at s i = hex_digit_at t i) ->
   SetHex s = SetHex t) /\
  SetHex (map_string to_upper s) = SetHex s /\
  SetHex (substring 0 64 s) = SetHex s.
Proof.
  split; [apply SetHex_ext|]. split; [apply SetHex_upper|apply SetHex_first_64].
Qed.

Lemma X15_ToString_after_SetHex_witness :
  String.length "79BE667EF9DCBBAC55A06295CE870B07029BFCDB2DCE28D959F2815B16F81798"
    = 64%nat /\
  upper_hex "79BE667EF9DCBBAC55A06295CE870B07029BFCDB2DCE28D959F2815B16F81798" /\
  left_aligned_value
    "79BE667EF9DCBBAC55A06295CE870B07029BFCDB2DCE28D959F2815B16F81798" < p_field /\
  fst (ToString (SetHex
    "79BE667EF9DCBBAC55A06295CE870B07029BFCDB2DCE28D959F2815B16F81798")) =
  "79BE667EF9DCBBAC55A06295CE870B07029BFCDB2DCE28D959F2815B16F81798"%string.
Proof.
  assert (L : String.length
                "79BE667EF9DCBBAC55A06295CE870B07029BFCDB2DCE28D959F2815B16F81798"
              = 64%nat) by reflexivity.
  assert (U : upper_hex
                "79BE667EF9DCBBAC55A06295CE870B07029BFCDB2DCE28D959F2815B16F81798")
    by (apply upper_hex_check; vm_compute; reflexivity).
  assert (P : left_aligned_value
                "79BE667EF9DCBBAC55A06295CE870B07029BFCDB2DCE28D959F2815B16F81798"
              < p_field) by (vm_compute; reflexivity).
  split; [exact L|]. split; [exact U|]. split; [exact P|].
  rewrite (X15_ToString_after_SetHex _ L U P). reflexivity.
Defined.

Lemma X16_SetHex_depends_on_digits_witness :
  SetHex "1" = SetHex (pad_right "1").
Proof.
  apply (proj1 (X16_SetHex_depends_on_digits "1" (pad_right "1"))).
  intros i Hi. symmetry. apply hex_digit_at_pad_right; [simpl; lia|exact Hi].
Defined.

(** ** The group classes *)



(** X18.  [IsValid] is [false] on a point flagged infinity.  On a finite
    point with coordinates within the magnitude-8 bounds it returns an
    answer (no 128-bit intermediate leaves its range); the right-hand side
    [x3] that it computes is within the magnitude-8 bounds and congruent to
    [x^3 + 7 z^6]; and where [Normalize] is right on [x3], the answer is
    [true] exactly when [y^2 = x^3 + 7 z^6] modulo the prime. *)
Theorem X18_IsValid_decides (g : GroupElemJac) :
  (fInfinity g = true -> IsValid g = Some false) /\
  (fInfinity g = false -> coords8 g ->
   exists x3,
     IsValid_rhs g = Some x3 /\ magnitude 8 x3 /\
     eqp (value x3)
         (value (gx g) * value (gx g) * value (gx g) +
          7 * (value (gz g) * value (gz g) * value (gz g) *
               (value (gz g) * value (gz g) * value (gz g)))) /\
     (exists b, IsValid g = Some b) /\
     (folded x3 < 2^256 -> (IsValid g = Some true <-> on_curve g))).
Proof. exact (IsValid_decides g). Qed.

Lemma X18_IsValid_decides_witness :
  (fInfinity GroupElemJac_default = true /\
   IsValid GroupElemJac_default = Some false) /\
  (fInfinity generator = false /\ coords8 generator /\
   (IsValid generator = Some true <-> on_curve generator)) /\
  (fInfinity point_y0 = false /\ coords8 point_y0 /\
   (IsValid point_y0 = Some true <-> on_curve point_y0)).
Proof.
  assert (I : fInfinity GroupElemJac_default = true) by reflexivity.
  assert (F : fInfinity generator = false) by reflexivity.
  assert (C : coords8 generator)
    by (unfold coords8, magnitude, limbs_le; vm_compute; intuition discriminate).
  assert (F0 : fInfinity point_y0 = false) by reflexivity.
  assert (C0 : coords8 point_y0)
    by (unfold coords8, magnitude, limbs_le; cbn; lia).
  split; [|split].
  - split; [exact I|]. exact (proj1 (X18_IsValid_decides GroupElemJac_default) I).
  - split; [exact F|]. split; [exact C|].
    destruct (proj2 (X18_IsValid_decides generator) F C) as (x3 & E & _ & _ & _ & D).
    apply D. vm_compute in E. injection E as <-. vm_compute. reflexivity.
  - split; [exact F0|]. split; [exact C0|].
    destruct (proj2 (X18_IsValid_decides point_y0) F0 C0) as (x3 & E & _ & _ & _ & D).
    apply D. vm_compute in E. injection E as <-. vm_compute. reflexivity.
Defined.

(** X19.  [SetCompressed(xin, fOdd)] with [xin] within the magnitude-8
    bounds leaves the receiver not flagged infinity, with [x = xin],
    [z = 1] and a [y] whose square is congruent to [c = xin^3 + 7] or to
    [-c].  When [c] is a square modulo the prime the receiver is a point of
    the curve, and [y] is one of the two square roots; and when [y] is not
    congruent to 0, [IsOdd] of [y] is [fOdd]. *)
Theorem X19_SetCompressed_decompresses
  (this : addr) (xin : FieldElem) (fOdd : bool) (h : Store) :
  magnitude 8 xin ->
  runs (SetCompressed this xin fOdd) h (fun _ h' =>
    exists Y, h' this = mkGroupElemJac false xin Y (FieldElem_of_int 1) /\
      magnitude 2 Y /\ folded Y < 2^256 /\
      let c := (fc 7 + fv xin * (fv xin * fv xin))%fp in
      ((fv Y * fv Y = c)%fp \/ (fv Y * fv Y = - c)%fp) /\
      (forall b : Fp, c = (b * b)%fp ->
         on_curve (h' this) /\ (fv Y = b \/ fv Y = (- b)%fp)) /\
      (fv Y <> Zmod.zero -> fst (IsOdd Y) = fOdd)).
Proof. exact (SetCompressed_ok this xin fOdd h). Qed.

Lemma X19_SetCompressed_decompresses_witness :
  magnitude 8 (gx generator) /\
  runs (SetCompressed 0%nat (gx generator) false) (fun _ => GroupElemJac_default)
    (fun _ h' => fInfinity (h' 0%nat) = false /\ gx (h' 0%nat) = gx generator).
Proof.
  assert (M : magnitude 8 (gx generator))
    by (unfold magnitude, limbs_le; vm_compute; intuition discriminate).
  split; [exact M|].
  destruct (X19_SetCompressed_decompresses 0%nat (gx generator) false
              (fun _ => GroupElemJac_default) M) as (u & h' & E & Y & Hh & _).
  exists u, h'. split; [exact E|]. rewrite Hh. split; reflexivity.
Defined.

(** X20.  [GroupElem::SetNeg(p)], for [p] with a [y] on which [Normalize]
    is right: the receiver gets the flag and the [x] of [p] and a [y]
    congruent to [-y], within the magnitude-2 bounds; [p] keeps its flag
    and [x] and is left with [y] in canonical form; a point of the curve
    is mapped to a point of the curve; and negating twice gives the flag,
    the [x] and the residue of [y] back. *)
Theorem X20_GroupElem_SetNeg (p : GroupElem) :
  magnitude 8 (a_y p) -> folded (a_y p) < 2^256 ->
  let r := fst (GroupElem_SetNeg p) in
  let p' := snd (GroupElem_SetNeg p) in
  let r2 := fst (GroupElem_SetNeg r) in
  a_fInfinity r = a_fInfinity p /\ a_x r = a_x p /\
  eqp (value (a_y r) + value (a_y p)) 0 /\ magnitude 2 (a_y r) /\
  a_fInfinity p' = a_fInfinity p /\ a_x p' = a_x p /\
  canonical (a_y p') /\ eqp (value (a_y p')) (value (a_y p)) /\
  (on_curve_affine p -> on_curve_affine r) /\
  a_fInfinity r2 = a_fInfinity p /\ a_x r2 = a_x p /\
  eqp (value (a_y r2)) (value (a_y p)).
Proof.
  intros My Fy.
  pose proof (GroupElem_SetNeg_ok p My Fy) as H. cbv zeta in H.
  destruct H as (I & X & Y & M2 & _ & I' & X' & C' & Y' & O).
  pose proof (GroupElem_SetNeg_twice p My Fy) as H. cbv zeta in H.
  destruct H as (I2 & X2 & Y2).
  cbv zeta. split; [exact I|]. split; [exact X|]. split.
  { apply of_Z_eq_iff. rewrite Zmod.of_Z_add. fold (fv (a_y (fst (GroupElem_SetNeg p)))).
    fold (fv (a_y p)). rewrite Y. ring. }
  split; [exact M2|]. split; [exact I'|]. split; [exact X'|]. split; [exact C'|].
  split; [apply fv_eq_iff, Y'|]. split; [exact O|].
  split; [exact I2|]. split; [exact X2|]. apply fv_eq_iff, Y2.
Qed.

Lemma X20_GroupElem_SetNeg_witness :
  magnitude 8 (FieldElem_of_int 7) /\ folded (FieldElem_of_int 7) < 2^256 /\
  eqp (value (a_y (fst (GroupElem_SetNeg
                          (SetXY (FieldElem_of_int 1) (FieldElem_of_int 7))))) +
       value (FieldElem_of_int 7)) 0.
Proof.
  assert (M : magnitude 8 (FieldElem_of_int 7))
    by (unfold magnitude, limbs_le; cbn; lia).
  assert (F : folded (FieldElem_of_int 7) < 2^256) by (vm_compute; reflexivity).
  split; [exact M|]. split; [exact F|].
  pose proof (X20_GroupElem_SetNeg (SetXY (FieldElem_of_int 1) (FieldElem_of_int 7))
                M F) as H.
  exact (proj1 (proj2 (proj2 H))).
Defined.

(** X21.  [GroupElem::ToString] is the string [(inf)] on a point flagged
    infinity, which it leaves as it is; on any other point it is the 131
    characters of an opening parenthesis, the [ToString] of [x], a comma,
    the [ToString] of [y] and a closing parenthesis, and never the string
    [(inf)]. *)
Theorem X21_GroupElem_ToString (g : GroupElem) :
  (a_fInfinity g = true -> GroupElem_ToString g = ("(inf)"%string, g)) /\
  (a_fInfinity g = false ->
   fst (GroupElem_ToString g) =
     ("(" ++ fst (ToString (a_x g)) ++ "," ++ fst (ToString (a_y g)) ++ ")")%string /\
   String.length (fst (GroupElem_ToString g)) = 131%nat /\
   fst (GroupElem_ToString g) <> "(inf)"%string).
Proof. exact (GroupElem_ToString_ok g). Qed.

Lemma X21_GroupElem_ToString_witness :
  a_fInfinity GroupElem_default = true /\
  GroupElem_ToString GroupElem_default = ("(inf)"%string, GroupElem_default) /\
  a_fInfinity (SetXY (FieldElem_of_int 1) (FieldElem_of_int 7)) = false /\
  String.length
    (fst (GroupElem_ToString (SetXY (FieldElem_of_int 1) (FieldElem_of_int 7))))
  = 131%nat.
Proof.
  assert (I : a_fInfinity GroupElem_default = true) by reflexivity.
  assert (F : a_fInfinity (SetXY (FieldElem_of_int 1) (FieldElem_of_int 7)) = false)
    by reflexivity.
  split; [exact I|].
  split; [exact (proj1 (X21_GroupElem_ToString GroupElem_default) I)|].
  split; [exact F|].
  exact (proj1 (proj2 (proj2 (X21_GroupElem_ToString _) F))).
Defined.

(** X22.  [GroupElemJac::ToString] never returns [(inf)]: on every
    receiver with coordinates within the magnitude-8 bounds, flagged
    infinity or not, it returns the 131 characters of the coordinates that
    [GetAffine] leaves in the receiver, whose flag is unchanged and whose
    [z] is reset to 1. *)
Theorem X22_GroupElemJac_ToString (this : addr) (h : Store) :
  coords8 (h this) ->
  runs (GroupElemJac_ToString this) h (fun s h' =>
    s <> "(inf)"%string /\ String.length s = 131%nat /\
    String.get 0 s = Some "("%char /\
    fInfinity (h' this) = fInfinity (h this) /\
    gz (h' this) = FieldElem_of_int 1 /\
    s = ("(" ++ fst (ToString (gx (h' this))) ++ "," ++
         fst (ToString (gy (h' this))) ++ ")")%string).
Proof. exact (GroupElemJac_ToString_ok this h). Qed.

Lemma X22_GroupElemJac_ToString_witness :
  coords8 GroupElemJac_default /\ fInfinity GroupElemJac_default = true /\
  runs (GroupElemJac_ToString 0%nat) (fun _ => GroupElemJac_default)
    (fun s _ => s <> "(inf)"%string /\ String.length s = 131%nat).
Proof.
  assert (C : coords8 GroupElemJac_default)
    by (unfold coords8, magnitude, limbs_le; cbn; lia).
  split; [exact C|]. split; [reflexivity|].
  destruct (X22_GroupElemJac_ToString 0%nat (fun _ => GroupElemJac_default) C)
    as (s & h' & E & N & L & _).
  exists s, h'. split; [exact E|]. split; [exact N|exact L].
Defined.

(** X23.  The outcomes of [SetDouble(p)].  If [p] is flagged infinity, or
    if [IsZero] of the receiver's [y] answers [true], the receiver is
    flagged infinity.  Otherwise (coordinates within the magnitude-8
    bounds) the flag of the receiver is left as it was and its coordinates
    become [X' = 9 X^4 - 8 X Y^2], [Y' = 36 X^3 Y^2 - 27 X^6 - 8 Y^4],
    [Z' = 2 Y Z] of the operand [p] as it is after the test, which has
    normalised the [y] of the receiver; they are within the magnitude
    bounds 6, 4 and 2. *)
Theorem X23_SetDouble_outcomes (this p : addr) (h : Store) :
  let h1 := store h this (tested (h this)) in
  (fInfinity (h p) = true ->
   runs (SetDouble this p) h (fun _ h' => fInfinity (h' this) = true)) /\
  (fInfinity (h p) = false -> fst (IsZero (gy (h this))) = true ->
   runs (SetDouble this p) h (fun _ h' => fInfinity (h' this) = true)) /\
  (fInfinity (h p) = false -> fst (IsZero (gy (h this))) = false ->
   coords8 (h1 p) ->
   runs (SetDouble this p) h (fun _ h' =>
     fInfinity (h' this) = fInfinity (h this) /\
     fv (gx (h' this)) = dX (h1 p) /\ fv (gy (h' this)) = dY (h1 p) /\
     fv (gz (h' this)) = dZ (h1 p) /\
     magnitude 6 (gx (h' this)) /\ magnitude 4 (gy (h' this)) /\
     magnitude 2 (gz (h' this)))).
Proof. exact (SetDouble_outcomes this p h). Qed.

Lemma X23_SetDouble_outcomes_witness :
  fInfinity generator = false /\ fst (IsZero (gy generator)) = false /\
  coords8 (store (fun _ => generator) 0%nat (tested generator) 0%nat) /\
  runs (SetDouble 0%nat 0%nat) (fun _ => generator) (fun _ h' =>
    fInfinity (h' 0%nat) = false /\ magnitude 2 (gz (h' 0%nat))).
Proof.
  assert (F : fInfinity generator = false) by reflexivity.
  assert (Z : fst (IsZero (gy generator)) = false) by (vm_compute; reflexivity).
  assert (C : coords8 (store (fun _ => generator) 0%nat (tested generator) 0%nat))
    by (unfold coords8, magnitude, limbs_le; vm_compute; intuition discriminate).
  split; [exact F|]. split; [exact Z|]. split; [exact C|].
  destruct (X23_SetDouble_outcomes 0%nat 0%nat (fun _ => generator)) as (_ & _ & T).
  destruct (T F Z C) as (u & h' & E & I & _ & _ & _ & _ & _ & Mz).
  exists u, h'. split; [exact E|]. split; [exact I|exact Mz].
Defined.

(** X24.  [SetDouble] keeps the curve: if [p] has coordinates within the
    magnitude-8 bounds and is flagged infinity or satisfies
    [y^2 = x^3 + 7 z^6], the receiver ends flagged infinity or satisfies the
    equation, provided that, when the point is doubled in place,
    [Normalize] is right on its [y]. *)
Theorem X24_SetDouble_keeps_curve (this p : addr) (h : Store) :
  coords8 (h p) ->
  (fInfinity (h p) = false -> on_curve (h p)) ->
  (p = this -> folded (gy (h p)) < 2^256) ->
  runs (SetDouble this p) h (fun _ h' =>
    fInfinity (h' this) = true \/ on_curve (h' this)).
Proof. exact (SetDouble_keeps_curve this p h). Qed.

(** X25.  [SetAdd] on two Jacobian points keeps the curve, under the same
    proviso for the case that ends in a doubling in place. *)
Theorem X25_SetAdd_keeps_curve (this p q : addr) (h : Store) :
  coords8 (h p) -> coords8 (h q) ->
  (fInfinity (h p) = false -> on_curve (h p)) ->
  (fInfinity (h q) = false -> on_curve (h q)) ->
  (p = this -> folded (gy (h p)) < 2^256) ->
  runs (SetAdd this p q) h (fun _ h' =>
    fInfinity (h' this) = true \/ on_curve (h' this)).
Proof. exact (SetAdd_keeps_curve this p q h). Qed.

Lemma X24_SetDouble_keeps_curve_witness :
  coords8 generator /\ on_curve generator /\ folded (gy generator) < 2^256 /\
  runs (SetDouble 0%nat 0%nat) (fun _ => generator) (fun _ h' =>
    fInfinity (h' 0%nat) = true \/ on_curve (h' 0%nat)).
Proof.
  assert (C : coords8 generator)
    by (unfold coords8, magnitude, limbs_le; vm_compute; intuition discriminate).
  assert (O : on_curve generator) by (apply on_curve_dec; vm_compute; reflexivity).
  assert (F : folded (gy generator) < 2^256) by (vm_compute; reflexivity).
  split; [exact C|]. split; [exact O|]. split; [exact F|].
  exact (X24_SetDouble_keeps_curve 0%nat 0%nat (fun _ => generator) C
           (fun _ => O) (fun _ => F)).
Defined.

Lemma X25_SetAdd_keeps_curve_witness :
  coords8 generator /\ on_curve generator /\ folded (gy generator) < 2^256 /\
  runs (SetAdd 0%nat 0%nat 1%nat) (fun _ => generator) (fun _ h' =>
    fInfinity (h' 0%nat) = true \/ on_curve (h' 0%nat)).
Proof.
  assert (C : coords8 generator)
    by (unfold coords8, magnitude, limbs_le; vm_compute; intuition discriminate).
  assert (O : on_curve generator) by (apply on_curve_dec; vm_compute; reflexivity).
  assert (F : folded (gy generator) < 2^256) by (vm_compute; reflexivity).
  split; [exact C|]. split; [exact O|]. split; [exact F|].
  exact (X25_SetAdd_keeps_curve 0%nat 0%nat 1%nat (fun _ => generator) C C
           (fun _ => O) (fun _ => O) (fun _ => F)).
Defined.

(** X26.  The outcomes of [SetAdd] with an affine second operand [q].  If
    [p] is flagged infinity the receiver becomes [q] with [z = 1]; if [q]
    is flagged infinity, a copy of [p].  Otherwise (coordinates within the
    magnitude-8 bounds, [Normalize] right on the [x] and [y] of [p]), with
    [U1 = x1], [U2 = x2 z1^2], [S1 = y1], [S2 = y2 z1^3] as residues: when
    [U1 = U2] and [S1 = S2] the run is the run of [SetDouble(p)] on the
    receiver, whose flag has been cleared; when [U1 = U2] and [S1 <> S2]
    the receiver is flagged infinity; in the remaining cases the receiver
    is not flagged infinity and holds [X3 = R^2 - H^3 - 2 U1 H^2],
    [Y3 = R (U1 H^2 - X3) - S1 H^3], [Z3 = z1 H], with [H = U2 - U1] and
    [R = S2 - S1]. *)
Theorem X26_SetAdd_affine_outcomes (this p : addr) (q : GroupElem) (h : Store) :
  let P := h p in
  (fInfinity P = true ->
   runs (SetAdd_affine this p q) h (fun _ h' =>
     h' this = mkGroupElemJac (a_fInfinity q) (a_x q) (a_y q) (FieldElem_of_int 1))) /\
  (fInfinity P = false -> a_fInfinity q = true ->
   runs (SetAdd_affine this p q) h (fun _ h' => h' this = P)) /\
  (fInfinity P = false -> a_fInfinity q = false ->
   coords8 P -> magnitude 8 (a_x q) -> magnitude 8 (a_y q) ->
   folded (gx P) < 2^256 -> folded (gy P) < 2^256 ->
   let U1 := fv (gx P) in let U2 := aU2 P q in
   let S1 := fv (gy P) in let S2 := aS2 P q in
   let H := (U2 - U1)%fp in let R := (S2 - S1)%fp in
   (U1 = U2 -> S1 = S2 ->
    SetAdd_affine this p q h =
    SetDouble this p (store h this (with_inf (h this) false))) /\
   (U1 = U2 -> S1 <> S2 ->
    runs (SetAdd_affine this p q) h (fun _ h' => fInfinity (h' this) = true)) /\
   (U1 <> U2 ->
    runs (SetAdd_affine this p q) h (fun _ h' =>
      fInfinity (h' this) = false /\
      fv (gx (h' this)) = (R * R - H * H * H - two * U1 * H * H)%fp /\
      fv (gy (h' this)) =
        (R * (U1 * H * H - fv (gx (h' this))) - S1 * H * H * H)%fp /\
      fv (gz (h' this)) = (fv (gz P) * H)%fp))).
Proof. exact (SetAdd_affine_outcomes this p q h). Qed.

Lemma X26_SetAdd_affine_outcomes_witness :
  (fInfinity GroupElemJac_default = true /\
   runs (SetAdd_affine 0%nat 0%nat (SetXY (gx generator) (gy generator)))
        (fun _ => GroupElemJac_default)
        (fun _ h' => h' 0%nat = generator)) /\
  (coords8 generator /\
   folded (gx generator) < 2^256 /\ folded (gy generator) < 2^256 /\
   fv (gx generator) <> aU2 generator affine_same_point /\
   runs (SetAdd_affine 0%nat 0%nat affine_same_point) (fun _ => generator)
     (fun _ h' =>
        let H := (aU2 generator affine_same_point - fv (gx generator))%fp in
        let R := (aS2 generator affine_same_point - fv (gy generator))%fp in
        fInfinity (h' 0%nat) = false /\
        fv (gx (h' 0%nat)) =
          (R * R - H * H * H - two * fv (gx generator) * H * H)%fp /\
        fv (gy (h' 0%nat)) =
          (R * (fv (gx generator) * H * H - fv (gx (h' 0%nat)))
           - fv (gy generator) * H * H * H)%fp /\
        fv (gz (h' 0%nat)) = (fv (gz generator) * H)%fp)) /\
  (fv (gx generator) = aU2 generator (SetXY (gx generator) (gy generator)) /\
   fv (gy generator) = aS2 generator (SetXY (gx generator) (gy generator)) /\
   SetAdd_affine 0%nat 0%nat (SetXY (gx generator) (gy generator))
     (fun _ => generator) =
   SetDouble 0%nat 0%nat
     (store (fun _ => generator) 0%nat (with_inf generator false))) /\
  (fv (gx generator) =
     aU2 generator (SetXY (gx generator) (SetNeg (gy generator) 1)) /\
   fv (gy generator) <>
     aS2 generator (SetXY (gx generator) (SetNeg (gy generator) 1)) /\
   runs (SetAdd_affine 0%nat 0%nat (SetXY (gx generator) (SetNeg (gy generator) 1)))
        (fun _ => generator)
        (fun _ h' => fInfinity (h' 0%nat) = true)).
Proof.
  assert (I : fInfinity GroupElemJac_default = true) by reflexivity.
  assert (F : fInfinity generator = false) by reflexivity.
  assert (C : coords8 generator)
    by (unfold coords8, magnitude, limbs_le; vm_compute; intuition discriminate).
  assert (Fx : folded (gx generator) < 2^256) by (vm_compute; reflexivity).
  assert (Fy : folded (gy generator) < 2^256) by (vm_compute; reflexivity).
  assert (Mq : magnitude 8 (a_x affine_same_point) /\
               magnitude 8 (a_y affine_same_point))
    by (unfold magnitude, limbs_le; vm_compute; intuition discriminate).
  assert (Mn : magnitude 8 (SetNeg (gy generator) 1))
    by (unfold magnitude, limbs_le; vm_compute; intuition discriminate).
  assert (D : fv (gx generator) <> aU2 generator affine_same_point)
    by (intros E; apply (f_equal Zmod.to_Z) in E; vm_compute in E; discriminate E).
  assert (U : fv (gx generator) = aU2 generator (SetXY (gx generator) (gy generator)))
    by (apply Zmod.to_Z_inj; vm_compute; reflexivity).
  assert (S : fv (gy generator) = aS2 generator (SetXY (gx generator) (gy generator)))
    by (apply Zmod.to_Z_inj; vm_compute; reflexivity).
  assert (U' : fv (gx generator) =
               aU2 generator (SetXY (gx generator) (SetNeg (gy generator) 1)))
    by (apply Zmod.to_Z_inj; vm_compute; reflexivity).
  assert (S' : fv (gy generator) <>
               aS2 generator (SetXY (gx generator) (SetNeg (gy generator) 1)))
    by (intros E; apply (f_equal Zmod.to_Z) in E; vm_compute in E; discriminate E).
  split; [|split; [|split]].
  - split; [exact I|].
    exact (proj1 (X26_SetAdd_affine_outcomes 0%nat 0%nat
                    (SetXY (gx generator) (gy generator))
                    (fun _ => GroupElemJac_default)) I).
  - split; [exact C|]. split; [exact Fx|]. split; [exact Fy|]. split; [exact D|].
    exact (proj2 (proj2 (proj2 (proj2 (X26_SetAdd_affine_outcomes 0%nat 0%nat
                    affine_same_point (fun _ => generator)))
             F eq_refl C (proj1 Mq) (proj2 Mq) Fx Fy)) D).
  - split; [exact U|]. split; [exact S|].
    exact (proj1 (proj2 (proj2 (X26_SetAdd_affine_outcomes 0%nat 0%nat
                    (SetXY (gx generator) (gy generator)) (fun _ => generator)))
             F eq_refl C (proj1 C) (proj1 (proj2 C)) Fx Fy) U S).
  - split; [exact U'|]. split; [exact S'|].
    exact (proj1 (proj2 (proj2 (proj2 (X26_SetAdd_affine_outcomes 0%nat 0%nat
                    (SetXY (gx generator) (SetNeg (gy generator) 1))
                    (fun _ => generator)))
             F eq_refl C (proj1 C) Mn Fx Fy)) U' S').
Defined.

(** X27.  [SetAdd] with an affine second operand keeps the curve: if [p]
    is flagged infinity or satisfies [y^2 = x^3 + 7 z^6], and [q] is
    flagged infinity or satisfies [y^2 = x^3 + 7], the receiver ends
    flagged infinity or satisfies the equation, for coordinates within the
    magnitude-8 bounds and [Normalize] right on the [x] and [y] of [p].
    This is the call [x1.SetAdd(x1, g2a)] of [main]. *)
Theorem X27_SetAdd_affine_keeps_curve
  (this p : addr) (q : GroupElem) (h : Store) :
  coords8 (h p) -> magnitude 8 (a_x q) -> magnitude 8 (a_y q) ->
  folded (gx (h p)) < 2^256 -> folded (gy (h p)) < 2^256 ->
  (fInfinity (h p) = false -> on_curve (h p)) ->
  (a_fInfinity q = false -> on_curve_affine q) ->
  runs (SetAdd_affine this p q) h (fun _ h' =>
    fInfinity (h' this) = true \/ on_curve (h' this)).
Proof. exact (SetAdd_affine_keeps_curve this p q h). Qed.

Lemma X27_SetAdd_affine_keeps_curve_witness :
  coords8 generator /\ on_curve generator /\
  on_curve_affine (SetXY (gx generator) (gy generator)) /\
  runs (SetAdd_affine 0%nat 0%nat (SetXY (gx generator) (gy generator)))
       (fun _ => generator)
       (fun _ h' => fInfinity (h' 0%nat) = true \/ on_curve (h' 0%nat)).
Proof.
  assert (C : coords8 generator)
    by (unfold coords8, magnitude, limbs_le; vm_compute; intuition discriminate).
  assert (O : on_curve generator) by (apply on_curve_dec; vm_compute; reflexivity).
  assert (A : on_curve_affine (SetXY (gx generator) (gy generator)))
    by (unfold on_curve_affine, eqp; vm_compute; reflexivity).
  assert (Fx : folded (gx generator) < 2^256) by (vm_compute; reflexivity).
  assert (Fy : folded (gy generator) < 2^256) by (vm_compute; reflexivity).
  split; [exact C|]. split; [exact O|]. split; [exact A|].
  destruct C as (Mx & My & Mz).
  exact (X27_SetAdd_affine_keeps_curve 0%nat 0%nat
           (SetXY (gx generator) (gy generator)) (fun _ => generator)
           (conj Mx (conj My Mz)) Mx My Fx Fy (fun _ => O) (fun _ => A)).
Defined.

(** X28.  The outcomes of [SetAdd] on Jacobian points [p] and [q], the
    receiver being any object of the store, [p] and [q] included.  If [p]
    is flagged infinity the receiver becomes a copy of [q]; otherwise, if
    [q] is flagged infinity, a copy of [p].  Otherwise (coordinates within
    the magnitude-8 bounds), with [U1 = x1 z2^2], [U2 = x2 z1^2],
    [S1 = y1 z2^3], [S2 = y2 z1^3] as residues: when [U1 = U2] and
    [S1 = S2] the run is the run of [SetDouble(p)] on the receiver, whose
    flag has been cleared; when [U1 = U2] and [S1 <> S2] the receiver is
    flagged infinity; in the remaining cases the receiver is not flagged
    infinity and holds [X3 = R^2 - H^3 - 2 U1 H^2],
    [Y3 = R (U1 H^2 - X3) - S1 H^3], [Z3 = z1 z2 H], with [H = U2 - U1] and
    [R = S2 - S1]. *)
Theorem X28_SetAdd_outcomes (this p q : addr) (h : Store) :
  let P := h p in let Q := h q in
  (fInfinity P = true -> runs (SetAdd this p q) h (fun _ h' => h' this = Q)) /\
  (fInfinity P = false -> fInfinity Q = true ->
   runs (SetAdd this p q) h (fun _ h' => h' this = P)) /\
  (fInfinity P = false -> fInfinity Q = false -> coords8 P -> coords8 Q ->
   let U1 := jU1 P Q in let U2 := jU2 P Q in
   let S1 := jS1 P Q in let S2 := jS2 P Q in
   let H := (U2 - U1)%fp in let R := (S2 - S1)%fp in
   (U1 = U2 -> S1 = S2 ->
    SetAdd this p q h =
    SetDouble this p (store h this (with_inf (h this) false))) /\
   (U1 = U2 -> S1 <> S2 ->
    runs (SetAdd this p q) h (fun _ h' => fInfinity (h' this) = true)) /\
   (U1 <> U2 ->
    runs (SetAdd this p q) h (fun _ h' =>
      fInfinity (h' this) = false /\
      fv (gx (h' this)) = (R * R - H * H * H - two * U1 * H * H)%fp /\
      fv (gy (h' this)) =
        (R * (U1 * H * H - fv (gx (h' this))) - S1 * H * H * H)%fp /\
      fv (gz (h' this)) = (fv (gz P) * fv (gz Q) * H)%fp))).
Proof. exact (SetAdd_outcomes this p q h). Qed.

Lemma X28_SetAdd_outcomes_witness :
  (fInfinity GroupElemJac_default = true /\
   runs (SetAdd 0%nat 0%nat 1%nat) (two_objects GroupElemJac_default generator)
        (fun _ h' => h' 0%nat = generator)) /\
  (fInfinity generator = false /\ fInfinity GroupElemJac_default = true /\
   runs (SetAdd 0%nat 0%nat 1%nat) (two_objects generator GroupElemJac_default)
        (fun _ h' => h' 0%nat = generator)) /\
  (fInfinity point_z2 = false /\ coords8 generator /\ coords8 point_z2 /\
   jU1 generator point_z2 <> jU2 generator point_z2 /\
   runs (SetAdd 0%nat 0%nat 1%nat) (two_objects generator point_z2)
     (fun _ h' =>
        let H := (jU2 generator point_z2 - jU1 generator point_z2)%fp in
        let R := (jS2 generator point_z2 - jS1 generator point_z2)%fp in
        fInfinity (h' 0%nat) = false /\
        fv (gx (h' 0%nat)) =
          (R * R - H * H * H - two * jU1 generator point_z2 * H * H)%fp /\
        fv (gy (h' 0%nat)) =
          (R * (jU1 generator point_z2 * H * H - fv (gx (h' 0%nat)))
           - jS1 generator point_z2 * H * H * H)%fp /\
        fv (gz (h' 0%nat)) = (fv (gz generator) * fv (gz point_z2) * H)%fp)) /\
  (jU1 generator generator = jU2 generator generator /\
   jS1 generator generator = jS2 generator generator /\
   SetAdd 0%nat 1%nat 1%nat (two_objects GroupElemJac_default generator) =
   SetDouble 0%nat 1%nat
     (store (two_objects GroupElemJac_default generator) 0%nat
            (with_inf GroupElemJac_default false))).
Proof.
  assert (Hi : fInfinity GroupElemJac_default = true) by reflexivity.
  assert (Hg : fInfinity generator = false) by reflexivity.
  assert (Hz : fInfinity point_z2 = false) by reflexivity.
  assert (Cg : coords8 generator)
    by (unfold coords8, magnitude, limbs_le; vm_compute; intuition discriminate).
  assert (Cz : coords8 point_z2)
    by (unfold coords8, magnitude, limbs_le; cbn; lia).
  assert (HU : jU1 generator point_z2 <> jU2 generator point_z2)
    by (intros E; apply (f_equal Zmod.to_Z) in E; vm_compute in E; discriminate E).
  split; [|split; [|split]].
  - split; [exact Hi|].
    exact (proj1 (X28_SetAdd_outcomes 0%nat 0%nat 1%nat
                    (two_objects GroupElemJac_default generator)) Hi).
  - split; [exact Hg|]. split; [exact Hi|].
    exact (proj1 (proj2 (X28_SetAdd_outcomes 0%nat 0%nat 1%nat
                    (two_objects generator GroupElemJac_default))) Hg Hi).
  - split; [exact Hz|]. split; [exact Cg|]. split; [exact Cz|]. split; [exact HU|].
    exact (proj2 (proj2 (proj2 (proj2 (X28_SetAdd_outcomes 0%nat 0%nat 1%nat
                    (two_objects generator point_z2))) Hg Hz Cg Cz)) HU).
  - split; [reflexivity|]. split; [reflexivity|].
    exact (proj1 (proj2 (proj2 (X28_SetAdd_outcomes 0%nat 1%nat 1%nat
                    (two_objects GroupElemJac_default generator))) Hg Hg Cg Cg)
             eq_refl eq_refl).
Defined.
